(** * Optimized_RSA: the Bignum class of [src/bignum.cpp]

    A shallow embedding of the decimal digit-vector arithmetic
    ([operator-], [operator*], [operator/], [operator%], [mod_exponent]),
    of the text codec ([string_to_bignum], [bignum_to_string]) and of the
    line protocol ([padding], [large_encrypt], [large_decrypt]), followed
    by the properties of the specification that concern them. *)

From Stdlib Require Import Ascii String ZArith Zpow_facts Bool Lia List.
Import ListNotations.
Local Open Scope Z_scope.

(** ** Outcomes of a call

    A C++ call returns, leaves by an exception of the standard library,
    does not come back, or ends the process: an exception that nothing
    catches (one that leaves the function of a [std::thread], or [main])
    calls [std::terminate].  Loops whose trip count the source does not
    bound ([while]) are unrolled on a fuel argument; [OutOfFuel] is the
    outcome of a run that needs more iterations than the fuel allows. *)

Inductive exn : Type :=
| length_error
| out_of_range
| invalid_argument.

Inductive res (A : Type) : Type :=
| Ret (a : A)
| Throw (e : exn)
| OutOfFuel
| Terminated.

Arguments Ret {A} a.
Arguments Throw {A} e.
Arguments OutOfFuel {A}.
Arguments Terminated {A}.

Definition bind {A B : Type} (m : res A) (k : A -> res B) : res B :=
  match m with
  | Ret a => k a
  | Throw e => Throw e
  | OutOfFuel => OutOfFuel
  | Terminated => Terminated
  end.

Notation "x <- m ;; k" := (bind m (fun x => k))
  (at level 61, m at next level, right associativity).
Notation "' pat <- m ;; k" := (bind m (fun x => match x with pat => k end))
  (at level 61, pat pattern, m at next level, right associativity).

(** ** The digit vector

    [std::vector<int> bignum_vector], most significant digit first.  The
    entries are C++ [int]s; they are modelled as [Z] (signed overflow is
    undefined in C++, and on vectors of decimal digits no intermediate value
    of the arithmetic leaves the range [-10 .. 99]). *)

Definition Bignum : Type := list Z.

(** [v[i]] and [v[i] = x] for an index inside the vector. *)
Definition at_ (v : Bignum) (i : nat) : Z := nth i v 0.

Fixpoint set_ (v : Bignum) (i : nat) (x : Z) : Bignum :=
  match v, i with
  | [], _ => []
  | _ :: tl, O => x :: tl
  | d :: tl, S i' => d :: set_ tl i' x
  end.

(** The value of a character as [unsigned char]. *)
Definition char_code (ch : ascii) : Z := Z.of_N (N_of_ascii ch).

(** The value of a plain [char], which is signed where the code is built
    (x86-64): the bytes from 128 on are the negative numbers [-128 .. -1]. *)
Definition plain_char (ch : ascii) : Z :=
  if 128 <=? char_code ch then char_code ch - 256 else char_code ch.

(** [Bignum::Bignum(const std::string &)]: one entry [ch - '0'] per
    character, nothing checked and nothing trimmed. *)
Definition Bignum_of_string (string_num : list ascii) : Bignum :=
  map (fun ch => plain_char ch - 48) string_num.

(** [remove_excess]: erase leading zeros while more than one entry is left. *)
Fixpoint remove_excess (v : Bignum) : Bignum :=
  match v with
  | d :: tl =>
      if (Nat.ltb 1 (length v)) && (d =? 0) then remove_excess tl else v
  | [] => []
  end.

(** [operator==]: equality of the vectors. *)
Fixpoint bignum_eqb (a b : Bignum) : bool :=
  match a, b with
  | [], [] => true
  | x :: a', y :: b' => (x =? y) && bignum_eqb a' b'
  | _, _ => false
  end.

(** [std::lexicographical_compare]. *)
Fixpoint lexicographical_compare (a b : list Z) : bool :=
  match a, b with
  | _, [] => false
  | [], _ :: _ => true
  | x :: a', y :: b' =>
      if x <? y then true
      else if y <? x then false
      else lexicographical_compare a' b'
  end.

(** [operator<]: the shorter vector is the smaller one; vectors of one
    size are compared entry by entry. *)
Definition bignum_ltb (a b : Bignum) : bool :=
  if negb (Nat.eqb (length a) (length b))
  then Nat.ltb (length a) (length b)
  else lexicographical_compare a b.

(** [operator>]. *)
Definition bignum_gtb (a b : Bignum) : bool := bignum_ltb b a.

(** [operator-].  The loop runs for [k = max_size - 1] down to [0]; the
    counter of [subtract_loop] is [k + 1].  [i] and [j] run below zero on
    the shorter operand, as in the source. *)
Fixpoint subtract_loop (n : nat) (a b : Bignum) (i j : Z) (borrow : Z)
         (difference : Bignum) : Bignum :=
  match n with
  | O => difference
  | S k =>
      let first_dig := if 0 <=? i then at_ a (Z.to_nat i) else 0 in
      let second_dig := if 0 <=? j then at_ b (Z.to_nat j) else 0 in
      let curr_diff := first_dig - second_dig - borrow in
      if curr_diff <? 0
      then subtract_loop k a b (i - 1) (j - 1) 1
                         (set_ difference k (curr_diff + 10))
      else subtract_loop k a b (i - 1) (j - 1) 0
                         (set_ difference k curr_diff)
  end.

Definition subtract (a b : Bignum) : Bignum :=
  let max_size := Nat.max (length a) (length b) in
  let difference := repeat 0 max_size in
  remove_excess
    (subtract_loop max_size a b
                   (Z.of_nat (length a) - 1) (Z.of_nat (length b) - 1) 0
                   difference).

(** [operator*].  The counters of the two loops are [j + 1] and [i + 1].
    [%] and [/] of C++ truncate towards zero: [Z.rem] and [Z.quot]. *)
Fixpoint multiply_inner (n : nat) (a_i : Z) (b : Bignum) (i : nat)
         (carry_over : Z) (product : Bignum) : Bignum * Z :=
  match n with
  | O => (product, carry_over)
  | S j =>
      let curr_product :=
        a_i * at_ b j + at_ product (i + j + 1) + carry_over in
      multiply_inner j a_i b i (Z.quot curr_product 10)
                     (set_ product (i + j + 1) (Z.rem curr_product 10))
  end.

Fixpoint multiply_outer (n : nat) (a b : Bignum) (product : Bignum) : Bignum :=
  match n with
  | O => product
  | S i =>
      if at_ a i =? 0 then multiply_outer i a b product
      else
        let '(product1, carry_over) :=
          multiply_inner (length b) (at_ a i) b i 0 product in
        multiply_outer i a b (set_ product1 i (at_ product1 i + carry_over))
  end.

Definition multiply (a b : Bignum) : Bignum :=
  let product_size := (length a + length b)%nat in
  remove_excess (multiply_outer (length a) a b (repeat 0 product_size)).

(** [operator/].  The remainder loses all its leading zeros (it may become
    the empty vector); the divisor is subtracted while the remainder is not
    smaller. *)
Fixpoint strip_zeros (v : Bignum) : Bignum :=
  match v with
  | d :: tl => if d =? 0 then strip_zeros tl else v
  | [] => []
  end.

Fixpoint divide_while (fuel : nat) (rem other : Bignum) (curr_div : Z)
  : res (Bignum * Z) :=
  match fuel with
  | O => OutOfFuel
  | S fuel' =>
      if negb (bignum_ltb rem other)
      then divide_while fuel' (subtract rem other) other (curr_div + 1)
      else Ret (rem, curr_div)
  end.

Fixpoint divide_for (fuel : nat) (digits : list Z) (other : Bignum)
         (quo rem : Bignum) : res Bignum :=
  match digits with
  | [] => Ret quo
  | i :: rest =>
      let rem1 := strip_zeros (rem ++ [i]) in
      '(rem2, curr_div) <- divide_while fuel rem1 other 0 ;;
      divide_for fuel rest other (quo ++ [curr_div]) rem2
  end.

Definition divide (fuel : nat) (a b : Bignum) : res Bignum :=
  quo <- divide_for fuel a b [0] [] ;;
  Ret (remove_excess quo).

(** [operator%]: the dividend minus quotient times divisor. *)
Definition modulo (fuel : nat) (a b : Bignum) : res Bignum :=
  q <- divide fuel a b ;;
  Ret (subtract a (multiply q b)).

(** [mod_exponent].  In one round the conditional multiplication and the
    squaring run as two asynchronous tasks; both read [curr_base] and
    [mod_exp] as they are at the start of the round, the multiplication is
    the only writer of [mod_exp], and both are joined before [curr_base] and
    [curr_exponent] are assigned.  A round is therefore the sequence below.
    [back()] of an empty exponent is undefined in C++ and read as [0]. *)
Definition zero : Bignum := [0].
Definition two : Bignum := [2].

Fixpoint mod_exponent_while (n fuel : nat)
         (mod_exp curr_base curr_exponent modulus : Bignum) : res Bignum :=
  match n with
  | O => OutOfFuel
  | S n' =>
      if negb (bignum_eqb curr_exponent zero) then
        mod_exp1 <-
          (if negb (Z.rem (last curr_exponent 0) 2 =? 0)
           then modulo fuel (multiply mod_exp curr_base) modulus
           else Ret mod_exp) ;;
        square_mod <- modulo fuel (multiply curr_base curr_base) modulus ;;
        next_exponent <- divide fuel curr_exponent two ;;
        mod_exponent_while n' fuel mod_exp1 square_mod next_exponent modulus
      else Ret mod_exp
  end.

Definition mod_exponent (fuel : nat) (base exponent modulus : Bignum)
  : res Bignum :=
  curr_base <- modulo fuel base modulus ;;
  mod_exp <- mod_exponent_while fuel fuel [1] curr_base exponent modulus ;;
  Ret (remove_excess mod_exp).

(** ** What a digit vector denotes *)

(** The number written by the entries, most significant first. *)
Fixpoint val (v : Bignum) : Z :=
  match v with
  | [] => 0
  | d :: tl => d * 10 ^ Z.of_nat (length tl) + val tl
  end.

(** All entries are decimal digits. *)
Definition is_digit (d : Z) : bool := (0 <=? d) && (d <=? 9).
Definition digits (v : Bignum) : Prop := forallb is_digit v = true.

(** The invariant of the specification: no leading zero unless the vector
    has exactly one entry. *)
Definition no_leading_zero (v : Bignum) : bool :=
  match v with
  | d :: _ :: _ => negb (d =? 0)
  | _ => true
  end.

(** A well-formed number: a non-empty vector of digits in canonical form. *)
Definition canonical (v : Bignum) : Prop :=
  digits v /\ v <> [] /\ no_leading_zero v = true.


(** ** Characters and strings

    A [std::string] is a list of characters; [char_code] is the value of
    [static_cast<unsigned char>]. *)

Definition std_string : Type := list ascii.

Definition lit (s : string) : std_string := list_ascii_of_string s.

Definition space : ascii := " "%char.
Definition newline : ascii := ascii_of_N 10.

(** [static_cast<char>] of an [int]. *)
Definition char_of_int (n : Z) : ascii := ascii_of_N (Z.to_N (n mod 256)).

(** [std::to_string(int)] and [operator<<(int)]: the decimal digits, after
    a minus sign for a negative number.  An [int] has at most ten digits. *)
Fixpoint decimal_loop (n : nat) (z : Z) (acc : std_string) : std_string :=
  match n with
  | O => acc
  | S n' =>
      let acc' := char_of_int (48 + z mod 10) :: acc in
      if z <? 10 then acc' else decimal_loop n' (z / 10) acc'
  end.

Definition int_to_string (z : Z) : std_string :=
  if z <? 0 then "-"%char :: decimal_loop 10 (- z) []
  else decimal_loop 10 z [].

(** [oss << std::setw(w) << std::setfill(c) << n]: the text of [n], with
    fill characters in front up to the width. *)
Definition setw_setfill (w : nat) (c : ascii) (s : std_string) : std_string :=
  repeat c (w - length s) ++ s.

(** [std::string::substr(pos, count)] and [substr(pos)]. *)
Definition substr (s : std_string) (pos count : nat) : res std_string :=
  if Nat.ltb (length s) pos then Throw out_of_range
  else Ret (firstn count (skipn pos s)).

Definition substr_from (s : std_string) (pos : nat) : res std_string :=
  if Nat.ltb (length s) pos then Throw out_of_range
  else Ret (skipn pos s).

(** [std::stoi]: leading white space, an optional sign, then decimal
    digits up to the first other character; [invalid_argument] when there
    is no digit, [out_of_range] outside [int]. *)
Definition is_space (c : ascii) : bool :=
  let n := char_code c in (n =? 32) || ((9 <=? n) && (n <=? 13)).

Definition is_digit_char (c : ascii) : bool :=
  let n := char_code c in (48 <=? n) && (n <=? 57).

Fixpoint skip_spaces (s : std_string) : std_string :=
  match s with
  | c :: tl => if is_space c then skip_spaces tl else s
  | [] => []
  end.

Fixpoint read_digits (s : std_string) (acc : Z) : Z :=
  match s with
  | c :: tl =>
      if is_digit_char c then read_digits tl (acc * 10 + (char_code c - 48))
      else acc
  | [] => acc
  end.

Definition stoi (str : std_string) : res Z :=
  let s := skip_spaces str in
  let '(negative, s) :=
    match s with
    | c :: tl =>
        if Ascii.eqb c "-" then (true, tl)
        else if Ascii.eqb c "+" then (false, tl)
        else (false, s)
    | [] => (false, s)
    end in
  match s with
  | c :: _ =>
      if is_digit_char c then
        let n := if negative then - read_digits s 0 else read_digits s 0 in
        if (n <? - 2 ^ 31) || (2 ^ 31 - 1 <? n) then Throw out_of_range
        else Ret n
      else Throw invalid_argument
  | [] => Throw invalid_argument
  end.

(** ** The text codec *)

(** [Bignum::to_string]: the decimal text of every entry, concatenated. *)
Definition to_string (v : Bignum) : std_string :=
  flat_map int_to_string v.

(** [string_to_bignum]: three zero-filled decimal characters per
    character, handed to the constructor. *)
Definition string_to_bignum (str : std_string) : Bignum :=
  let to_convert :=
    flat_map (fun ch => setw_setfill 3 "0" (int_to_string (char_code ch))) str in
  Bignum_of_string to_convert.

(** [bignum_to_string]: zeros in front up to a multiple of three
    characters, then one character per group of three. *)
Fixpoint decode_groups (to_convert : std_string) : res std_string :=
  match to_convert with
  | [] => Ret []
  | c1 :: c2 :: c3 :: rest =>
      n <- stoi [c1; c2; c3] ;;
      new_str <- decode_groups rest ;;
      Ret (char_of_int n :: new_str)
  | short =>
      n <- stoi short ;;
      Ret [char_of_int n]
  end.

Definition bignum_to_string (bignum : Bignum) : res std_string :=
  let to_convert := to_string bignum in
  let to_convert :=
    if negb (Nat.eqb (Nat.modulo (length to_convert) 3) 0)
    then repeat "0"%char (3 - Nat.modulo (length to_convert) 3) ++ to_convert
    else to_convert in
  decode_groups to_convert.

(** ** The line protocol *)

Definition MAX_CHARS_PER_CHUNK : nat := 96.

(** Arithmetic of [size_t] wraps modulo [2 ^ 64]; [std::string::append]
    of more than [max_size() - size()] characters throws [length_error]
    ([max_size()] is [2 ^ 63 - 1] here; any limit below [2 ^ 64 - 200] gives
    the same outcomes). *)
Definition size_t_wrap (z : Z) : Z := z mod 2 ^ 64.
Definition string_max_size : Z := 2 ^ 63 - 1.

Definition append_fill (s : std_string) (count : Z) (c : ascii) : res std_string :=
  if string_max_size - Z.of_nat (length s) <? count then Throw length_error
  else Ret (s ++ repeat c (Z.to_nat count)).

(** [padding]. *)
Definition padding (input : std_string) (line_num : Z) : res std_string :=
  let oss := setw_setfill 3 space (int_to_string line_num) in
  let result := oss ++ input in
  let padding_check := size_t_wrap (102 - Z.of_nat (length result)) in
  result <- append_fill result (size_t_wrap (padding_check - 3)) space ;;
  Ret (result ++ oss).

(** The lines [std::getline] reads from the text: a line ends at a newline
    or at the end of the text; at the end of the text a line is read only
    if it has a character. *)
Fixpoint getlines (stream : std_string) (line : std_string) : list std_string :=
  match stream with
  | [] => match line with [] => [] | _ => [line] end
  | c :: rest =>
      if Ascii.eqb c newline then line :: getlines rest []
      else getlines rest (line ++ [c])
  end.

(** The trailing spaces popped from the back of a string. *)
Fixpoint pop_spaces (reversed : std_string) : std_string :=
  match reversed with
  | c :: tl => if Ascii.eqb c space then pop_spaces tl else reversed
  | [] => []
  end.

Definition strip_trailing_spaces (s : std_string) : std_string :=
  rev (pop_spaces (rev s)).

Section Keys.
(** The key: [rsa_n], [rsa_e] and [rsa_d] are placeholders in the source
    ("to be replaced with actual values"); the three numbers built from
    them are taken as given. *)
Variables public_mod public_exp priv_exp : Bignum.

(** The task started for one padded line (captured by value). *)
Definition encrypt_task (fuel : nat) (padded_line : std_string)
  : res (std_string * std_string) :=
  half1 <- substr padded_line 0 51 ;;
  first_encrypted <- mod_exponent fuel (string_to_bignum half1) public_exp public_mod ;;
  half2 <- substr_from padded_line 51 ;;
  second_encrypted <- mod_exponent fuel (string_to_bignum half2) public_exp public_mod ;;
  Ret (to_string first_encrypted, to_string second_encrypted).

(** The reading loop of [large_encrypt]: truncation, padding, and one
    task per line; an exception of [padding] leaves the loop. *)
Fixpoint spawn_loop (lines : list std_string) (line_num : Z)
  : res (list std_string) :=
  match lines with
  | [] => Ret []
  | line :: rest =>
      let line :=
        if Nat.ltb MAX_CHARS_PER_CHUNK (length line)
        then firstn MAX_CHARS_PER_CHUNK line else line in
      padded_line <- padding line line_num ;;
      more <- spawn_loop rest (line_num + 1) ;;
      Ret (padded_line :: more)
  end.

(** The futures are asked for their results in the order of the vector
    [encrypt_parallel]; [get()] blocks until the task has finished, and
    throws what the task threw. *)
Fixpoint get_all {A : Type} (futures : list (res A)) : res (list A) :=
  match futures with
  | [] => Ret []
  | encryption :: rest =>
      pair <- encryption ;;
      more <- get_all rest ;;
      Ret (pair :: more)
  end.

(** The statements of [large_encrypt], up to the exception that leaves
    them, if one does. *)
Definition large_encrypt_body (fuel : nat) (text : std_string)
  : res (list (std_string * std_string)) :=
  padded_lines <- spawn_loop (getlines text []) 1 ;;
  get_all (map (encrypt_task fuel) padded_lines).

(** The padded lines whose tasks the reading loop has started when it
    ends, or when an exception of [padding] leaves it. *)
Fixpoint started (lines : list std_string) (line_num : Z) : list std_string :=
  match lines with
  | [] => []
  | line :: rest =>
      let line :=
        if Nat.ltb MAX_CHARS_PER_CHUNK (length line)
        then firstn MAX_CHARS_PER_CHUNK line else line in
      match padding line line_num with
      | Ret padded_line => padded_line :: started rest (line_num + 1)
      | _ => []
      end
  end.

(** The destructor of a future that [std::async] returned blocks until
    its task has finished, and drops what the task returned or threw. *)
Fixpoint wait_all {A : Type} (futures : list (res A)) : res unit :=
  match futures with
  | [] => Ret tt
  | future :: rest =>
      match future with
      | Ret _ => wait_all rest
      | Throw _ => wait_all rest
      | OutOfFuel => OutOfFuel
      | Terminated => Terminated
      end
  end.

(** An exception that leaves the body of a call whose caller catches it
    unwinds the stack: the futures of the call are destroyed before the
    exception goes on. *)
Definition unwinding {A B : Type} (futures : list (res A)) (body : res B) : res B :=
  match body with
  | Throw e => _ <- wait_all futures ;; Throw e
  | _ => body
  end.

(** [large_encrypt], as a caller that catches its exceptions sees it. *)
Definition large_encrypt (fuel : nat) (text : std_string)
  : res (list (std_string * std_string)) :=
  unwinding (map (encrypt_task fuel) (started (getlines text []) 1))
            (large_encrypt_body fuel text).

(** An exception that leaves the function of a [std::thread] is not
    caught: the process ends by [std::terminate]. *)
Definition in_thread {A : Type} (body : res A) : res A :=
  match body with
  | Throw _ => Terminated
  | _ => body
  end.

(** [large_decrypt]: the two threads are joined before their results are
    read, the third before the string is returned. *)
Definition large_decrypt (fuel : nat) (first second : std_string)
  : res std_string :=
  first_decrypted <-
    in_thread (mod_exponent fuel (Bignum_of_string first) priv_exp public_mod) ;;
  second_decrypted <-
    in_thread (mod_exponent fuel (Bignum_of_string second) priv_exp public_mod) ;;
  in_thread
    (s1 <- bignum_to_string first_decrypted ;;
     s2 <- bignum_to_string second_decrypted ;;
     let decrypted_str := s1 ++ s2 in
     decrypted_str <-
       substr decrypted_str 3
              (Z.to_nat (size_t_wrap (Z.of_nat (length decrypted_str) - 6))) ;;
     Ret (strip_trailing_spaces decrypted_str)).
End Keys.

(** *** Completion order of the tasks

    Each future has a shared state that holds the outcome of its task once
    the task has completed.  A schedule is the order in which the tasks
    complete; [large_encrypt] reads the shared states in the order of the
    vector once all tasks have completed. *)
Fixpoint store {A : Type} (states : list (option A)) (i : nat) (x : A)
  : list (option A) :=
  match states, i with
  | [], _ => []
  | _ :: tl, O => Some x :: tl
  | s :: tl, S i' => s :: store tl i' x
  end.

Definition complete {A : Type} (tasks : list (res A))
           (states : list (option (res A))) (i : nat) : list (option (res A)) :=
  match nth_error tasks i with
  | Some outcome => store states i outcome
  | None => states
  end.

Definition run_schedule {A : Type} (tasks : list (res A)) (schedule : list nat)
  : list (option (res A)) :=
  fold_left (complete tasks) schedule (repeat None (length tasks)).

(** A future whose task has not completed blocks [get()] and its
    destructor. *)
Definition state_outcome {A : Type} (state : option (res A)) : res A :=
  match state with
  | Some outcome => outcome
  | None => OutOfFuel
  end.

Definition get_states {A : Type} (states : list (option (res A))) : res (list A) :=
  get_all (map state_outcome states).

Definition large_encrypt_scheduled (public_mod public_exp : Bignum)
           (schedule : list nat) (fuel : nat) (text : std_string)
  : res (list (std_string * std_string)) :=
  let states padded_lines :=
    run_schedule (map (encrypt_task public_mod public_exp fuel) padded_lines)
                 schedule in
  unwinding (map state_outcome (states (started (getlines text []) 1)))
            (padded_lines <- spawn_loop (getlines text []) 1 ;;
             get_states (states padded_lines)).

(** ** Lines of text *)

(** Printable ASCII: the codes 32 to 126. *)
Definition is_printable (c : ascii) : bool :=
  (32 <=? char_code c) && (char_code c <=? 126).

Definition printable (s : std_string) : Prop := forallb is_printable s = true.

(** The last character of the string is a space. *)
Definition ends_with_space (s : std_string) : bool :=
  match rev s with
  | c :: _ => Ascii.eqb c space
  | [] => false
  end.

(** A key for examples: the modulus [10 ^ 153], used with both exponents
    equal to [1] (every block is its own ciphertext). *)
Definition demo_mod : Bignum := 1 :: repeat 0 153.

(** ** Subtraction as the specification words it

    Digit by digit from the least significant digit, a borrow carried to
    the next digit, the shorter operand continued with zeros; then the
    leading zeros trimmed.  The operands are read least significant digit
    first. *)
Fixpoint borrow_chain (n : nat) (xs ys : list Z) (borrow : Z) : list Z :=
  match n with
  | O => []
  | S n' =>
      let d := hd 0 xs - hd 0 ys - borrow in
      (if d <? 0 then d + 10 else d)
        :: borrow_chain n' (tl xs) (tl ys) (if d <? 0 then 1 else 0)
  end.

Definition subtract_by_borrow (a b : Bignum) : Bignum :=
  remove_excess
    (rev (borrow_chain (Nat.max (length a) (length b)) (rev a) (rev b) 0)).

(** ** Digit strings *)

(** A string of decimal digit characters, and the character of code 0. *)
Definition digit_string (s : std_string) : Prop :=
  forallb is_digit_char s = true.

Definition nul : ascii := ascii_of_N 0.

(** ** The command line of [src/main.cpp]

    [main] is a function of the arguments and of the text on [std::cin];
    it gives what was written to [std::cout] and how the run ended
    ([Ret tt] for [return 0]).  [std::endl] and ["\n"] write the same
    character.  [main] catches nothing: an exception that reaches it ends
    the process by [std::terminate].  Whether the stack is unwound before
    is left to the implementation; under the C++ ABI of GCC and Clang it is
    not, and no future is waited for. *)
Definition endl : std_string := [newline].

Fixpoint std_string_eqb (s t : std_string) : bool :=
  match s, t with
  | [], [] => true
  | c :: s', d :: t' => Ascii.eqb c d && std_string_eqb s' t'
  | _, _ => false
  end.

(** The reading loop of the command [e]: every line read, followed by a
    newline. *)
Definition read_text (cin : std_string) : std_string :=
  flat_map (fun line => line ++ [newline]) (getlines cin []).

(** The reading loop of the command [d]: two lines at a time, until one of
    the two reads fails. *)
Fixpoint read_pairs (lines : list std_string) : list (std_string * std_string) :=
  match lines with
  | first :: second :: rest => (first, second) :: read_pairs rest
  | _ => []
  end.

Section Main.
Variables public_mod public_exp priv_exp : Bignum.

(** The printing loop of the command [d]: a line is written as soon as it
    is decrypted. *)
Fixpoint print_decrypted (fuel : nat)
         (encrypted_lines : list (std_string * std_string)) (cout : std_string)
  : std_string * res unit :=
  match encrypted_lines with
  | [] => (cout, Ret tt)
  | (first, second) :: rest =>
      match large_decrypt public_mod priv_exp fuel first second with
      | Ret decrypted => print_decrypted fuel rest (cout ++ decrypted ++ endl)
      | Throw _ => (cout, Terminated)
      | OutOfFuel => (cout, OutOfFuel)
      | Terminated => (cout, Terminated)
      end
  end.

Definition main (fuel : nat) (argv : list std_string) (cin : std_string)
  : std_string * res unit :=
  match argv with
  | _ :: command :: _ =>
      if std_string_eqb command (lit "e") then
        let to_encrypt := read_text cin in
        match to_encrypt with
        | [] => (lit "Error: No text to encrypt" ++ endl, Ret tt)
        | _ :: _ =>
            match large_encrypt_body public_mod public_exp fuel to_encrypt with
            | Ret encrypted_lines =>
                (flat_map (fun encrypted =>
                             fst encrypted ++ [newline] ++ snd encrypted ++ endl)
                          encrypted_lines,
                 Ret tt)
            | Throw _ => ([], Terminated)
            | OutOfFuel => ([], OutOfFuel)
            | Terminated => ([], Terminated)
            end
        end
      else if std_string_eqb command (lit "d") then
        let encrypted_lines := read_pairs (getlines cin []) in
        match encrypted_lines with
        | [] => (lit "Error: No values to decrypt" ++ endl, Ret tt)
        | _ :: _ => print_decrypted fuel encrypted_lines []
        end
      else (lit "Error: Unsupported command" ++ endl, Ret tt)
  | _ => (lit "Error: No command provided" ++ endl, Ret tt)
  end.
End Main.

(** What a pair of ciphertext strings has to do for its line: two digit
    strings that decrypt to the line, cut to 96 characters and without its
    trailing spaces. *)
Definition decrypts_to (public_mod priv_exp : Bignum) (fuel : nat)
           (line : std_string) (pair : std_string * std_string) : Prop :=
  digit_string (fst pair) /\ digit_string (snd pair) /\
  large_decrypt public_mod priv_exp fuel (fst pair) (snd pair)
  = Ret (strip_trailing_spaces (firstn 96 line)).

(** A string without a newline character. *)
Definition no_newline (s : std_string) : Prop :=
  forallb (fun ch => negb (Ascii.eqb ch newline)) s = true.

(** The lines written to [std::cout] for the pairs, and the two strings of
    every pair as lines. *)
Definition print_pairs (encrypted_lines : list (std_string * std_string))
  : std_string :=
  flat_map (fun encrypted => fst encrypted ++ [newline] ++ snd encrypted ++ endl)
           encrypted_lines.

Definition pair_lines (encrypted_lines : list (std_string * std_string))
  : list std_string :=
  flat_map (fun encrypted => [fst encrypted; snd encrypted]) encrypted_lines.
(** * Properties *)

(** ** The arithmetic on small numbers *)

Example subtract_ex : subtract [1;0;0;0] [1] = [9;9;9].
Proof. reflexivity. Qed.
Example multiply_ex : multiply [9;9] [9;9] = [9;8;0;1].
Proof. reflexivity. Qed.
Example divide_ex : divide 10 [1;0;0;0] [7] = Ret [1;4;2].
Proof. reflexivity. Qed.
Example modulo_ex : modulo 10 [1;0;0;0] [7] = Ret [6].
Proof. reflexivity. Qed.
Example mod_exponent_ex : mod_exponent 20 [4] [1;3] [4;9;7] = Ret [4;4;5].
Proof. vm_compute. reflexivity. Qed.

(** ** Lists, indices and values *)

Lemma pow10_pos (n : Z) : 0 <= n -> 0 < 10 ^ n.
Proof. intros. apply Z.pow_pos_nonneg; lia. Qed.

Lemma pow10_S (n : nat) : 10 ^ Z.of_nat (S n) = 10 * 10 ^ Z.of_nat n.
Proof. rewrite Nat2Z.inj_succ, Z.pow_succ_r by lia. reflexivity. Qed.

Lemma digits_cons d v : digits (d :: v) <-> (0 <= d <= 9) /\ digits v.
Proof.
  unfold digits, is_digit; simpl. rewrite andb_true_iff, andb_true_iff.
  rewrite Z.leb_le, Z.leb_le. tauto.
Qed.

Lemma digits_nil : digits [].
Proof. reflexivity. Qed.

Lemma digits_app u v : digits (u ++ v) <-> digits u /\ digits v.
Proof.
  unfold digits. rewrite forallb_app, andb_true_iff. tauto.
Qed.

Lemma digits_forall v : digits v <-> Forall (fun d => 0 <= d <= 9) v.
Proof.
  induction v as [|d v IH].
  - split; intros; [constructor | reflexivity].
  - rewrite digits_cons, IH. split.
    + intros [H1 H2]. constructor; assumption.
    + intros H. inversion H; subst. split; assumption.
Qed.

Lemma digits_skipn n v : digits v -> digits (skipn n v).
Proof.
  revert v. induction n as [|n IH]; intros [|d v] H; simpl; auto.
  apply IH. apply digits_cons in H. tauto.
Qed.

Lemma digits_repeat0 n : digits (repeat 0 n).
Proof.
  induction n; simpl; [reflexivity|]. apply digits_cons. split; [lia|assumption].
Qed.

Lemma digits_nth v i : digits v -> 0 <= nth i v 0 <= 9.
Proof.
  revert i. induction v as [|d v IH]; intros [|i] H; simpl; try lia.
  - apply digits_cons in H. tauto.
  - apply IH. apply digits_cons in H. tauto.
Qed.

Lemma val_app u v : val (u ++ v) = val u * 10 ^ Z.of_nat (length v) + val v.
Proof.
  induction u as [|d u IH]; simpl; [lia|].
  rewrite IH, length_app, Nat2Z.inj_add, Z.pow_add_r by lia. ring.
Qed.

Lemma val_bound v : digits v -> 0 <= val v < 10 ^ Z.of_nat (length v).
Proof.
  induction v as [|d v IH]; intros H.
  - simpl. lia.
  - apply digits_cons in H. destruct H as [Hd Hv]. specialize (IH Hv).
    cbn [val length]. rewrite pow10_S. nia.
Qed.

Lemma val_lower d v :
  digits (d :: v) -> d <> 0 -> 10 ^ Z.of_nat (length v) <= val (d :: v).
Proof.
  intros H Hd. apply digits_cons in H. destruct H as [Hr Hv].
  pose proof (val_bound v Hv). cbn [val].
  pose proof (pow10_pos (Z.of_nat (length v)) ltac:(lia)). nia.
Qed.

Lemma val_repeat0 n : val (repeat 0 n) = 0.
Proof. induction n; simpl; [reflexivity|]. rewrite IHn. lia. Qed.

Lemma length_set_ v i x : length (set_ v i x) = length v.
Proof.
  revert i. induction v as [|d v IH]; intros [|i]; simpl; auto.
Qed.

Lemma skipn_set_above v i x n :
  (i < n)%nat -> skipn n (set_ v i x) = skipn n v.
Proof.
  revert i n. induction v as [|d v IH]; intros [|i] [|n] H; simpl; auto; try lia.
  apply IH. lia.
Qed.

Lemma skipn_set_at v i x :
  (i < length v)%nat -> skipn i (set_ v i x) = x :: skipn (S i) v.
Proof.
  revert i. induction v as [|d v IH]; intros [|i] H; simpl in *; try lia; auto.
  apply IH. lia.
Qed.

Lemma skipn_at v i :
  (i < length v)%nat -> skipn i v = at_ v i :: skipn (S i) v.
Proof.
  unfold at_. revert i. induction v as [|d v IH]; intros [|i] H; simpl in *; try lia; auto.
  apply IH. lia.
Qed.

Lemma at_set_same v i x : (i < length v)%nat -> at_ (set_ v i x) i = x.
Proof.
  unfold at_. revert i. induction v as [|d v IH]; intros [|i] H; simpl in *; try lia; auto.
  apply IH. lia.
Qed.

Lemma at_set_other v i k x : i <> k -> at_ (set_ v i x) k = at_ v k.
Proof.
  unfold at_. revert i k. induction v as [|d v IH]; intros [|i] [|k] H; simpl; auto; try lia.
Qed.

Lemma val_set_ v i x :
  (i < length v)%nat ->
  val (set_ v i x) =
  val v + (x - at_ v i) * 10 ^ (Z.of_nat (length v) - 1 - Z.of_nat i).
Proof.
  unfold at_. revert i. induction v as [|d v IH]; intros [|i] H; simpl length in *; try lia.
  - cbn [set_ val nth]. replace (Z.of_nat (S (length v)) - 1 - Z.of_nat 0)
      with (Z.of_nat (length v)) by lia. ring.
  - cbn [set_ val nth]. rewrite IH by lia. rewrite length_set_.
    replace (Z.of_nat (S (length v)) - 1 - Z.of_nat (S i))
      with (Z.of_nat (length v) - 1 - Z.of_nat i) by lia. ring.
Qed.

Lemma digits_set_ v i x : digits v -> 0 <= x <= 9 -> digits (set_ v i x).
Proof.
  revert i. induction v as [|d v IH]; intros [|i] H Hx; simpl; auto.
  - apply digits_cons in H. apply digits_cons. tauto.
  - apply digits_cons in H. apply digits_cons. split; [tauto|]. apply IH; tauto.
Qed.

(** ** Trimming and comparing *)

Lemma remove_excess_val v : val (remove_excess v) = val v.
Proof.
  induction v as [|d v IH]; [reflexivity|].
  cbn [remove_excess]. destruct (Nat.ltb 1 (length (d :: v)) && (d =? 0)) eqn:E.
  - apply andb_true_iff in E. destruct E as [_ E]. apply Z.eqb_eq in E.
    subst d. rewrite IH. cbn [val]. lia.
  - reflexivity.
Qed.

Lemma remove_excess_digits v : digits v -> digits (remove_excess v).
Proof.
  induction v as [|d v IH]; intros H; [assumption|].
  cbn [remove_excess]. destruct (Nat.ltb 1 (length (d :: v)) && (d =? 0)); [|assumption].
  apply IH. apply digits_cons in H. tauto.
Qed.

Lemma remove_excess_no_leading_zero v : no_leading_zero (remove_excess v) = true.
Proof.
  induction v as [|d v IH]; [reflexivity|].
  cbn [remove_excess]. destruct (Nat.ltb 1 (length (d :: v)) && (d =? 0)) eqn:E;
    [assumption|].
  apply andb_false_iff in E. destruct v as [|d' v]; [reflexivity|].
  destruct E as [E|E]; [discriminate E|]. cbn [no_leading_zero]. rewrite E. reflexivity.
Qed.

Lemma remove_excess_nonempty v : v <> [] -> remove_excess v <> [].
Proof.
  induction v as [|d v IH]; intros H; [congruence|].
  cbn [remove_excess]. destruct (Nat.ltb 1 (length (d :: v)) && (d =? 0)) eqn:E;
    [|discriminate].
  apply IH. apply andb_true_iff in E. destruct E as [E _].
  destruct v; [discriminate E|discriminate].
Qed.

Lemma remove_excess_canonical v :
  digits v -> v <> [] -> canonical (remove_excess v).
Proof.
  intros Hd Hn. repeat split.
  - apply remove_excess_digits; assumption.
  - apply remove_excess_nonempty; assumption.
  - apply remove_excess_no_leading_zero.
Qed.

Lemma remove_excess_fixed v : no_leading_zero v = true -> remove_excess v = v.
Proof.
  destruct v as [|d [|d' v]]; intros H; try reflexivity.
  cbn [no_leading_zero] in H. cbn [remove_excess length].
  replace (Nat.ltb 1 (S (S (length v)))) with true by reflexivity.
  apply negb_true_iff in H. rewrite H. reflexivity.
Qed.

Lemma strip_zeros_val v : val (strip_zeros v) = val v.
Proof.
  induction v as [|d v IH]; [reflexivity|].
  cbn [strip_zeros]. destruct (d =? 0) eqn:E; [|reflexivity].
  apply Z.eqb_eq in E. subst d. rewrite IH. cbn [val]. lia.
Qed.

Lemma strip_zeros_digits v : digits v -> digits (strip_zeros v).
Proof.
  induction v as [|d v IH]; intros H; [assumption|].
  cbn [strip_zeros]. destruct (d =? 0); [|assumption].
  apply IH. apply digits_cons in H. tauto.
Qed.

Lemma strip_zeros_head v : strip_zeros v = [] \/ hd 0 (strip_zeros v) <> 0.
Proof.
  induction v as [|d v IH]; [left; reflexivity|].
  cbn [strip_zeros]. destruct (d =? 0) eqn:E; [assumption|].
  right. apply Z.eqb_neq in E. exact E.
Qed.

Lemma strip_zeros_no_leading_zero v : no_leading_zero (strip_zeros v) = true.
Proof.
  destruct (strip_zeros_head v) as [H|H]; [rewrite H; reflexivity|].
  destruct (strip_zeros v) as [|d [|d' w]]; try reflexivity.
  cbn [hd] in H. cbn [no_leading_zero]. apply negb_true_iff, Z.eqb_neq. exact H.
Qed.

(** A vector in canonical form with at least two entries, or one non-zero
    entry, is at least [10 ^ (size - 1)]. *)
Lemma val_lower_nlz v :
  digits v -> no_leading_zero v = true -> (2 <= length v)%nat ->
  10 ^ (Z.of_nat (length v) - 1) <= val v.
Proof.
  intros Hd Hn Hl. destruct v as [|d [|d' v]]; simpl in Hl; try lia.
  cbn [no_leading_zero] in Hn. apply negb_true_iff, Z.eqb_neq in Hn.
  pose proof (val_lower d (d' :: v) Hd Hn) as H.
  replace (Z.of_nat (length (d :: d' :: v)) - 1) with (Z.of_nat (length (d' :: v)))
    by (simpl length; lia).
  exact H.
Qed.

Lemma lexicographical_compare_val a b :
  length a = length b -> digits a -> digits b ->
  lexicographical_compare a b = (val a <? val b).
Proof.
  revert b. induction a as [|x a IH]; intros [|y b] Hl Ha Hb; simpl in Hl; try lia.
  - reflexivity.
  - injection Hl as Hl. apply digits_cons in Ha. apply digits_cons in Hb.
    destruct Ha as [Hx Ha]. destruct Hb as [Hy Hb].
    pose proof (val_bound a Ha) as Ba. pose proof (val_bound b Hb) as Bb.
    cbn [lexicographical_compare val]. rewrite <- Hl in *.
    destruct (x <? y) eqn:E1.
    + apply Z.ltb_lt in E1. symmetry. apply Z.ltb_lt. nia.
    + apply Z.ltb_ge in E1. destruct (y <? x) eqn:E2.
      * apply Z.ltb_lt in E2. symmetry. apply Z.ltb_ge. nia.
      * apply Z.ltb_ge in E2. assert (x = y) by lia. subst y.
        rewrite (IH b Hl Ha Hb).
        destruct (val a <? val b) eqn:E3; symmetry.
        -- apply Z.ltb_lt in E3. apply Z.ltb_lt. lia.
        -- apply Z.ltb_ge in E3. apply Z.ltb_ge. lia.
Qed.

(** [operator<] is the order of the values, on vectors in canonical form.
    (The empty remainder of the division stands for zero; it is compared
    with non-zero divisors only.) *)
Lemma bignum_ltb_val a b :
  digits a -> digits b ->
  no_leading_zero a = true -> no_leading_zero b = true ->
  (a <> [] \/ 0 < val b) -> b <> [] ->
  bignum_ltb a b = (val a <? val b).
Proof.
  intros Ha Hb Na Nb Hz Hbn. unfold bignum_ltb.
  destruct (Nat.eqb (length a) (length b)) eqn:E; cbn [negb].
  - apply Nat.eqb_eq in E. apply lexicographical_compare_val; assumption.
  - apply Nat.eqb_neq in E.
    pose proof (val_bound a Ha) as Ba. pose proof (val_bound b Hb) as Bb.
    destruct (Nat.ltb (length a) (length b)) eqn:L; symmetry.
    + apply Nat.ltb_lt in L. apply Z.ltb_lt.
      destruct (Nat.le_gt_cases 2 (length b)) as [L2|L2].
      * pose proof (val_lower_nlz b Hb Nb L2) as Lb.
        assert (10 ^ Z.of_nat (length a) <= 10 ^ (Z.of_nat (length b) - 1))
          by (apply Z.pow_le_mono_r; lia).
        lia.
      * assert (length a = 0%nat) by lia.
        destruct a; [|discriminate]. cbn [val].
        destruct Hz as [Hz|Hz]; [congruence|assumption].
    + apply Nat.ltb_ge in L. apply Z.ltb_ge.
      assert (L2 : (2 <= length a)%nat).
      { destruct b; [congruence|]. simpl in *. lia. }
      pose proof (val_lower_nlz a Ha Na L2) as La.
      assert (10 ^ Z.of_nat (length b) <= 10 ^ (Z.of_nat (length a) - 1))
        by (apply Z.pow_le_mono_r; lia).
      lia.
Qed.

(** Two canonical vectors of one value are one vector. *)
Lemma digits_val_inj a b :
  length a = length b -> digits a -> digits b -> val a = val b -> a = b.
Proof.
  revert b. induction a as [|x a IH]; intros [|y b] Hl Ha Hb Hv; simpl in Hl; try lia.
  - reflexivity.
  - injection Hl as Hl. apply digits_cons in Ha. apply digits_cons in Hb.
    destruct Ha as [Hx Ha]. destruct Hb as [Hy Hb].
    pose proof (val_bound a Ha) as Ba. pose proof (val_bound b Hb) as Bb.
    cbn [val] in Hv. rewrite <- Hl in *.
    assert (x = y) by nia. subst y.
    f_equal. apply IH; try assumption. lia.
Qed.

Lemma canonical_val_inj a b :
  canonical a -> canonical b -> val a = val b -> a = b.
Proof.
  intros (Ha & Hna & Na) (Hb & Hnb & Nb) Hv.
  apply digits_val_inj; try assumption.
  pose proof (val_bound a Ha) as Ba. pose proof (val_bound b Hb) as Bb.
  destruct (Nat.lt_trichotomy (length a) (length b)) as [L|[L|L]]; [|assumption|]; exfalso.
  - assert (L2 : (2 <= length b)%nat) by (destruct a; [congruence|simpl in *; lia]).
    pose proof (val_lower_nlz b Hb Nb L2).
    assert (10 ^ Z.of_nat (length a) <= 10 ^ (Z.of_nat (length b) - 1))
      by (apply Z.pow_le_mono_r; lia).
    lia.
  - assert (L2 : (2 <= length a)%nat) by (destruct b; [congruence|simpl in *; lia]).
    pose proof (val_lower_nlz a Ha Na L2).
    assert (10 ^ Z.of_nat (length b) <= 10 ^ (Z.of_nat (length a) - 1))
      by (apply Z.pow_le_mono_r; lia).
    lia.
Qed.

(** ** Subtraction *)

(** The digit read at index [i] (zero left of the vector) heads the part of
    the vector from [i] on. *)
Lemma low_step a (i : Z) (t : nat) :
  digits a -> i = Z.of_nat (length a) - 1 - Z.of_nat t ->
  let dig := if 0 <=? i then at_ a (Z.to_nat i) else 0 in
  val (skipn (Z.to_nat i) a) = dig * 10 ^ Z.of_nat t + val (skipn (Z.to_nat (i + 1)) a)
  /\ 0 <= dig <= 9.
Proof.
  intros Ha Hi dig. subst dig. destruct (0 <=? i) eqn:E.
  - apply Z.leb_le in E. split; [|apply digits_nth; assumption].
    rewrite (skipn_at a (Z.to_nat i)) by lia.
    replace (Z.to_nat (i + 1)) with (S (Z.to_nat i)) by lia.
    cbn [val]. rewrite length_skipn.
    replace (length a - S (Z.to_nat i))%nat with t by lia. reflexivity.
  - apply Z.leb_gt in E. split; [|lia].
    replace (Z.to_nat i) with 0%nat by lia.
    replace (Z.to_nat (i + 1)) with 0%nat by lia. lia.
Qed.

Lemma subtract_loop_spec a b (m : nat) :
  digits a -> digits b ->
  (length a <= m)%nat -> (length b <= m)%nat ->
  forall n i j borrow difference,
    length difference = m -> (n <= m)%nat ->
    i = Z.of_nat (length a) - 1 - Z.of_nat (m - n) ->
    j = Z.of_nat (length b) - 1 - Z.of_nat (m - n) ->
    (borrow = 0 \/ borrow = 1) ->
    digits (skipn n difference) ->
    val (skipn n difference) =
      val (skipn (Z.to_nat (i + 1)) a) - val (skipn (Z.to_nat (j + 1)) b)
      + borrow * 10 ^ Z.of_nat (m - n) ->
    let r := subtract_loop n a b i j borrow difference in
    length r = m /\ digits r /\
    exists borrow', (borrow' = 0 \/ borrow' = 1) /\
                    val r = val a - val b + borrow' * 10 ^ Z.of_nat m.
Proof.
  intros Ha Hb La Lb n. induction n as [|k IH];
    intros i j borrow difference Hlen Hn Hi Hj Hbor Hdig Hval r; subst r.
  - cbn [subtract_loop]. cbn [skipn] in *. split; [assumption|]. split; [assumption|].
    exists borrow. split; [assumption|].
    rewrite Hval. rewrite Nat.sub_0_r in *.
    replace (Z.to_nat (i + 1)) with 0%nat by lia.
    replace (Z.to_nat (j + 1)) with 0%nat by lia. reflexivity.
  - cbn [subtract_loop].
    destruct (low_step a i (m - S k) Ha Hi) as [Va Da].
    destruct (low_step b j (m - S k) Hb Hj) as [Vb Db].
    set (first_dig := if 0 <=? i then at_ a (Z.to_nat i) else 0) in *.
    set (second_dig := if 0 <=? j then at_ b (Z.to_nat j) else 0) in *.
    assert (Hpow : 10 ^ Z.of_nat (m - k) = 10 * 10 ^ Z.of_nat (m - S k)).
    { replace (m - k)%nat with (S (m - S k)) by lia. apply pow10_S. }
    assert (Hsk : forall x, skipn k (set_ difference k x) = x :: skipn (S k) difference)
      by (intros; apply skipn_set_at; lia).
    assert (Hlk : Z.of_nat (length (skipn (S k) difference)) = Z.of_nat (m - S k))
      by (rewrite length_skipn; lia).
    destruct (first_dig - second_dig - borrow <? 0) eqn:E;
      [apply Z.ltb_lt in E | apply Z.ltb_ge in E];
      apply IH; try lia; rewrite ?length_set_, ?Hsk; try assumption; auto.
    + apply digits_cons. split; [lia|assumption].
    + replace (Z.to_nat (i - 1 + 1)) with (Z.to_nat i) by lia.
      replace (Z.to_nat (j - 1 + 1)) with (Z.to_nat j) by lia.
      cbn [val]. rewrite Hlk, Va, Vb, Hval, Hpow. ring.
    + apply digits_cons. split; [lia|assumption].
    + replace (Z.to_nat (i - 1 + 1)) with (Z.to_nat i) by lia.
      replace (Z.to_nat (j - 1 + 1)) with (Z.to_nat j) by lia.
      cbn [val]. rewrite Hlk, Va, Vb, Hval, Hpow. ring.
Qed.

(** [operator-] on digit vectors with [a >= b]: the canonical vector of
    the difference. *)
Lemma subtract_spec a b :
  digits a -> digits b -> val b <= val a ->
  digits (subtract a b) /\
  no_leading_zero (subtract a b) = true /\
  val (subtract a b) = val a - val b /\
  (a <> [] \/ b <> [] -> subtract a b <> []).
Proof.
  intros Ha Hb Hle. unfold subtract.
  set (m := Nat.max (length a) (length b)).
  destruct (subtract_loop_spec a b m Ha Hb ltac:(lia) ltac:(lia)
              m (Z.of_nat (length a) - 1) (Z.of_nat (length b) - 1) 0 (repeat 0 m))
    as (Hl & Hd & borrow & Hbor & Hv).
  - apply repeat_length.
  - lia.
  - rewrite Nat.sub_diag. lia.
  - rewrite Nat.sub_diag. lia.
  - left; reflexivity.
  - apply digits_skipn, digits_repeat0.
  - rewrite Nat.sub_diag.
    rewrite skipn_all2 by (rewrite repeat_length; lia).
    replace (Z.to_nat (Z.of_nat (length a) - 1 + 1)) with (length a) by lia.
    replace (Z.to_nat (Z.of_nat (length b) - 1 + 1)) with (length b) by lia.
    rewrite !skipn_all. reflexivity.
  - set (r := subtract_loop m a b (Z.of_nat (length a) - 1)
                            (Z.of_nat (length b) - 1) 0 (repeat 0 m)) in *.
    split; [apply remove_excess_digits; assumption|].
    split; [apply remove_excess_no_leading_zero|].
    split.
    + rewrite remove_excess_val, Hv.
      pose proof (val_bound r Hd) as Br. rewrite Hl in Br.
      pose proof (val_bound a Ha) as Ba. pose proof (val_bound b Hb) as Bb.
      assert (10 ^ Z.of_nat (length a) <= 10 ^ Z.of_nat m)
        by (apply Z.pow_le_mono_r; lia).
      destruct Hbor as [->| ->]; lia.
    + intros Hne. apply remove_excess_nonempty.
      clearbody r. subst m. destruct r; [|discriminate].
      destruct Hne as [Hne|Hne]; [destruct a|destruct b]; try congruence;
        cbn [length] in Hl; lia.
Qed.

Lemma subtract_canonical a b :
  digits a -> digits b -> val b <= val a -> a <> [] \/ b <> [] ->
  canonical (subtract a b) /\ val (subtract a b) = val a - val b.
Proof.
  intros Ha Hb Hle Hne.
  destruct (subtract_spec a b Ha Hb Hle) as (H1 & H2 & H3 & H4).
  repeat split; auto.
Qed.

(** The loop of [operator-] is the borrow chain of the specification. *)
Lemma at_from_the_right a (i : Z) (t : nat) :
  i = Z.of_nat (length a) - 1 - Z.of_nat t ->
  (if 0 <=? i then at_ a (Z.to_nat i) else 0) = hd 0 (skipn t (rev a)).
Proof.
  intros Hi.
  assert (Hhd : forall (l : list Z), hd 0 (skipn t l) = nth t l 0).
  { clear. induction t as [|t IH]; intros [|x l]; cbn [skipn hd nth]; auto. }
  rewrite Hhd. destruct (0 <=? i) eqn:E.
  - apply Z.leb_le in E. unfold at_. rewrite rev_nth by lia. f_equal. lia.
  - apply Z.leb_gt in E. symmetry. apply nth_overflow. rewrite length_rev. lia.
Qed.

Lemma tl_skipn {A} (l : list A) t : tl (skipn t l) = skipn (S t) l.
Proof.
  revert l. induction t as [|t IH]; intros [|x l]; cbn [skipn tl]; auto.
Qed.

Lemma subtract_loop_borrow_chain a b (m : nat) :
  forall n t i j borrow difference,
    (t + n = m)%nat -> length difference = m ->
    i = Z.of_nat (length a) - 1 - Z.of_nat t ->
    j = Z.of_nat (length b) - 1 - Z.of_nat t ->
    subtract_loop n a b i j borrow difference =
    rev (borrow_chain n (skipn t (rev a)) (skipn t (rev b)) borrow)
        ++ skipn n difference.
Proof.
  induction n as [|k IH]; intros t i j borrow difference Ht Hl Hi Hj.
  - reflexivity.
  - cbn [subtract_loop borrow_chain].
    rewrite (at_from_the_right a i t Hi), (at_from_the_right b j t Hj).
    rewrite !tl_skipn.
    set (d := hd 0 (skipn t (rev a)) - hd 0 (skipn t (rev b)) - borrow).
    destruct (d <? 0);
      rewrite (IH (S t)) by (rewrite ?length_set_; lia);
      rewrite skipn_set_at by lia;
      cbn [rev]; rewrite <- app_assoc; reflexivity.
Qed.

Lemma subtract_by_borrow_eq a b : subtract a b = subtract_by_borrow a b.
Proof.
  unfold subtract, subtract_by_borrow. f_equal.
  rewrite (subtract_loop_borrow_chain a b (Nat.max (length a) (length b))
             _ 0%nat) by (rewrite ?repeat_length; lia).
  rewrite (@skipn_all2 Z _ (repeat 0 (Nat.max (length a) (length b))))
    by (rewrite repeat_length; lia).
  rewrite app_nil_r. reflexivity.
Qed.


(** ** Multiplication *)

Lemma val_firstn_S v i :
  (i < length v)%nat -> val (firstn (S i) v) = val (firstn i v) * 10 + at_ v i.
Proof.
  intros H. unfold at_.
  rewrite <- (firstn_skipn i v) at 1.
  rewrite (skipn_at v i H).
  replace (S i) with (length (firstn i v) + 1)%nat by (rewrite length_firstn; lia).
  rewrite firstn_app_2. cbn [firstn]. rewrite val_app. cbn [length val]. unfold at_.
  change (Z.of_nat 1) with 1. change (Z.of_nat 0) with 0. lia.
Qed.

Lemma quot_rem_digit c :
  0 <= c <= 99 ->
  0 <= Z.rem c 10 <= 9 /\ 0 <= Z.quot c 10 <= 9 /\ c = 10 * Z.quot c 10 + Z.rem c 10.
Proof.
  intros H. rewrite Z.rem_mod_nonneg, Z.quot_div_nonneg by lia.
  pose proof (Z.div_mod c 10 ltac:(lia)).
  pose proof (Z.mod_pos_bound c 10 ltac:(lia)). lia.
Qed.

Section MultiplyRow.
Variables (a_i : Z) (b : Bignum) (i N : nat).
Hypothesis Hai : 0 <= a_i <= 9.
Hypothesis Hb : digits b.
Hypothesis HN : (i + length b < N)%nat.

(** Weight of position [k] in a product of [N] entries. *)
Let W (k : nat) : Z := 10 ^ (Z.of_nat N - 1 - Z.of_nat k).

Lemma multiply_inner_spec :
  forall n carry_over product,
    (n <= length b)%nat -> length product = N -> digits product ->
    0 <= carry_over <= 9 ->
    let r := multiply_inner n a_i b i carry_over product in
    length (fst r) = N /\ digits (fst r) /\ 0 <= snd r <= 9 /\
    (forall k, (k <= i)%nat -> at_ (fst r) k = at_ product k) /\
    val (fst r) + snd r * W i =
      val product + carry_over * W (i + n) + a_i * val (firstn n b) * W (i + n).
Proof.
  induction n as [|j IH]; intros carry_over product Hn Hl Hd Hc r; subst r.
  - cbn [multiply_inner fst snd firstn val]. rewrite Nat.add_0_r.
    repeat split; auto; try lia.
  - cbn [multiply_inner].
    set (curr_product := a_i * at_ b j + at_ product (i + j + 1) + carry_over).
    pose proof (digits_nth b j Hb) as Hbj.
    pose proof (digits_nth product (i + j + 1) Hd) as Hpj.
    fold (at_ b j) in Hbj. fold (at_ product (i + j + 1)) in Hpj.
    assert (Hcur : 0 <= curr_product <= 99) by (unfold curr_product; nia).
    destruct (quot_rem_digit curr_product Hcur) as (Hr & Hq & Hqr).
    specialize (IH (Z.quot curr_product 10)
                   (set_ product (i + j + 1) (Z.rem curr_product 10))
                   ltac:(lia)).
    rewrite length_set_ in IH.
    specialize (IH Hl (digits_set_ _ _ _ Hd Hr) Hq).
    destruct IH as (I1 & I2 & I3 & I4 & I5).
    split; [assumption|]. split; [assumption|]. split; [assumption|]. split.
    + intros k Hk. rewrite I4 by assumption. apply at_set_other. lia.
    + rewrite I5. rewrite val_set_ by lia. rewrite Hl.
      rewrite (val_firstn_S b j) by lia.
      assert (HW : W (i + j) = 10 * W (i + S j)).
      { unfold W. replace (Z.of_nat N - 1 - Z.of_nat (i + j))
          with (Z.succ (Z.of_nat N - 1 - Z.of_nat (i + S j))) by lia.
        rewrite Z.pow_succ_r by lia. reflexivity. }
      rewrite HW.
      replace (Z.of_nat N - 1 - Z.of_nat (i + j + 1))
        with (Z.of_nat N - 1 - Z.of_nat (i + S j)) by lia.
      fold (W (i + S j)).
      replace (Z.rem curr_product 10)
        with (curr_product - 10 * Z.quot curr_product 10) by lia.
      unfold curr_product. ring.
Qed.
End MultiplyRow.

Lemma multiply_outer_spec a b (N : nat) :
  digits a -> digits b -> N = (length a + length b)%nat ->
  forall n product,
    (n <= length a)%nat -> length product = N -> digits product ->
    (forall k, (k < n)%nat -> at_ product k = 0) ->
    let r := multiply_outer n a b product in
    length r = N /\ digits r /\
    val r = val product
            + val (firstn n a) * 10 ^ Z.of_nat (length a - n) * val b.
Proof.
  intros Ha Hb HN. induction n as [|i IH]; intros product Hn Hl Hd Hz r; subst r.
  - cbn [multiply_outer firstn val]. repeat split; auto. lia.
  - cbn [multiply_outer].
    pose proof (digits_nth a i Ha) as Hai. fold (at_ a i) in Hai.
    assert (Hpow : 10 ^ Z.of_nat (length a - i) = 10 * 10 ^ Z.of_nat (length a - S i)).
    { replace (length a - i)%nat with (S (length a - S i)) by lia. apply pow10_S. }
    destruct (at_ a i =? 0) eqn:E.
    + apply Z.eqb_eq in E.
      destruct (IH product ltac:(lia) Hl Hd ltac:(intros; apply Hz; lia))
        as (I1 & I2 & I3).
      repeat split; auto. rewrite I3, (val_firstn_S a i), E, Hpow by lia. ring.
    + pose proof (multiply_inner_spec (at_ a i) b i N Hai Hb ltac:(lia)
                    (length b) 0 product ltac:(lia) Hl Hd ltac:(lia)) as M.
      destruct (multiply_inner (length b) (at_ a i) b i 0 product)
        as [product1 carry_over].
      cbn [fst snd] in M. destruct M as (M1 & M2 & M3 & M4 & M5).
      assert (Hpi : at_ product1 i = 0) by (rewrite M4 by lia; apply Hz; lia).
      destruct (IH (set_ product1 i (at_ product1 i + carry_over)) ltac:(lia))
        as (I1 & I2 & I3).
      * rewrite length_set_. assumption.
      * apply digits_set_; [assumption|lia].
      * intros k Hk. rewrite at_set_other by lia. rewrite M4 by lia. apply Hz. lia.
      * repeat split; auto. rewrite I3.
        rewrite val_set_ by lia. rewrite M1.
        rewrite firstn_all in M5.
        replace (Z.of_nat N - 1 - Z.of_nat (i + length b))
          with (Z.of_nat (length a - S i)) in M5 by lia.
        rewrite (val_firstn_S a i), Hpow by lia.
        replace (at_ product1 i + carry_over - at_ product1 i) with carry_over by lia.
        lia.
Qed.

(** [operator*] on digit vectors: the canonical vector of the product. *)
Lemma multiply_spec a b :
  digits a -> digits b ->
  digits (multiply a b) /\
  no_leading_zero (multiply a b) = true /\
  val (multiply a b) = val a * val b /\
  (a <> [] -> multiply a b <> []).
Proof.
  intros Ha Hb. unfold multiply.
  destruct (multiply_outer_spec a b (length a + length b) Ha Hb eq_refl
              (length a) (repeat 0 (length a + length b)))
    as (H1 & H2 & H3).
  - lia.
  - apply repeat_length.
  - apply digits_repeat0.
  - intros k Hk. unfold at_. apply nth_repeat.
  - split; [apply remove_excess_digits; assumption|].
    split; [apply remove_excess_no_leading_zero|].
    split.
    + rewrite remove_excess_val, H3, val_repeat0, firstn_all, Nat.sub_diag.
      change (10 ^ Z.of_nat 0) with 1. ring.
    + intros Hne. apply remove_excess_nonempty.
      destruct (multiply_outer (length a) a b (repeat 0 (length a + length b)));
        [|discriminate].
      destruct a; [congruence|]. cbn [length] in H1. lia.
Qed.

(** ** Division and remainder *)

Section Divide.
Variable other : Bignum.
Hypothesis Hother : canonical other.
Hypothesis Hpos : 0 < val other.

(** The subtraction loop of one quotient digit: it runs [rem / other]
    times and leaves [rem mod other]. *)
Lemma divide_while_spec :
  forall fuel rem curr_div,
    digits rem -> no_leading_zero rem = true ->
    val rem < Z.of_nat fuel * val other ->
    exists rem',
      divide_while fuel rem other curr_div
        = Ret (rem', curr_div + val rem / val other) /\
      digits rem' /\ no_leading_zero rem' = true /\
      val rem' = val rem mod val other.
Proof.
  destruct Hother as (Hd & Hne & Hnz).
  induction fuel as [|fuel IH]; intros rem curr_div Hr Hn Hlt.
  - pose proof (val_bound rem Hr). lia.
  - cbn [divide_while].
    rewrite (bignum_ltb_val rem other) by auto.
    pose proof (val_bound rem Hr) as Br.
    destruct (val rem <? val other) eqn:E; cbn [negb].
    + apply Z.ltb_lt in E. exists rem.
      rewrite Z.div_small, Z.mod_small, Z.add_0_r by lia. auto.
    + apply Z.ltb_ge in E.
      destruct (subtract_spec rem other Hr Hd E) as (S1 & S2 & S3 & _).
      destruct (IH (subtract rem other) (curr_div + 1) S1 S2 ltac:(lia))
        as (rem' & I1 & I2 & I3 & I4).
      assert (Hdiv : val rem / val other = (val rem - val other) / val other + 1).
      { replace (val rem) with ((val rem - val other) + 1 * val other) at 1 by ring.
        apply Z_div_plus_full. lia. }
      assert (Hmod : val rem mod val other = (val rem - val other) mod val other).
      { replace (val rem) with ((val rem - val other) + 1 * val other) at 1 by ring.
        apply Z_mod_plus_full. }
      exists rem'. rewrite I1, I4, S3, Hdiv, Hmod.
      repeat split; auto. f_equal. f_equal. ring.
Qed.

Lemma divide_for_spec fuel :
  (10 <= fuel)%nat ->
  forall ds quo rem,
    digits ds -> digits quo -> digits rem -> no_leading_zero rem = true ->
    val rem < val other ->
    exists q' r',
      divide_for fuel ds other quo rem = Ret q' /\
      digits q' /\ length q' = (length quo + length ds)%nat /\
      0 <= r' < val other /\
      val q' * val other + r' =
        (val quo * val other + val rem) * 10 ^ Z.of_nat (length ds) + val ds.
Proof.
  intros Hfuel. induction ds as [|d ds IH]; intros quo rem Hds Hq Hr Hn Hlt.
  - exists quo, (val rem). cbn [divide_for length val].
    pose proof (val_bound rem Hr).
    repeat split; auto; try lia.
  - cbn [divide_for]. apply digits_cons in Hds. destruct Hds as [Hd Hds].
    set (rem1 := strip_zeros (rem ++ [d])).
    assert (Hr1 : digits rem1).
    { apply strip_zeros_digits, digits_app. split; [assumption|].
      apply digits_cons. split; [assumption|apply digits_nil]. }
    assert (Hv1 : val rem1 = val rem * 10 + d).
    { unfold rem1. rewrite strip_zeros_val, val_app. cbn [length val].
      change (Z.of_nat 1) with 1. change (Z.of_nat 0) with 0. lia. }
    pose proof (val_bound rem Hr) as Br.
    destruct (divide_while_spec fuel rem1 0 Hr1 (strip_zeros_no_leading_zero _)
                                ltac:(nia))
      as (rem2 & W1 & W2 & W3 & W4).
    rewrite W1. cbn [bind].
    pose proof (Z.mod_pos_bound (val rem1) (val other) Hpos) as Bm.
    pose proof (Z.div_mod (val rem1) (val other) ltac:(lia)) as Dm.
    set (curr_div := 0 + val rem1 / val other) in *.
    assert (Hc : 0 <= curr_div <= 9).
    { unfold curr_div. split.
      - apply Z.add_nonneg_nonneg; [lia|]. apply Z.div_pos; lia.
      - assert (val rem1 / val other < 10); [|lia].
        apply Z.div_lt_upper_bound; lia. }
    destruct (IH (quo ++ [curr_div]) rem2 Hds) as (q' & r' & I1 & I2 & I3 & I4 & I5).
    + apply digits_app. split; [assumption|].
      apply digits_cons. split; [assumption|apply digits_nil].
    + assumption.
    + assumption.
    + lia.
    + exists q', r'. split; [assumption|]. split; [assumption|].
      split; [rewrite I3, length_app; cbn [length]; lia|].
      split; [assumption|].
      rewrite I5, val_app. cbn [length val].
      change (Z.of_nat 1) with 1. change (Z.of_nat 0) with 0.
      rewrite pow10_S, W4. unfold curr_div. lia.
Qed.

(** [operator/]: the canonical vector of the Euclidean quotient. *)
Lemma divide_spec fuel a :
  (10 <= fuel)%nat -> digits a ->
  exists q, divide fuel a other = Ret q /\ canonical q /\
            val q = val a / val other.
Proof.
  intros Hfuel Ha. unfold divide.
  destruct (divide_for_spec fuel Hfuel a [0] [] Ha) as (q' & r' & I1 & I2 & I3 & I4 & I5);
    try reflexivity.
  - cbn [val]. lia.
  - rewrite I1. cbn [bind]. exists (remove_excess q').
    split; [reflexivity|]. split.
    + apply remove_excess_canonical; [assumption|].
      destruct q'; [discriminate I3|discriminate].
    + rewrite remove_excess_val. cbn [val] in I5.
      apply (Z.div_unique_pos _ _ _ r'); lia.
Qed.

(** [operator%]: the canonical vector of the Euclidean remainder. *)
Lemma modulo_spec fuel a :
  (10 <= fuel)%nat -> digits a ->
  exists r, modulo fuel a other = Ret r /\ canonical r /\
            val r = val a mod val other.
Proof.
  intros Hfuel Ha. unfold modulo.
  destruct (divide_spec fuel a Hfuel Ha) as (q & Q1 & (Q2 & Q3 & Q4) & Q5).
  rewrite Q1. cbn [bind].
  destruct Hother as (Hd & _).
  destruct (multiply_spec q other Q2 Hd) as (M1 & M2 & M3 & M4).
  pose proof (Z.mod_pos_bound (val a) (val other) Hpos) as Bm.
  pose proof (Z.div_mod (val a) (val other) ltac:(lia)) as Dm.
  assert (Hle : val (multiply q other) <= val a) by (rewrite M3, Q5; lia).
  destruct (subtract_canonical a (multiply q other) Ha M1 Hle
                               (or_intror (M4 Q3))) as (S1 & S2).
  exists (subtract a (multiply q other)). split; [reflexivity|]. split; [assumption|].
  rewrite S2, M3, Q5. lia.
Qed.
End Divide.

(** ** Modular exponentiation *)

Lemma bignum_eqb_eq a b : bignum_eqb a b = true <-> a = b.
Proof.
  revert b. induction a as [|x a IH]; intros [|y b]; cbn [bignum_eqb];
    try (split; [discriminate|congruence]); [tauto|].
  rewrite andb_true_iff, Z.eqb_eq, IH. split; [intros []|intros [=]]; subst; auto.
Qed.

Lemma canonical_zero : canonical zero.
Proof. repeat split. discriminate. Qed.

Lemma canonical_two : canonical two.
Proof. repeat split. discriminate. Qed.

Lemma canonical_one : canonical [1].
Proof. repeat split. discriminate. Qed.

Create HintDb bignum.
#[local] Hint Resolve canonical_zero canonical_one canonical_two
  digits_nil digits_repeat0 remove_excess_no_leading_zero
  strip_zeros_no_leading_zero : bignum.

Lemma canonical_eq_zero e : canonical e -> (bignum_eqb e zero = true <-> val e = 0).
Proof.
  intros He. rewrite bignum_eqb_eq. split.
  - intros ->. reflexivity.
  - intros Hv. apply canonical_val_inj; auto with bignum.
Qed.

(** The last entry carries the parity. *)
Lemma val_last e : e <> [] -> val e = 10 * val (removelast e) + last e 0.
Proof.
  intros He. rewrite (app_removelast_last 0 He) at 1. rewrite val_app.
  cbn [length val]. change (Z.of_nat 1) with 1. change (Z.of_nat 0) with 0. lia.
Qed.

Lemma digits_last e : digits e -> 0 <= last e 0 <= 9.
Proof.
  induction e as [|d [|d' e] IH]; intros H; cbn [last].
  - lia.
  - apply digits_cons in H. tauto.
  - apply IH. apply digits_cons in H. tauto.
Qed.

Lemma last_parity e :
  digits e -> e <> [] ->
  negb (Z.rem (last e 0) 2 =? 0) = Z.odd (val e).
Proof.
  intros Hd He. pose proof (digits_last e Hd) as Hl.
  rewrite (val_last e He).
  rewrite Z.rem_mod_nonneg by lia.
  replace (10 * val (removelast e) + last e 0)
    with (last e 0 + 2 * (5 * val (removelast e))) by ring.
  rewrite Z.odd_add_mul_2.
  rewrite Zmod_odd. destruct (Z.odd (last e 0)); reflexivity.
Qed.

(** One round of square-and-multiply, on the numbers. *)
Lemma square_multiply_step R B E M :
  0 < M -> 0 < E ->
  ((if Z.odd E then (R * B) mod M else R) * ((B * B) mod M) ^ (E / 2)) mod M
  = (R * B ^ E) mod M.
Proof.
  intros HM HE.
  assert (Hpow : B ^ E = (if Z.odd E then B else 1) * (B * B) ^ (E / 2)).
  { rewrite (Z.div_mod E 2) at 1 by lia. rewrite Z.pow_add_r, Z.pow_mul_r.
    - rewrite Zmod_odd. replace (B ^ 2) with (B * B) by ring.
      destruct (Z.odd E); ring.
    - lia.
    - apply Z.div_pos; lia.
    - apply Z.mul_nonneg_nonneg; [lia|]. apply Z.div_pos; lia.
    - apply Z.mod_pos_bound. lia. }
  rewrite Hpow.
  rewrite <- Z.mul_mod_idemp_r by lia.
  rewrite <- (Zpower_mod (B * B)) by lia.
  rewrite Z.mul_mod_idemp_r by lia.
  destruct (Z.odd E).
  - rewrite Z.mul_mod_idemp_l by lia. f_equal. ring.
  - f_equal. ring.
Qed.

Section ModExponent.
Variable modulus : Bignum.
Hypothesis Hmodulus : canonical modulus.
Hypothesis Hpos : 0 < val modulus.

Variable fuel : nat.
Hypothesis Hfuel : (10 <= fuel)%nat.

(** One round: what the three arithmetic calls return. *)
Lemma mod_exponent_round mod_exp curr_base curr_exponent :
  canonical mod_exp -> canonical curr_base ->
  digits curr_exponent -> curr_exponent <> [] ->
  exists mod_exp1 square_mod next_exponent,
    (if negb (Z.rem (last curr_exponent 0) 2 =? 0)
     then modulo fuel (multiply mod_exp curr_base) modulus
     else Ret mod_exp) = Ret mod_exp1 /\
    modulo fuel (multiply curr_base curr_base) modulus = Ret square_mod /\
    divide fuel curr_exponent two = Ret next_exponent /\
    canonical mod_exp1 /\ canonical square_mod /\ canonical next_exponent /\
    val mod_exp1 = (if Z.odd (val curr_exponent)
                    then (val mod_exp * val curr_base) mod val modulus
                    else val mod_exp) /\
    val square_mod = (val curr_base * val curr_base) mod val modulus /\
    val next_exponent = val curr_exponent / 2.
Proof.
  intros (Rd & Rn & Rz) (Bd & Bn & Bz) Ed En.
  destruct (multiply_spec mod_exp curr_base Rd Bd) as (P1 & _ & P3 & _).
  destruct (multiply_spec curr_base curr_base Bd Bd) as (Q1 & _ & Q3 & _).
  destruct (modulo_spec modulus Hmodulus Hpos fuel _ Hfuel P1) as (m1 & M1 & M2 & M3).
  destruct (modulo_spec modulus Hmodulus Hpos fuel _ Hfuel Q1) as (m2 & N1 & N2 & N3).
  destruct (divide_spec two canonical_two ltac:(reflexivity) fuel _ Hfuel Ed)
    as (e' & D1 & D2 & D3).
  rewrite (last_parity _ Ed En).
  exists (if Z.odd (val curr_exponent) then m1 else mod_exp), m2, e'.
  assert (HR : canonical mod_exp) by (repeat split; assumption).
  rewrite P3 in M3. rewrite Q3 in N3. change (val two) with 2 in D3.
  destruct (Z.odd (val curr_exponent));
    repeat match goal with |- _ /\ _ => split end;
    assumption || reflexivity.
Qed.

(** The loop on a canonical exponent below [2 ^ (n - 1)]. *)
Lemma mod_exponent_while_canonical :
  forall n mod_exp curr_base curr_exponent,
    canonical mod_exp -> canonical curr_base -> canonical curr_exponent ->
    val curr_exponent < 2 ^ (Z.of_nat n - 1) -> (1 <= n)%nat ->
    exists r,
      mod_exponent_while n fuel mod_exp curr_base curr_exponent modulus = Ret r /\
      canonical r /\
      val r = if val curr_exponent =? 0 then val mod_exp
              else (val mod_exp * val curr_base ^ val curr_exponent) mod val modulus.
Proof.
  induction n as [|n IH]; intros mod_exp curr_base curr_exponent HR HB HE Hlt Hn; [lia|].
  cbn [mod_exponent_while].
  pose proof (canonical_eq_zero _ HE) as Hz.
  destruct (bignum_eqb curr_exponent zero) eqn:Eq; cbn [negb].
  - exists mod_exp. destruct Hz as [Hz _]. rewrite (Hz eq_refl). auto.
  - assert (HE0 : 0 < val curr_exponent).
    { destruct HE as (Ed & _). pose proof (val_bound _ Ed).
      destruct (Z.eq_dec (val curr_exponent) 0) as [H0|H0]; [|lia].
      apply Hz in H0. congruence. }
    destruct HE as (Ed & En & _).
    destruct (mod_exponent_round mod_exp curr_base curr_exponent HR HB Ed En)
      as (m1 & sq & e' & R1 & R2 & R3 & C1 & C2 & C3 & V1 & V2 & V3).
    rewrite R1, R2, R3. cbn [bind].
    assert (Hn2 : (2 <= S n)%nat).
    { destruct n; [|lia]. change (2 ^ (Z.of_nat 1 - 1)) with 1 in Hlt. lia. }
    destruct (IH m1 sq e' C1 C2 C3) as (r & I1 & I2 & I3).
    + rewrite V3. apply Z.div_lt_upper_bound; [lia|].
      replace (2 * 2 ^ (Z.of_nat n - 1)) with (2 ^ (Z.of_nat (S n) - 1)); [assumption|].
      replace (Z.of_nat (S n) - 1) with (Z.succ (Z.of_nat n - 1)) by lia.
      rewrite Z.pow_succ_r by lia. reflexivity.
    + lia.
    + exists r. split; [assumption|]. split; [assumption|].
      rewrite I3. replace (val curr_exponent =? 0) with false
        by (symmetry; apply Z.eqb_neq; lia).
      rewrite V1, V2, V3.
      destruct (val curr_exponent / 2 =? 0) eqn:E2.
      * apply Z.eqb_eq in E2.
        assert (val curr_exponent = 1).
        { pose proof (Z.div_mod (val curr_exponent) 2 ltac:(lia)).
          pose proof (Z.mod_pos_bound (val curr_exponent) 2 ltac:(lia)). lia. }
        replace (val curr_exponent) with 1 by lia.
        change (Z.odd 1) with true. cbv iota. rewrite Z.pow_1_r. reflexivity.
      * apply square_multiply_step; assumption.
Qed.

(** The loop on any non-empty digit vector as exponent: a first round
    makes the exponent canonical. *)
Lemma mod_exponent_while_spec :
  forall n mod_exp curr_base curr_exponent,
    canonical mod_exp -> canonical curr_base ->
    digits curr_exponent -> curr_exponent <> [] ->
    (Z.to_nat (Z.log2 (val curr_exponent)) + 2 <= n)%nat ->
    exists r,
      mod_exponent_while n fuel mod_exp curr_base curr_exponent modulus = Ret r /\
      canonical r /\
      val r = if val curr_exponent =? 0 then val mod_exp
              else (val mod_exp * val curr_base ^ val curr_exponent) mod val modulus.
Proof.
  intros n mod_exp curr_base curr_exponent HR HB Ed En Hn.
  destruct n as [|n]; [lia|]. cbn [mod_exponent_while].
  pose proof (val_bound _ Ed) as Be.
  destruct (bignum_eqb curr_exponent zero) eqn:Eq; cbn [negb].
  - apply bignum_eqb_eq in Eq. subst curr_exponent. exists mod_exp. auto.
  - destruct (mod_exponent_round mod_exp curr_base curr_exponent HR HB Ed En)
      as (m1 & sq & e' & R1 & R2 & R3 & C1 & C2 & C3 & V1 & V2 & V3).
    rewrite R1, R2, R3. cbn [bind].
    destruct (mod_exponent_while_canonical n m1 sq e' C1 C2 C3) as (r & I1 & I2 & I3).
    + rewrite V3. apply Z.div_lt_upper_bound; [lia|].
      destruct (Z.eq_dec (val curr_exponent) 0) as [H0|H0].
      * rewrite H0. pose proof (pow10_pos 0 ltac:(lia)).
        assert (0 < 2 ^ (Z.of_nat n - 1)) by (apply Z.pow_pos_nonneg; lia). lia.
      * pose proof (Z.log2_spec (val curr_exponent) ltac:(lia)) as [_ Hl].
        pose proof (Z.log2_nonneg (val curr_exponent)).
        assert (2 ^ Z.succ (Z.log2 (val curr_exponent)) <= 2 ^ Z.of_nat n)
          by (apply Z.pow_le_mono_r; lia).
        replace (2 * 2 ^ (Z.of_nat n - 1)) with (2 ^ Z.of_nat n); [lia|].
        replace (Z.of_nat n) with (Z.succ (Z.of_nat n - 1)) at 1 by lia.
        rewrite Z.pow_succ_r by lia. reflexivity.
    + lia.
    + exists r. split; [assumption|]. split; [assumption|].
      rewrite I3, V1, V2, V3.
      destruct (Z.eq_dec (val curr_exponent) 0) as [H0|H0].
      * rewrite H0. reflexivity.
      * replace (val curr_exponent =? 0) with false
          by (symmetry; apply Z.eqb_neq; lia).
        destruct (val curr_exponent / 2 =? 0) eqn:E2.
        -- apply Z.eqb_eq in E2.
           assert (val curr_exponent = 1).
           { pose proof (Z.div_mod (val curr_exponent) 2 ltac:(lia)).
             pose proof (Z.mod_pos_bound (val curr_exponent) 2 ltac:(lia)). lia. }
           replace (val curr_exponent) with 1 by lia.
           change (Z.odd 1) with true. cbv iota. rewrite Z.pow_1_r. reflexivity.
        -- apply square_multiply_step; lia.
Qed.
End ModExponent.

(** [mod_exponent] on digit vectors, for a canonical non-zero modulus: the
    canonical vector of [base ^ exponent mod modulus], except that the
    result is [1] for the exponent zero whatever the modulus. *)
Lemma mod_exponent_spec fuel base exponent modulus :
  digits base -> digits exponent -> exponent <> [] ->
  canonical modulus -> 0 < val modulus ->
  (10 <= fuel)%nat -> (Z.to_nat (Z.log2 (val exponent)) + 2 <= fuel)%nat ->
  exists r,
    mod_exponent fuel base exponent modulus = Ret r /\ canonical r /\
    val r = if val exponent =? 0 then 1
            else (val base ^ val exponent) mod val modulus.
Proof.
  intros Hb He Hne Hm Hpos Hf1 Hf2. unfold mod_exponent.
  destruct (modulo_spec modulus Hm Hpos fuel base Hf1 Hb) as (cb & B1 & B2 & B3).
  rewrite B1. cbn [bind].
  destruct (mod_exponent_while_spec modulus Hm Hpos fuel Hf1 fuel [1] cb exponent
              canonical_one B2 He Hne Hf2) as (r & R1 & R2 & R3).
  rewrite R1. cbn [bind]. exists (remove_excess r).
  destruct R2 as (Rd & Rn & Rz).
  rewrite (remove_excess_fixed r Rz).
  split; [reflexivity|]. split; [repeat split; assumption|].
  rewrite R3. destruct (val exponent =? 0); [reflexivity|].
  rewrite B3. change (val [1]) with 1. rewrite Z.mul_1_l.
  symmetry. apply Zpower_mod. assumption.
Qed.

(** ** The arithmetic operators: the specification's properties *)

(** C6.  For digit vectors [a] and [b] in canonical form with [a >= b],
    [operator-] returns the canonical vector whose value is exactly
    [a - b], and it computes it as the specification says: digit-wise
    subtraction with a borrow carried from the least to the most
    significant digit, then the leading-zero trim. *)
Theorem subtract_correct (a b : Bignum) :
  canonical a -> canonical b -> val b <= val a ->
  canonical (subtract a b) /\ val (subtract a b) = val a - val b /\
  subtract a b = subtract_by_borrow a b.
Proof.
  intros (Ha & Hna & _) (Hb & _ & _) Hle.
  destruct (subtract_canonical a b Ha Hb Hle (or_introl Hna)) as [H1 H2].
  split; [assumption|]. split; [assumption|]. apply subtract_by_borrow_eq.
Qed.

Lemma subtract_correct_witness :
  canonical (subtract [1; 0; 0; 0] [1]) /\
  val (subtract [1; 0; 0; 0] [1]) = val [1; 0; 0; 0] - val [1] /\
  subtract [1; 0; 0; 0] [1] = subtract_by_borrow [1; 0; 0; 0] [1].
Proof.
  apply (subtract_correct [1; 0; 0; 0] [1]).
  - repeat split. discriminate.
  - repeat split. discriminate.
  - vm_compute. discriminate.
Defined.

(** C3.  For canonical [a] and [b] with [b] non-zero, [operator/] returns
    the Euclidean quotient and [operator%] the Euclidean remainder:
    [a = (a / b) * b + a % b] with [0 <= a % b < b]; in particular
    [a / a = 1] and [a % a = 0]. *)
Theorem divide_modulo_euclidean (fuel : nat) (a b : Bignum) :
  canonical a -> canonical b -> val b <> 0 -> (10 <= fuel)%nat ->
  exists q r,
    divide fuel a b = Ret q /\ modulo fuel a b = Ret r /\
    canonical q /\ canonical r /\
    val q = val a / val b /\ val r = val a mod val b /\
    val a = val q * val b + val r /\ 0 <= val r < val b /\
    (a = b -> q = [1] /\ r = [0]).
Proof.
  intros Ha Hb Hnz Hfuel.
  assert (Hpos : 0 < val b).
  { destruct Hb as (Hd & _). pose proof (val_bound b Hd). lia. }
  destruct Ha as (Hda & Hna & Hza).
  destruct (divide_spec b Hb Hpos fuel a Hfuel Hda) as (q & Q1 & Q2 & Q3).
  destruct (modulo_spec b Hb Hpos fuel a Hfuel Hda) as (r & R1 & R2 & R3).
  exists q, r.
  pose proof (Z.mod_pos_bound (val a) (val b) Hpos) as Bm.
  pose proof (Z.div_mod (val a) (val b) ltac:(lia)) as Dm.
  repeat match goal with |- _ /\ _ => split end; auto;
    try (rewrite ?Q3, ?R3; lia).
  intros ->. split.
  - apply canonical_val_inj; auto with bignum.
    rewrite Q3, Z.div_same by lia. reflexivity.
  - apply canonical_val_inj; auto with bignum.
    rewrite R3, Z.mod_same by lia. reflexivity.
Qed.

Lemma divide_modulo_euclidean_witness :
  exists q r,
    divide 10 [1; 0; 0; 0] [7] = Ret q /\ modulo 10 [1; 0; 0; 0] [7] = Ret r /\
    canonical q /\ canonical r /\
    val q = val [1; 0; 0; 0] / val [7] /\ val r = val [1; 0; 0; 0] mod val [7] /\
    val [1; 0; 0; 0] = val q * val [7] + val r /\ 0 <= val r < val [7] /\
    ([1; 0; 0; 0] = [7] -> q = [1] /\ r = [0]).
Proof.
  apply (divide_modulo_euclidean 10 [1; 0; 0; 0] [7]).
  - repeat split. discriminate.
  - repeat split. discriminate.
  - vm_compute. discriminate.
  - apply Nat.le_refl.
Defined.

(** *** Division by zero *)

Lemma divide_while_zero_diverges :
  forall fuel rem curr_div,
    digits rem -> no_leading_zero rem = true -> 0 < val rem ->
    divide_while fuel rem zero curr_div = OutOfFuel.
Proof.
  induction fuel as [|fuel IH]; intros rem curr_div Hd Hn Hv; [reflexivity|].
  cbn [divide_while].
  assert (Hne : rem <> []) by (intros ->; cbn [val] in Hv; lia).
  rewrite (bignum_ltb_val rem zero Hd eq_refl Hn eq_refl (or_introl Hne)
                          ltac:(discriminate)).
  change (val zero) with 0.
  replace (val rem <? 0) with false by (symmetry; apply Z.ltb_ge; lia).
  cbn [negb].
  destruct (subtract_spec rem zero Hd eq_refl) as (S1 & S2 & S3 & _).
  - change (val zero) with 0. lia.
  - apply IH; auto. rewrite S3. change (val zero) with 0. lia.
Qed.

Lemma val_zero_cons d ds :
  digits (d :: ds) -> (val (d :: ds) = 0 <-> d = 0 /\ val ds = 0).
Proof.
  intros H. apply digits_cons in H. destruct H as [Hd Hds].
  pose proof (val_bound ds Hds). cbn [val].
  pose proof (pow10_pos (Z.of_nat (length ds)) ltac:(lia)). nia.
Qed.

Lemma divide_for_zero_diverges fuel :
  forall ds quo, digits ds -> val ds <> 0 ->
                 divide_for fuel ds zero quo [] = OutOfFuel.
Proof.
  induction ds as [|d ds IH]; intros quo Hd Hv; [cbn [val] in Hv; lia|].
  pose proof (val_zero_cons d ds Hd) as Hz.
  apply digits_cons in Hd. destruct Hd as [Hd Hds].
  cbn [divide_for app strip_zeros].
  destruct (d =? 0) eqn:E.
  - apply Z.eqb_eq in E. destruct fuel as [|fuel']; [reflexivity|].
    cbn [divide_while bind]. change (bignum_ltb [] zero) with true. cbn [negb bind].
    apply IH; [assumption|]. intros Hv0. apply Hv, Hz. auto.
  - apply Z.eqb_neq in E.
    rewrite divide_while_zero_diverges; [reflexivity| | |].
    + apply digits_cons. split; [assumption|apply digits_nil].
    + reflexivity.
    + cbn [val length]. change (10 ^ Z.of_nat 0) with 1. lia.
Qed.

Lemma divide_for_zero_returns fuel :
  (1 <= fuel)%nat ->
  forall ds quo, digits ds -> val ds = 0 ->
                 divide_for fuel ds zero quo [] = Ret (quo ++ repeat 0 (length ds)).
Proof.
  intros Hfuel. induction ds as [|d ds IH]; intros quo Hd Hv.
  - cbn [divide_for length repeat]. rewrite app_nil_r. reflexivity.
  - apply (val_zero_cons d ds Hd) in Hv. destruct Hv as [-> Hv].
    apply digits_cons in Hd. destruct Hd as [_ Hds].
    cbn [divide_for app strip_zeros]. change (0 =? 0) with true. cbv iota.
    destruct fuel as [|fuel']; [lia|].
    cbn [divide_while bind]. change (bignum_ltb [] zero) with true. cbn [negb bind].
    rewrite (IH (quo ++ [0]) Hds Hv). rewrite <- app_assoc. reflexivity.
Qed.

Lemma remove_excess_zeros n : remove_excess (repeat 0 (S n)) = [0].
Proof.
  induction n as [|n IH]; [reflexivity|].
  change (repeat 0 (S (S n))) with (0 :: repeat 0 (S n)).
  cbn [remove_excess]. rewrite IH. reflexivity.
Qed.

Lemma divide_for_never_throws fuel other e :
  forall ds quo rem, divide_for fuel ds other quo rem <> Throw e.
Proof.
  assert (W : forall f rem c, divide_while f rem other c <> Throw e).
  { induction f as [|f IH]; intros rem c; cbn [divide_while]; [discriminate|].
    destruct (negb (bignum_ltb rem other)); [apply IH|discriminate]. }
  induction ds as [|d ds IH]; intros quo rem; cbn [divide_for]; [discriminate|].
  generalize (W fuel (strip_zeros (rem ++ [d])) 0).
  destruct (divide_while fuel (strip_zeros (rem ++ [d])) other 0) as [[rem2 c]| | |];
    cbn [bind]; intros Hw; [apply IH| |discriminate|discriminate].
  intros [= ->]. apply Hw. reflexivity.
Qed.

Lemma divide_never_throws fuel a b e : divide fuel a b <> Throw e.
Proof.
  unfold divide. generalize (divide_for_never_throws fuel b e a [0] []).
  destruct (divide_for fuel a b [0] []); cbn [bind]; intros H;
    [discriminate|assumption|discriminate|discriminate].
Qed.

Lemma modulo_never_throws fuel a b e : modulo fuel a b <> Throw e.
Proof.
  unfold modulo. generalize (divide_never_throws fuel a b e).
  destruct (divide fuel a b); cbn [bind]; intros H;
    [discriminate|assumption|discriminate|discriminate].
Qed.

(** C4, as the code has it.  With the divisor zero, [operator/] and
    [operator%] raise no error: on a dividend of value zero they return
    zero, and on any other dividend the subtraction loop does not end. *)
Theorem divide_by_zero (fuel : nat) (a : Bignum) :
  digits a ->
  (val a = 0 -> (1 <= fuel)%nat ->
   divide fuel a zero = Ret zero /\ modulo fuel a zero = Ret zero) /\
  (val a <> 0 ->
   divide fuel a zero = OutOfFuel /\ modulo fuel a zero = OutOfFuel) /\
  (forall e, divide fuel a zero <> Throw e /\ modulo fuel a zero <> Throw e).
Proof.
  intros Ha. split; [|split].
  - intros Hv Hfuel.
    assert (Hq : divide fuel a zero = Ret zero).
    { unfold divide. rewrite (divide_for_zero_returns fuel Hfuel a [0] Ha Hv).
      cbn [bind]. change ([0] ++ repeat 0 (length a)) with (repeat 0 (S (length a))).
      rewrite remove_excess_zeros. reflexivity. }
    split; [assumption|]. unfold modulo. rewrite Hq. cbn [bind].
    change (multiply zero zero) with zero. f_equal.
    destruct (subtract_canonical a zero Ha eq_refl) as (S1 & S2).
    + change (val zero) with 0. lia.
    + right. discriminate.
    + apply canonical_val_inj; auto with bignum.
      rewrite S2, Hv. reflexivity.
  - intros Hv.
    assert (Hq : divide fuel a zero = OutOfFuel).
    { unfold divide. rewrite (divide_for_zero_diverges fuel a [0] Ha Hv). reflexivity. }
    split; [assumption|]. unfold modulo. rewrite Hq. reflexivity.
  - intros e. split; [apply divide_never_throws|apply modulo_never_throws].
Qed.

Lemma divide_by_zero_witness :
  (val [7] = 0 -> (1 <= 5)%nat ->
   divide 5 [7] zero = Ret zero /\ modulo 5 [7] zero = Ret zero) /\
  (val [7] <> 0 ->
   divide 5 [7] zero = OutOfFuel /\ modulo 5 [7] zero = OutOfFuel) /\
  (forall e, divide 5 [7] zero <> Throw e /\ modulo 5 [7] zero <> Throw e).
Proof.
  apply (divide_by_zero 5 [7]). reflexivity.
Defined.

(** C4 as stated fails: a zero dividend divided by zero gives a result,
    and a non-zero dividend divided by zero runs for ever; neither is an
    error. *)
Lemma divide_by_zero_counterexample :
  divide 10 [0] zero = Ret [0] /\ modulo 10 [0] zero = Ret [0] /\
  (forall fuel, divide fuel [7] zero = OutOfFuel).
Proof.
  split; [reflexivity|]. split; [reflexivity|].
  intros fuel. unfold divide.
  rewrite (divide_for_zero_diverges fuel [7] [0]); [reflexivity|reflexivity|].
  vm_compute. discriminate.
Qed.

(** *** The canonical form of results *)

Lemma mod_exponent_result fuel base exponent modulus r :
  mod_exponent fuel base exponent modulus = Ret r ->
  exists mod_exp, r = remove_excess mod_exp.
Proof.
  unfold mod_exponent. destruct (modulo fuel base modulus) as [cb| | |];
    cbn [bind]; try discriminate.
  destruct (mod_exponent_while fuel fuel [1] cb exponent modulus) as [m| | |];
    cbn [bind]; try discriminate.
  intros [= <-]. exists m. reflexivity.
Qed.

(** C5, as the code has it.  Every value an arithmetic operation returns
    ([operator-], [operator*], [operator/], [operator%], [mod_exponent]) has
    no leading zero unless it has exactly one entry; the constructor keeps
    the characters of its string as they are, so its value has the
    canonical form exactly when the string does not start with a zero
    followed by more characters. *)
Theorem results_no_leading_zero (a b : Bignum) :
  no_leading_zero (subtract a b) = true /\
  no_leading_zero (multiply a b) = true /\
  (forall fuel q, divide fuel a b = Ret q -> no_leading_zero q = true) /\
  (forall fuel r, modulo fuel a b = Ret r -> no_leading_zero r = true) /\
  (forall fuel exponent r,
      mod_exponent fuel a exponent b = Ret r -> no_leading_zero r = true) /\
  (forall string_num,
      no_leading_zero (Bignum_of_string string_num) =
      match string_num with
      | ch :: _ :: _ => negb (Ascii.eqb ch "0")
      | _ => true
      end).
Proof.
  repeat match goal with |- _ /\ _ => split end.
  - apply remove_excess_no_leading_zero.
  - apply remove_excess_no_leading_zero.
  - intros fuel q. unfold divide.
    destruct (divide_for fuel a b [0] []); cbn [bind]; try discriminate.
    intros [= <-]. apply remove_excess_no_leading_zero.
  - intros fuel r. unfold modulo.
    destruct (divide fuel a b); cbn [bind]; try discriminate.
    intros [= <-]. apply remove_excess_no_leading_zero.
  - intros fuel exponent r H.
    destruct (mod_exponent_result _ _ _ _ _ H) as (m & ->).
    apply remove_excess_no_leading_zero.
  - intros [|ch [|ch' s]]; try reflexivity.
    cbn [Bignum_of_string map no_leading_zero]. f_equal.
    destruct (Ascii.eqb ch "0") eqn:E.
    + apply Ascii.eqb_eq in E. subst ch. reflexivity.
    + apply Z.eqb_neq. intros H. apply Ascii.eqb_neq in E. apply E.
      rewrite <- (ascii_N_embedding ch). unfold plain_char, char_code in H.
      pose proof (N_ascii_bounded ch) as B.
      destruct (128 <=? Z.of_N (N_of_ascii ch)) in H;
        [lia | replace (N_of_ascii ch) with 48%N by lia; reflexivity].
Qed.

(** C5 as stated fails for the constructor: the string "007" gives a vector
    of three entries that starts with a zero. *)
Lemma constructor_keeps_leading_zeros :
  Bignum_of_string (lit "007") = [0; 0; 7] /\
  no_leading_zero (Bignum_of_string (lit "007")) = false.
Proof. split; reflexivity. Qed.

(** *** Modular exponentiation *)

(** [mod_exponent] returns [base ^ exponent mod modulus] unless the
    exponent is zero and the modulus one. *)
Lemma mod_exponent_correct fuel base exponent modulus :
  digits base -> digits exponent -> exponent <> [] ->
  canonical modulus -> 0 < val modulus ->
  1 < val modulus \/ 0 < val exponent ->
  (10 <= fuel)%nat -> (Z.to_nat (Z.log2 (val exponent)) + 2 <= fuel)%nat ->
  exists r,
    mod_exponent fuel base exponent modulus = Ret r /\ canonical r /\
    val r = (val base ^ val exponent) mod val modulus.
Proof.
  intros Hb He Hne Hm Hpos Hcase Hf1 Hf2.
  destruct (mod_exponent_spec fuel base exponent modulus Hb He Hne Hm Hpos Hf1 Hf2)
    as (r & R1 & R2 & R3).
  exists r. split; [assumption|]. split; [assumption|].
  rewrite R3. destruct (val exponent =? 0) eqn:E; [|reflexivity].
  apply Z.eqb_eq in E. rewrite E, Z.pow_0_r.
  symmetry. apply Z.mod_small. lia.
Qed.

(** C2 at the modulus one and the exponent zero: the loop is not entered
    and [1] is returned, where [5 ^ 0 mod 1] is [0]. *)
Theorem mod_exponent_modulus_one :
  mod_exponent 10 [5] [0] [1] = Ret [1] /\
  val [1] <> (val [5] ^ val [0]) mod val [1] /\
  (val [5] ^ val [0]) mod val [1] = 0.
Proof.
  split; [reflexivity|]. split; [vm_compute; discriminate|reflexivity].
Qed.

(** C9.  For a non-zero modulus and any exponent (a non-empty vector of
    digits, canonical or not), the loop of
    [mod_exponent] ends: halving a non-zero exponent gives a strictly
    smaller one, the exponent zero ends the loop, and the call returns once
    the fuel covers the [log2 exponent + 2] rounds (and the ten rounds of a
    quotient digit). *)
Theorem mod_exponent_terminates (base exponent modulus : Bignum) :
  digits base -> digits exponent -> exponent <> [] ->
  canonical modulus -> val modulus <> 0 ->
  (forall fuel e, canonical e -> val e <> 0 -> (10 <= fuel)%nat ->
                  exists e', divide fuel e two = Ret e' /\ canonical e' /\
                             val e' = val e / 2 /\ val e' < val e) /\
  (forall n fuel mod_exp curr_base,
      mod_exponent_while (S n) fuel mod_exp curr_base zero modulus = Ret mod_exp) /\
  exists r,
    forall fuel, (10 <= fuel)%nat ->
                 (Z.to_nat (Z.log2 (val exponent)) + 2 <= fuel)%nat ->
                 mod_exponent fuel base exponent modulus = Ret r.
Proof.
  intros Hb He Hne Hm Hnz.
  assert (Hpos : 0 < val modulus).
  { destruct Hm as (Hd & _). pose proof (val_bound modulus Hd). lia. }
  split; [|split].
  - intros fuel e (Hed & Hen & Hez) Hv Hfuel.
    destruct (divide_spec two canonical_two ltac:(reflexivity) fuel e Hfuel Hed)
      as (e' & D1 & D2 & D3).
    change (val two) with 2 in D3.
    exists e'. repeat split; try assumption; try apply D2.
    pose proof (val_bound e Hed). rewrite D3.
    apply Z.div_lt_upper_bound; lia.
  - reflexivity.
  - set (fuel0 := Nat.max 10 (Z.to_nat (Z.log2 (val exponent)) + 2)).
    destruct (mod_exponent_spec fuel0 base exponent modulus Hb He Hne Hm Hpos)
      as (r & R1 & R2 & R3); try (unfold fuel0; lia).
    exists r. intros fuel Hf1 Hf2.
    destruct (mod_exponent_spec fuel base exponent modulus Hb He Hne Hm Hpos Hf1 Hf2)
      as (r' & R1' & R2' & R3').
    rewrite R1'. f_equal. apply canonical_val_inj; auto. congruence.
Qed.

Lemma mod_exponent_terminates_witness :
  (forall fuel e, canonical e -> val e <> 0 -> (10 <= fuel)%nat ->
                  exists e', divide fuel e two = Ret e' /\ canonical e' /\
                             val e' = val e / 2 /\ val e' < val e) /\
  (forall n fuel mod_exp curr_base,
      mod_exponent_while (S n) fuel mod_exp curr_base zero [4; 9; 7] = Ret mod_exp) /\
  exists r,
    forall fuel, (10 <= fuel)%nat ->
                 (Z.to_nat (Z.log2 (val [1%Z; 3%Z])) + 2 <= fuel)%nat ->
                 mod_exponent fuel [4] [1; 3] [4; 9; 7] = Ret r.
Proof.
  apply (mod_exponent_terminates [4] [1; 3] [4; 9; 7]).
  - reflexivity.
  - reflexivity.
  - discriminate.
  - repeat split. discriminate.
  - vm_compute. discriminate.
Defined.

(** ** The text codec *)

Lemma char_code_range c : 0 <= char_code c < 256.
Proof.
  unfold char_code. pose proof (N_ascii_bounded c). lia.
Qed.

Lemma char_of_int_code c : char_of_int (char_code c) = c.
Proof.
  unfold char_of_int. rewrite Z.mod_small by apply char_code_range.
  unfold char_code. rewrite N2Z.id. apply ascii_N_embedding.
Qed.

(** One character: three digits that write its code, and the three
    characters [std::stoi] reads the code back from. *)
Lemma encode_char c :
  exists d1 d2 d3 x y z,
    string_to_bignum [c] = [d1; d2; d3] /\
    digits [d1; d2; d3] /\ val [d1; d2; d3] = char_code c /\
    to_string [d1; d2; d3] = [x; y; z] /\
    stoi [x; y; z] = Ret (char_code c).
Proof.
  destruct c as [[] [] [] [] [] [] [] []];
    do 6 eexists;
    (split; [vm_compute; reflexivity|]);
    (split; [vm_compute; reflexivity|]);
    (split; [vm_compute; reflexivity|]);
    (split; [vm_compute; reflexivity|]);
    vm_compute; reflexivity.
Qed.

Lemma string_to_bignum_cons c s :
  string_to_bignum (c :: s) = string_to_bignum [c] ++ string_to_bignum s.
Proof.
  unfold string_to_bignum, Bignum_of_string. cbn [flat_map].
  rewrite app_nil_r, map_app. reflexivity.
Qed.

Lemma to_string_app u v : to_string (u ++ v) = to_string u ++ to_string v.
Proof. unfold to_string. apply flat_map_app. Qed.

Lemma string_to_bignum_length s :
  length (string_to_bignum s) = (3 * length s)%nat.
Proof.
  induction s as [|c s IH]; [reflexivity|].
  rewrite string_to_bignum_cons, length_app, IH.
  destruct (encode_char c) as (d1 & d2 & d3 & x & y & z & E & _).
  rewrite E. cbn [length]. lia.
Qed.

Lemma string_to_bignum_digits s : digits (string_to_bignum s).
Proof.
  induction s as [|c s IH]; [reflexivity|].
  rewrite string_to_bignum_cons. apply digits_app. split; [|assumption].
  destruct (encode_char c) as (d1 & d2 & d3 & x & y & z & E & D & _).
  rewrite E. assumption.
Qed.

Lemma string_to_bignum_val c s :
  val (string_to_bignum (c :: s)) =
  char_code c * 10 ^ Z.of_nat (3 * length s) + val (string_to_bignum s).
Proof.
  rewrite string_to_bignum_cons, val_app, string_to_bignum_length.
  destruct (encode_char c) as (d1 & d2 & d3 & x & y & z & E & _ & V & _).
  rewrite E, V. reflexivity.
Qed.

Lemma to_string_length s :
  length (to_string (string_to_bignum s)) = (3 * length s)%nat.
Proof.
  induction s as [|c s IH]; [reflexivity|].
  rewrite string_to_bignum_cons, to_string_app, length_app, IH.
  destruct (encode_char c) as (d1 & d2 & d3 & x & y & z & E & _ & _ & T & _).
  rewrite E, T. cbn [length]. lia.
Qed.

Lemma decode_groups_encoded s :
  decode_groups (to_string (string_to_bignum s)) = Ret s.
Proof.
  induction s as [|c s IH]; [reflexivity|].
  rewrite string_to_bignum_cons, to_string_app.
  destruct (encode_char c) as (d1 & d2 & d3 & x & y & z & E & _ & _ & T & S).
  rewrite E, T. cbn [app decode_groups]. rewrite S. cbn [bind].
  rewrite IH. cbn [bind]. rewrite char_of_int_code. reflexivity.
Qed.

(** C7.  For every string (its characters have codes below 256, hence
    below 1000), decoding the encoding gives the string back; the encoding
    has three digits per character, so the decoder adds no padding
    zeros. *)
Theorem codec_round_trip (s : std_string) :
  bignum_to_string (string_to_bignum s) = Ret s /\
  Nat.modulo (length (to_string (string_to_bignum s))) 3 = 0%nat /\
  Forall (fun ch => char_code ch < 1000) s.
Proof.
  assert (Hmod : Nat.modulo (length (to_string (string_to_bignum s))) 3 = 0%nat).
  { rewrite to_string_length, Nat.mul_comm. apply Nat.Div0.mod_mul. }
  split; [|split; [assumption|]].
  - unfold bignum_to_string. rewrite Hmod. cbn [Nat.eqb negb].
    apply decode_groups_encoded.
  - apply Forall_forall. intros ch _. pose proof (char_code_range ch). lia.
Qed.

(** *** Digit vectors as text *)

Lemma int_to_string_digit d :
  0 <= d <= 9 ->
  exists ch, int_to_string d = [ch] /\ char_code ch - 48 = d /\
             ch = char_of_int (48 + d).
Proof.
  intros H.
  assert (C : d = 0 \/ d = 1 \/ d = 2 \/ d = 3 \/ d = 4 \/ d = 5 \/ d = 6 \/
              d = 7 \/ d = 8 \/ d = 9) by lia.
  repeat (destruct C as [->|C]; [eexists; repeat split; reflexivity|]).
  subst d. eexists; repeat split; reflexivity.
Qed.

Lemma plain_char_code ch : char_code ch < 128 -> plain_char ch = char_code ch.
Proof.
  intros H. unfold plain_char.
  destruct (128 <=? char_code ch) eqn:E; [apply Z.leb_le in E; lia|reflexivity].
Qed.

Lemma to_string_digits v :
  digits v ->
  length (to_string v) = length v /\ Bignum_of_string (to_string v) = v.
Proof.
  induction v as [|d v IH]; intros H; [split; reflexivity|].
  apply digits_cons in H. destruct H as [Hd Hv].
  destruct (IH Hv) as [IH1 IH2].
  destruct (int_to_string_digit d Hd) as (ch & E & C & _).
  unfold to_string in *. cbn [flat_map]. rewrite E. cbn [app length].
  unfold Bignum_of_string in *. cbn [map].
  rewrite (plain_char_code ch) by lia. rewrite IH1, IH2, C. split; reflexivity.
Qed.

Lemma to_string_zeros k : to_string (repeat 0 k) = repeat "0"%char k.
Proof.
  induction k as [|k IH]; [reflexivity|].
  unfold to_string in *. cbn [repeat flat_map]. rewrite IH. reflexivity.
Qed.

(** ** The frame of a line *)

Lemma int_to_string_length3 n :
  0 <= n <= 999 -> (1 <= length (int_to_string n) <= 3)%nat.
Proof.
  intros H. unfold int_to_string.
  replace (n <? 0) with false by (symmetry; apply Z.ltb_ge; lia).
  cbn [decimal_loop].
  destruct (n <? 10) eqn:E1; [cbn [length]; lia|].
  destruct (n / 10 <? 10) eqn:E2; [cbn [length]; lia|].
  destruct (n / 10 / 10 <? 10) eqn:E3; [cbn [length]; lia|].
  apply Z.ltb_ge in E3. exfalso.
  assert (n / 10 / 10 < 10); [|lia].
  apply Z.div_lt_upper_bound; [lia|]. apply Z.div_lt_upper_bound; lia.
Qed.

Lemma marker_length n :
  0 <= n <= 999 -> length (setw_setfill 3 space (int_to_string n)) = 3%nat.
Proof.
  intros H. pose proof (int_to_string_length3 n H).
  unfold setw_setfill. rewrite length_app, repeat_length. lia.
Qed.

Lemma padding_frame input line_num :
  (length input <= 96)%nat ->
  length (setw_setfill 3 space (int_to_string line_num)) = 3%nat ->
  padding input line_num =
  Ret (setw_setfill 3 space (int_to_string line_num) ++ input
       ++ repeat space (96 - length input)
       ++ setw_setfill 3 space (int_to_string line_num)).
Proof.
  intros Hl Hm. unfold padding, append_fill.
  set (marker := setw_setfill 3 space (int_to_string line_num)) in *.
  rewrite length_app, Hm.
  unfold size_t_wrap, string_max_size.
  rewrite (Z.mod_small (102 - _)) by lia.
  rewrite Z.mod_small by lia.
  replace (2 ^ 63 - 1 - Z.of_nat (3 + length input) <?
           102 - Z.of_nat (3 + length input) - 3) with false
    by (symmetry; apply Z.ltb_ge; lia).
  cbn [bind]. f_equal. rewrite <- !app_assoc. do 2 f_equal.
  f_equal. f_equal. lia.
Qed.

Lemma truncate_firstn (line : std_string) :
  (if Nat.ltb MAX_CHARS_PER_CHUNK (length line)
   then firstn MAX_CHARS_PER_CHUNK line else line)
  = firstn 96 line.
Proof.
  unfold MAX_CHARS_PER_CHUNK. destruct (Nat.ltb 96 (length line)) eqn:E; [reflexivity|].
  apply Nat.ltb_ge in E. symmetry. apply firstn_all2. assumption.
Qed.

(** C8, as the code has it.  For a line number from 1 to 999, encryption
    cuts the line to at most 96 characters and builds a frame of exactly
    102 characters: the line number right-aligned in three characters and
    filled with spaces (not zeros), the content, spaces up to 99
    characters, and the same three characters again; the two numbers
    encrypted are the encodings of the characters [0,51) and [51,102). *)
Theorem frame_layout (public_mod public_exp : Bignum) (fuel : nat)
        (line : std_string) (line_num : Z) :
  1 <= line_num <= 999 ->
  let content := firstn 96 line in
  let marker :=
    repeat space (3 - length (int_to_string line_num)) ++ int_to_string line_num in
  let frame := marker ++ content ++ repeat space (96 - length content) ++ marker in
  spawn_loop [line] line_num = Ret [frame] /\
  (length content <= 96)%nat /\
  ((length line <= 96)%nat -> content = line) /\
  length marker = 3%nat /\
  length frame = 102%nat /\
  length (firstn 51 frame) = 51%nat /\
  length (skipn 51 frame) = 51%nat /\
  encrypt_task public_mod public_exp fuel frame =
    (first_encrypted <-
       mod_exponent fuel (string_to_bignum (firstn 51 frame)) public_exp public_mod ;;
     second_encrypted <-
       mod_exponent fuel (string_to_bignum (skipn 51 frame)) public_exp public_mod ;;
     Ret (to_string first_encrypted, to_string second_encrypted)).
Proof.
  intros Hn content marker frame.
  assert (Hc : (length content <= 96)%nat) by (apply firstn_le_length).
  assert (Hm : length marker = 3%nat) by (apply marker_length; lia).
  assert (Hf : length frame = 102%nat).
  { unfold frame. rewrite !length_app, repeat_length, Hm. lia. }
  split.
  { cbn [spawn_loop]. rewrite truncate_firstn. fold content.
    rewrite (padding_frame content line_num Hc Hm). reflexivity. }
  split; [assumption|].
  split; [intros Hl; apply firstn_all2; assumption|].
  split; [assumption|]. split; [assumption|].
  split; [rewrite length_firstn; lia|].
  split; [rewrite length_skipn; lia|].
  unfold encrypt_task, substr, substr_from. rewrite Hf.
  cbn [Nat.ltb Nat.leb bind skipn]. reflexivity.
Qed.

Lemma frame_layout_witness :
  let line := lit "A" in
  let content := firstn 96 line in
  let marker := repeat space (3 - length (int_to_string 1)) ++ int_to_string 1 in
  let frame := marker ++ content ++ repeat space (96 - length content) ++ marker in
  spawn_loop [line] 1 = Ret [frame] /\
  (length content <= 96)%nat /\
  ((length line <= 96)%nat -> content = line) /\
  length marker = 3%nat /\
  length frame = 102%nat /\
  length (firstn 51 frame) = 51%nat /\
  length (skipn 51 frame) = 51%nat /\
  encrypt_task [7; 7] [3] 10 frame =
    (first_encrypted <-
       mod_exponent 10 (string_to_bignum (firstn 51 frame)) [3] [7; 7] ;;
     second_encrypted <-
       mod_exponent 10 (string_to_bignum (skipn 51 frame)) [3] [7; 7] ;;
     Ret (to_string first_encrypted, to_string second_encrypted)).
Proof.
  apply (frame_layout [7; 7] [3] 10 (lit "A") 1). lia.
Defined.

(** C8 as stated fails on the line-number field: it is filled with
    spaces, not with zeros. *)
Lemma frame_marker_counterexample :
  padding (lit "A") 1 = Ret (lit "  1A" ++ repeat space 95 ++ lit "  1") /\
  lit "  1A" ++ repeat space 95 ++ lit "  1"
  <> lit "001A" ++ repeat space 95 ++ lit "001".
Proof.
  split; [vm_compute; reflexivity|discriminate].
Qed.

(** ** The round trip of a line *)

(** A call returns what its body returns. *)
Lemma unwinding_ret {A B} (futures : list (res A)) (body : res B) r :
  unwinding futures body = Ret r <-> body = Ret r.
Proof.
  destruct body as [b|e| |]; cbn [unwinding]; try tauto.
  destruct (wait_all futures); cbn [bind]; split; discriminate.
Qed.

Lemma large_encrypt_ret public_mod public_exp fuel text pairs :
  large_encrypt public_mod public_exp fuel text = Ret pairs <->
  large_encrypt_body public_mod public_exp fuel text = Ret pairs.
Proof. apply unwinding_ret. Qed.

Lemma large_encrypt_spawned public_mod public_exp fuel text padded_lines pairs :
  spawn_loop (getlines text []) 1 = Ret padded_lines ->
  get_all (map (encrypt_task public_mod public_exp fuel) padded_lines) = Ret pairs ->
  large_encrypt public_mod public_exp fuel text = Ret pairs.
Proof.
  intros S G. apply large_encrypt_ret. unfold large_encrypt_body.
  rewrite S. assumption.
Qed.

Lemma printable_cons c s :
  printable (c :: s) <-> (32 <= char_code c <= 126) /\ printable s.
Proof.
  unfold printable, is_printable. cbn [forallb].
  rewrite !andb_true_iff, !Z.leb_le. tauto.
Qed.

Lemma getlines_single L :
  printable L -> forall line, getlines (L ++ [newline]) line = [line ++ L].
Proof.
  induction L as [|c L IH]; intros HL line.
  - cbn [app getlines]. rewrite Ascii.eqb_refl, app_nil_r. reflexivity.
  - apply printable_cons in HL. destruct HL as [Hc HL].
    cbn [app getlines].
    destruct (Ascii.eqb c newline) eqn:E.
    + apply Ascii.eqb_eq in E. subst c. vm_compute in Hc. exfalso.
      destruct Hc as [Hc _]. apply Hc. reflexivity.
    + rewrite IH by assumption. rewrite <- app_assoc. reflexivity.
Qed.

Lemma pop_spaces_repeat k s : pop_spaces (repeat space k ++ s) = pop_spaces s.
Proof.
  induction k as [|k IH]; [reflexivity|].
  cbn [repeat app pop_spaces]. rewrite Ascii.eqb_refl. assumption.
Qed.

Lemma rev_repeat {A} (x : A) k : rev (repeat x k) = repeat x k.
Proof.
  induction k as [|k IH]; [reflexivity|].
  cbn [repeat rev]. rewrite IH. symmetry. apply repeat_cons.
Qed.

Lemma strip_trailing_spaces_padded L k :
  strip_trailing_spaces (L ++ repeat space k) = strip_trailing_spaces L.
Proof.
  unfold strip_trailing_spaces.
  rewrite rev_app_distr, rev_repeat, pop_spaces_repeat. reflexivity.
Qed.

Lemma strip_trailing_spaces_fixed L :
  ends_with_space L = false -> strip_trailing_spaces L = L.
Proof.
  unfold strip_trailing_spaces, ends_with_space. intros H.
  rewrite <- (rev_involutive L) at 2. f_equal.
  destruct (rev L) as [|c r]; [reflexivity|].
  cbn [pop_spaces]. rewrite H. reflexivity.
Qed.

Lemma pop_spaces_head s :
  match pop_spaces s with c :: _ => Ascii.eqb c space | [] => false end = false.
Proof.
  induction s as [|c s IH]; [reflexivity|].
  cbn [pop_spaces]. destruct (Ascii.eqb c space) eqn:E; [assumption|].
  exact E.
Qed.

(** What [large_decrypt] returns never ends with a space. *)
Lemma strip_trailing_spaces_end s : ends_with_space (strip_trailing_spaces s) = false.
Proof.
  unfold ends_with_space, strip_trailing_spaces. rewrite rev_involutive.
  apply pop_spaces_head.
Qed.

Lemma large_decrypt_end public_mod priv_exp fuel first second s :
  large_decrypt public_mod priv_exp fuel first second = Ret s ->
  ends_with_space s = false.
Proof.
  unfold large_decrypt.
  destruct (mod_exponent fuel (Bignum_of_string first) priv_exp public_mod)
    as [first_decrypted| | |]; cbn [bind in_thread]; try discriminate.
  destruct (mod_exponent fuel (Bignum_of_string second) priv_exp public_mod)
    as [second_decrypted| | |]; cbn [bind in_thread]; try discriminate.
  destruct (bignum_to_string first_decrypted); cbn [bind in_thread]; try discriminate.
  destruct (bignum_to_string second_decrypted); cbn [bind in_thread]; try discriminate.
  destruct (substr _ _ _); cbn [bind in_thread]; try discriminate.
  intros [= <-]. apply strip_trailing_spaces_end.
Qed.

Lemma val_zeros_app k v : val (repeat 0 k ++ v) = val v.
Proof. rewrite val_app, val_repeat0. lia. Qed.

(** A canonical vector whose value is the encoding of [half] decodes to
    [half]: the zeros in front restore the digits the canonical form
    dropped. *)
Lemma decode_canonical plain c half :
  canonical plain -> 1 <= char_code c ->
  val plain = val (string_to_bignum (c :: half)) ->
  bignum_to_string plain = Ret (c :: half).
Proof.
  intros (Pd & Pn & Pz) Hc Hv.
  set (n := length half).
  pose proof (string_to_bignum_digits (c :: half)) as Md.
  pose proof (string_to_bignum_length (c :: half)) as Ml. cbn [length] in Ml. fold n in Ml.
  pose proof (val_bound _ Md) as Mb. rewrite Ml in Mb.
  pose proof (string_to_bignum_val c half) as Mv. fold n in Mv.
  pose proof (val_bound _ (string_to_bignum_digits half)) as Hb.
  pose proof (val_bound _ Pd) as Pb.
  assert (Hlow : 10 ^ Z.of_nat (3 * n) <= val plain).
  { rewrite Hv, Mv. pose proof (pow10_pos (Z.of_nat (3 * n)) ltac:(lia)). nia. }
  assert (L1 : (3 * n < length plain)%nat).
  { apply Nat2Z.inj_lt. apply (Z.pow_lt_mono_r_iff 10); lia. }
  assert (L2 : (length plain <= 3 * S n)%nat).
  { pose proof (val_lower_nlz plain Pd Pz) as Hl.
    destruct (Nat.le_gt_cases 2 (length plain)) as [G|G]; [|lia].
    specialize (Hl G). apply Nat2Z.inj_le.
    assert (Z.of_nat (length plain) - 1 < Z.of_nat (3 * S n)); [|lia].
    apply (Z.pow_lt_mono_r_iff 10); lia. }
  destruct (to_string_digits plain Pd) as [Tl _].
  assert (Hpad : forall k, (k + length plain = 3 * S n)%nat ->
                           repeat "0"%char k ++ to_string plain
                           = to_string (string_to_bignum (c :: half))).
  { intros k Hk. rewrite <- to_string_zeros, <- to_string_app. f_equal.
    apply digits_val_inj.
    - rewrite length_app, repeat_length. lia.
    - apply digits_app. split; [apply digits_repeat0|assumption].
    - assumption.
    - rewrite val_zeros_app. assumption. }
  unfold bignum_to_string. rewrite Tl.
  assert (C : length plain = (1 + n * 3)%nat \/ length plain = (2 + n * 3)%nat
              \/ length plain = (0 + S n * 3)%nat) by lia.
  destruct C as [C|[C|C]]; rewrite C, Nat.Div0.mod_add.
  - change (Nat.modulo 1 3) with 1%nat. cbn [Nat.eqb negb Nat.sub].
    rewrite (Hpad 2%nat) by lia. apply decode_groups_encoded.
  - change (Nat.modulo 2 3) with 2%nat. cbn [Nat.eqb negb Nat.sub].
    rewrite (Hpad 1%nat) by lia. apply decode_groups_encoded.
  - change (Nat.modulo 0 3) with 0%nat. cbn [Nat.eqb negb].
    pose proof (Hpad 0%nat ltac:(lia)) as H0. cbn [repeat app] in H0.
    rewrite H0. apply decode_groups_encoded.
Qed.

Lemma nonzero_codes_split (s : std_string) :
  Forall (fun ch => 1 <= char_code ch) s -> s <> [] ->
  exists c half, s = c :: half /\ 1 <= char_code c.
Proof.
  intros H Hne. destruct s as [|c half]; [congruence|].
  exists c, half. inversion H; subst. auto.
Qed.

Lemma printable_nonzero L : printable L -> Forall (fun ch => 1 <= char_code ch) L.
Proof.
  induction L as [|c L IH]; intros H; constructor.
  - apply printable_cons in H. lia.
  - apply IH. apply printable_cons in H. tauto.
Qed.

Lemma firstn_exact {A} (l1 l2 : list A) n :
  length l1 = n -> firstn n (l1 ++ l2) = l1.
Proof.
  intros <-. rewrite firstn_app, Nat.sub_diag, firstn_all. cbn [firstn].
  apply app_nil_r.
Qed.

Section RoundTrip.
Variables public_mod public_exp priv_exp : Bignum.
Variable fuel : nat.
Hypothesis Hmod : canonical public_mod.
Hypothesis Hbig : 10 ^ 153 <= val public_mod.
Hypothesis Hexp : digits public_exp /\ public_exp <> [].
Hypothesis Hpriv : digits priv_exp /\ priv_exp <> [].
Hypothesis Hkey :
  forall m, 0 <= m < val public_mod ->
            ((m ^ val public_exp) mod val public_mod) ^ val priv_exp
              mod val public_mod = m.
Hypothesis Hfuel : (10 <= fuel)%nat.
Hypothesis Hfuel_e : (Z.to_nat (Z.log2 (val public_exp)) + 2 <= fuel)%nat.
Hypothesis Hfuel_d : (Z.to_nat (Z.log2 (val priv_exp)) + 2 <= fuel)%nat.

(** One half of a frame: encrypted, printed, read, decrypted and decoded,
    it comes back. *)
Lemma half_round_trip half :
  Forall (fun ch => 1 <= char_code ch) half -> half <> [] ->
  (length half <= 51)%nat ->
  exists cipher plain,
    mod_exponent fuel (string_to_bignum half) public_exp public_mod = Ret cipher /\
    mod_exponent fuel (Bignum_of_string (to_string cipher)) priv_exp public_mod
      = Ret plain /\
    bignum_to_string plain = Ret half.
Proof.
  intros Hall Hne Hlen.
  destruct (nonzero_codes_split half Hall Hne) as (c & rest & -> & Hc).
  pose proof (string_to_bignum_digits (c :: rest)) as Md.
  pose proof (val_bound _ Md) as Mb.
  assert (Mlt : val (string_to_bignum (c :: rest)) < val public_mod).
  { rewrite string_to_bignum_length in Mb.
    assert (10 ^ Z.of_nat (3 * length (c :: rest)) <= 10 ^ 153)
      by (apply Z.pow_le_mono_r; lia).
    lia. }
  assert (Hpos : 0 < val public_mod).
  { pose proof (pow10_pos 153 ltac:(lia)). lia. }
  assert (Hone : 1 < val public_mod).
  { assert (10 ^ 1 <= 10 ^ 153) by (apply Z.pow_le_mono_r; lia).
    change (10 ^ 1) with 10 in *. lia. }
  destruct Hexp as [He Hene]. destruct Hpriv as [Hd Hdne].
  destruct (mod_exponent_correct fuel _ public_exp public_mod Md He Hene Hmod Hpos
                                 (or_introl Hone) Hfuel Hfuel_e)
    as (cipher & C1 & (Cd & Cn & Cz) & C3).
  destruct (to_string_digits cipher Cd) as [_ Cs].
  destruct (mod_exponent_correct fuel cipher priv_exp public_mod Cd Hd Hdne Hmod Hpos
                                 (or_introl Hone) Hfuel Hfuel_d)
    as (plain & P1 & P2 & P3).
  exists cipher, plain. split; [assumption|]. rewrite Cs. split; [assumption|].
  apply decode_canonical; try assumption.
  rewrite P3, C3. apply Hkey. split; [apply Mb|apply Mlt].
Qed.
End RoundTrip.

Lemma frame_nonzero L :
  printable L ->
  Forall (fun ch => 1 <= char_code ch)
         (lit "  1" ++ L ++ repeat space (96 - length L) ++ lit "  1").
Proof.
  intros HL.
  apply Forall_app; split; [|apply Forall_app; split; [|apply Forall_app; split]].
  - repeat constructor; vm_compute; discriminate.
  - apply printable_nonzero. assumption.
  - apply Forall_forall. intros ch Hin. apply repeat_spec in Hin. subst ch.
    vm_compute. discriminate.
  - repeat constructor; vm_compute; discriminate.
Qed.

(** Encrypting a printable line of at most 96 characters and decrypting
    the pair gives the line without its trailing spaces. *)
Lemma encrypt_decrypt_strips
      (public_mod public_exp priv_exp : Bignum) (fuel : nat) (L : std_string) :
  canonical public_mod -> 10 ^ 153 <= val public_mod ->
  digits public_exp /\ public_exp <> [] ->
  digits priv_exp /\ priv_exp <> [] ->
  (forall m, 0 <= m < val public_mod ->
             ((m ^ val public_exp) mod val public_mod) ^ val priv_exp
               mod val public_mod = m) ->
  (10 <= fuel)%nat ->
  (Z.to_nat (Z.log2 (val public_exp)) + 2 <= fuel)%nat ->
  (Z.to_nat (Z.log2 (val priv_exp)) + 2 <= fuel)%nat ->
  printable L -> (length L <= 96)%nat ->
  exists first second,
    large_encrypt public_mod public_exp fuel (L ++ [newline]) = Ret [(first, second)] /\
    large_decrypt public_mod priv_exp fuel first second
      = Ret (strip_trailing_spaces L).
Proof.
  intros Hmod Hbig Hexp Hpriv Hkey Hf He Hd HL Hlen.
  set (frame := lit "  1" ++ L ++ repeat space (96 - length L) ++ lit "  1").
  assert (Hframe : length frame = 102%nat).
  { unfold frame. rewrite !length_app, repeat_length. cbn [lit list_ascii_of_string length]. lia. }
  assert (Hnz : Forall (fun ch => 1 <= char_code ch) (firstn 51 frame ++ skipn 51 frame))
    by (rewrite firstn_skipn; apply frame_nonzero; assumption).
  apply Forall_app in Hnz. destruct Hnz as [Hnz1 Hnz2].
  assert (Hl1 : length (firstn 51 frame) = 51%nat) by (rewrite length_firstn; lia).
  assert (Hl2 : length (skipn 51 frame) = 51%nat) by (rewrite length_skipn; lia).
  destruct (half_round_trip public_mod public_exp priv_exp fuel
                            Hmod Hbig Hexp Hpriv Hkey Hf He Hd (firstn 51 frame) Hnz1)
    as (c1 & p1 & E1 & D1 & B1); [intros H0; rewrite H0 in Hl1; discriminate|lia|].
  destruct (half_round_trip public_mod public_exp priv_exp fuel
                            Hmod Hbig Hexp Hpriv Hkey Hf He Hd (skipn 51 frame) Hnz2)
    as (c2 & p2 & E2 & D2 & B2); [intros H0; rewrite H0 in Hl2; discriminate|lia|].
  exists (to_string c1), (to_string c2). split.
  - apply large_encrypt_ret. unfold large_encrypt_body.
    rewrite (getlines_single L HL []). cbn [app spawn_loop].
    rewrite truncate_firstn, (firstn_all2 L) by assumption.
    rewrite (padding_frame L 1 Hlen (marker_length 1 ltac:(lia))).
    change (setw_setfill 3 space (int_to_string 1)) with (lit "  1"). fold frame.
    cbn [bind map get_all]. unfold encrypt_task, substr, substr_from.
    rewrite Hframe. cbn [Nat.ltb Nat.leb bind]. change (skipn 0 frame) with frame.
    rewrite E1. cbn [bind]. rewrite E2. reflexivity.
  - unfold large_decrypt. rewrite D1. cbn [bind in_thread]. rewrite D2. cbn [bind in_thread].
    rewrite B1. cbn [bind]. rewrite B2. cbn [bind].
    rewrite firstn_skipn, Hframe. unfold substr. rewrite Hframe.
    change (Z.to_nat (size_t_wrap (Z.of_nat 102 - 6))) with 96%nat.
    cbn [Nat.ltb Nat.leb bind in_thread]. f_equal.
    unfold frame. change (lit "  1") with [space; space; "1"%char] at 1.
    cbn [app skipn]. rewrite app_assoc, firstn_exact
      by (rewrite length_app, repeat_length; lia).
    apply strip_trailing_spaces_padded.
Qed.

(** The example key: a modulus of 154 digits, and exponents that undo each
    other. *)
Lemma demo_key :
  canonical demo_mod /\ 10 ^ 153 <= val demo_mod /\
  (forall m, 0 <= m < val demo_mod ->
             ((m ^ val [1]) mod val demo_mod) ^ val [1] mod val demo_mod = m).
Proof.
  split; [repeat split; discriminate|]. split; [vm_compute; discriminate|].
  intros m Hm. change (val [1]) with 1. rewrite !Z.pow_1_r.
  rewrite Z.mod_mod by (intros H; rewrite H in Hm; lia).
  apply Z.mod_small. assumption.
Qed.

(** C1 as stated fails on a line that ends with a space: whatever the key
    and the pair, [large_decrypt] returns no string that ends with a space;
    under the example key the line "a " comes back as "a". *)
Lemma trailing_space_lost :
  printable (lit "a ") /\ (length (lit "a ") <= 96)%nat /\
  (forall public_mod priv_exp fuel first second,
      large_decrypt public_mod priv_exp fuel first second <> Ret (lit "a ")) /\
  exists first second,
    large_encrypt demo_mod [1] 10 (lit "a " ++ [newline]) = Ret [(first, second)] /\
    large_decrypt demo_mod [1] 10 first second = Ret (lit "a").
Proof.
  split; [reflexivity|]. split; [cbn; lia|]. split.
  - intros public_mod priv_exp fuel first second H.
    apply large_decrypt_end in H. discriminate H.
  - change (lit "a") with (strip_trailing_spaces (lit "a ")).
    apply (encrypt_decrypt_strips demo_mod [1] [1] 10 (lit "a "));
      try apply demo_key; try (split; [reflexivity|discriminate]);
      try reflexivity; vm_compute; repeat constructor.
Qed.

(** ** One pair per line *)

(** *** The order of the pairs

    When the reading loop does not leave by an exception, the pairs are
    those of the lines, in the order of the lines, whatever the order in
    which the tasks complete. *)

Lemma store_length {A} (states : list (option A)) i x :
  length (store states i x) = length states.
Proof.
  revert i. induction states as [|s states IH]; intros [|i]; cbn [store length]; auto.
Qed.

Lemma nth_error_store {A} (states : list (option A)) i x j :
  nth_error (store states i x) j =
  if Nat.eqb j i then (if Nat.ltb i (length states) then Some (Some x) else None)
  else nth_error states j.
Proof.
  revert i j. induction states as [|s states IH]; intros i j.
  - destruct i, j; cbn [store nth_error length Nat.ltb Nat.leb];
      destruct (Nat.eqb _ _); reflexivity.
  - destruct i as [|i], j as [|j]; cbn [store nth_error]; try reflexivity.
    rewrite IH. reflexivity.
Qed.

Lemma fold_complete {A} (tasks : list (res A)) :
  forall schedule states,
    length states = length tasks ->
    length (fold_left (complete tasks) schedule states) = length tasks /\
    forall i,
      nth_error (fold_left (complete tasks) schedule states) i =
      if existsb (Nat.eqb i) schedule then option_map Some (nth_error tasks i)
      else nth_error states i.
Proof.
  induction schedule as [|a schedule IH]; intros states Hl.
  - cbn [fold_left existsb]. auto.
  - cbn [fold_left existsb].
    assert (Hl' : length (complete tasks states a) = length tasks).
    { unfold complete. destruct (nth_error tasks a); [rewrite store_length|]; assumption. }
    destruct (IH _ Hl') as [I1 I2]. split; [assumption|].
    intros i. rewrite I2. destruct (existsb (Nat.eqb i) schedule) eqn:E.
    + rewrite orb_true_r. reflexivity.
    + rewrite orb_false_r. unfold complete.
      destruct (Nat.eqb i a) eqn:Ei.
      * apply Nat.eqb_eq in Ei. subst i.
        destruct (nth_error tasks a) as [outcome|] eqn:Et; cbn [option_map].
        -- rewrite nth_error_store, Nat.eqb_refl.
           assert (a < length states)%nat
             by (rewrite Hl; apply nth_error_Some; congruence).
           replace (Nat.ltb a (length states)) with true
             by (symmetry; apply Nat.ltb_lt; assumption).
           reflexivity.
        -- apply nth_error_None. rewrite Hl. apply nth_error_None. assumption.
      * destruct (nth_error tasks a); [|reflexivity].
        rewrite nth_error_store, Ei. reflexivity.
Qed.

Lemma run_schedule_all {A} (tasks : list (res A)) schedule :
  (forall i, (i < length tasks)%nat -> In i schedule) ->
  run_schedule tasks schedule = map Some tasks.
Proof.
  intros Hall. unfold run_schedule.
  destruct (fold_complete tasks schedule (repeat None (length tasks))
                          (repeat_length _ _)) as [_ H].
  apply nth_error_ext. intros i. rewrite H, nth_error_map.
  destruct (existsb (Nat.eqb i) schedule) eqn:E; [reflexivity|].
  destruct (Nat.lt_ge_cases i (length tasks)) as [Hi|Hi].
  - exfalso. specialize (Hall i Hi).
    assert (existsb (Nat.eqb i) schedule = true); [|congruence].
    apply existsb_exists. exists i. split; [assumption|apply Nat.eqb_refl].
  - replace (nth_error tasks i) with (@None (res A))
      by (symmetry; apply nth_error_None; assumption).
    apply nth_error_None. rewrite repeat_length. assumption.
Qed.

Lemma get_states_some {A} (tasks : list (res A)) :
  get_states (map Some tasks) = get_all tasks.
Proof.
  unfold get_states. rewrite map_map. cbn [state_outcome]. rewrite map_id. reflexivity.
Qed.

Lemma spawn_loop_spec :
  forall lines line_num padded_lines,
    spawn_loop lines line_num = Ret padded_lines ->
    length padded_lines = length lines /\
    forall i line,
      nth_error lines i = Some line ->
      exists padded_line,
        nth_error padded_lines i = Some padded_line /\
        padding (firstn 96 line) (line_num + Z.of_nat i) = Ret padded_line.
Proof.
  induction lines as [|l lines IH]; intros line_num padded_lines H.
  - injection H as <-. split; [reflexivity|]. intros [|i] line; discriminate.
  - cbn [spawn_loop] in H. rewrite truncate_firstn in H.
    destruct (padding (firstn 96 l) line_num) as [p| | |] eqn:P; try discriminate.
    cbn [bind] in H.
    destruct (spawn_loop lines (line_num + 1)) as [more| | |] eqn:S; try discriminate.
    injection H as <-. destruct (IH _ _ S) as [I1 I2].
    split; [cbn [length]; lia|].
    intros [|i] line Hn; cbn [nth_error] in *.
    + injection Hn as <-. exists p. rewrite Z.add_0_r. auto.
    + destruct (I2 i line Hn) as (q & Q1 & Q2). exists q. split; [assumption|].
      rewrite <- Q2. f_equal. lia.
Qed.

Lemma get_all_spec {A} :
  forall (futures : list (res A)) results,
    get_all futures = Ret results ->
    length results = length futures /\
    forall i future,
      nth_error futures i = Some future ->
      exists pair, nth_error results i = Some pair /\ future = Ret pair.
Proof.
  induction futures as [|f futures IH]; intros results H.
  - injection H as <-. split; [reflexivity|]. intros [|i] future; discriminate.
  - cbn [get_all] in H. destruct f as [x| | |]; try discriminate. cbn [bind] in H.
    destruct (get_all futures) as [more| | |] eqn:G; try discriminate.
    injection H as <-. destruct (IH _ eq_refl) as [I1 I2].
    split; [cbn [length]; lia|].
    intros [|i] future Hn; cbn [nth_error] in *.
    + injection Hn as <-. exists x. auto.
    + apply I2. assumption.
Qed.

(** Whenever [large_encrypt] returns, it returns one pair per line, the
    pair at position [i] being the one computed from line [i] under the
    line number [i + 1]; and the result is the same for every order in which
    the tasks complete. *)
Lemma large_encrypt_in_order public_mod public_exp fuel text pairs :
  large_encrypt public_mod public_exp fuel text = Ret pairs ->
  length pairs = length (getlines text []) /\
  (forall i line,
      nth_error (getlines text []) i = Some line ->
      exists padded_line pair,
        padding (firstn 96 line) (1 + Z.of_nat i) = Ret padded_line /\
        encrypt_task public_mod public_exp fuel padded_line = Ret pair /\
        nth_error pairs i = Some pair) /\
  (forall schedule,
      (forall i, (i < length (getlines text []))%nat -> In i schedule) ->
      large_encrypt_scheduled public_mod public_exp schedule fuel text = Ret pairs).
Proof.
  intros H. apply large_encrypt_ret in H.
  unfold large_encrypt_body, large_encrypt_scheduled in *.
  destruct (spawn_loop (getlines text []) 1) as [padded_lines| | |] eqn:S;
    try discriminate.
  cbn [bind] in *. destruct (spawn_loop_spec _ _ _ S) as [S1 S2].
  destruct (get_all_spec _ _ H) as [G1 G2]. rewrite length_map in G1.
  split; [congruence|]. split.
  - intros i line Hn. destruct (S2 i line Hn) as (p & P1 & P2).
    destruct (G2 i (encrypt_task public_mod public_exp fuel p)) as (pair & R1 & R2).
    + rewrite nth_error_map, P1. reflexivity.
    + exists p, pair. auto.
  - intros schedule Hall. apply unwinding_ret.
    rewrite run_schedule_all, get_states_some; [assumption|].
    rewrite length_map, S1. assumption.
Qed.


(** * Further properties of the code *)

(** ** Multiplication *)

(** X1.  [operator*] on digit vectors (the first one not empty) returns the
    canonical vector of the product of the two values; leading zeros of
    the operands do not matter. *)
Theorem multiply_correct (a b : Bignum) :
  digits a -> digits b -> a <> [] ->
  canonical (multiply a b) /\ val (multiply a b) = val a * val b.
Proof.
  intros Ha Hb Hne. destruct (multiply_spec a b Ha Hb) as (H1 & H2 & H3 & H4).
  repeat split; auto.
Qed.

Lemma multiply_correct_witness :
  canonical (multiply [0; 9; 9] [9; 9]) /\
  val (multiply [0; 9; 9] [9; 9]) = val [0; 9; 9] * val [9; 9].
Proof.
  apply (multiply_correct [0; 9; 9] [9; 9]).
  - reflexivity.
  - reflexivity.
  - discriminate.
Defined.

Lemma multiply_canonical a b :
  canonical a -> canonical b ->
  canonical (multiply a b) /\ val (multiply a b) = val a * val b.
Proof.
  intros (Ha & Hna & _) (Hb & _ & _).
  destruct (multiply_spec a b Ha Hb) as (H1 & H2 & H3 & H4).
  repeat split; auto.
Qed.

(** X2.  On canonical vectors [operator*] is commutative and associative,
    [1] is neutral and [0] absorbing, as equalities of vectors. *)
Theorem multiply_laws (a b c : Bignum) :
  canonical a -> canonical b -> canonical c ->
  multiply a b = multiply b a /\
  multiply (multiply a b) c = multiply a (multiply b c) /\
  multiply a [1] = a /\ multiply [1] a = a /\
  multiply a [0] = [0] /\ multiply [0] a = [0].
Proof.
  intros Ha Hb Hc.
  destruct (multiply_canonical a b Ha Hb) as [Cab Vab].
  destruct (multiply_canonical b a Hb Ha) as [Cba Vba].
  destruct (multiply_canonical b c Hb Hc) as [Cbc Vbc].
  destruct (multiply_canonical _ c Cab Hc) as [Cabc Vabc].
  destruct (multiply_canonical a _ Ha Cbc) as [Cabc' Vabc'].
  destruct (multiply_canonical a [1] Ha canonical_one) as [Ca1 Va1].
  destruct (multiply_canonical [1] a canonical_one Ha) as [C1a V1a].
  destruct (multiply_canonical a [0] Ha canonical_zero) as [Ca0 Va0].
  destruct (multiply_canonical [0] a canonical_zero Ha) as [C0a V0a].
  change (val [1]) with 1 in *. change (val [0]) with 0 in *.
  repeat match goal with |- _ /\ _ => split end;
    apply canonical_val_inj;
    try assumption; try apply canonical_zero;
    change (val [0]) with 0; lia.
Qed.

Lemma multiply_laws_witness :
  multiply [1; 2] [3; 4] = multiply [3; 4] [1; 2] /\
  multiply (multiply [1; 2] [3; 4]) [5] = multiply [1; 2] (multiply [3; 4] [5]) /\
  multiply [1; 2] [1] = [1; 2] /\ multiply [1] [1; 2] = [1; 2] /\
  multiply [1; 2] [0] = [0] /\ multiply [0] [1; 2] = [0].
Proof.
  apply (multiply_laws [1; 2] [3; 4] [5]); repeat split; discriminate.
Defined.

(** ** Comparison *)

(** X3.  On canonical vectors [operator<], [operator>] and [operator==]
    are the order and the equality of the values. *)
Theorem compare_canonical (a b : Bignum) :
  canonical a -> canonical b ->
  (bignum_ltb a b = true <-> val a < val b) /\
  (bignum_gtb a b = true <-> val b < val a) /\
  (bignum_eqb a b = true <-> val a = val b).
Proof.
  intros Ha Hb.
  assert (L : forall x y, canonical x -> canonical y ->
                          (bignum_ltb x y = true <-> val x < val y)).
  { intros x y (Hx & Hnx & Zx) (Hy & Hny & Zy).
    rewrite (bignum_ltb_val x y Hx Hy Zx Zy (or_introl Hnx) Hny).
    apply Z.ltb_lt. }
  split; [apply L; assumption|]. split; [apply L; assumption|].
  rewrite bignum_eqb_eq. split; [intros ->; reflexivity|].
  apply canonical_val_inj; assumption.
Qed.

Lemma compare_canonical_witness :
  (bignum_ltb [9; 9] [1; 0; 0] = true <-> val [9; 9] < val [1; 0; 0]) /\
  (bignum_gtb [9; 9] [1; 0; 0] = true <-> val [1; 0; 0] < val [9; 9]) /\
  (bignum_eqb [9; 9] [1; 0; 0] = true <-> val [9; 9] = val [1; 0; 0]).
Proof.
  apply (compare_canonical [9; 9] [1; 0; 0]); repeat split; discriminate.
Defined.

(** X4.  The comparisons look at the vectors, not at the values: a vector
    and the same vector behind a leading zero (as the constructor builds it
    from a string such as "07") have one value, yet they are not [==], and
    the shorter one is [<] the longer one. *)
Theorem compare_leading_zero (a : Bignum) :
  val (0 :: a) = val a /\
  bignum_eqb a (0 :: a) = false /\
  bignum_ltb a (0 :: a) = true /\
  bignum_ltb (0 :: a) a = false.
Proof.
  split; [cbn [val]; lia|]. split.
  - destruct (bignum_eqb a (0 :: a)) eqn:E; [|reflexivity].
    apply bignum_eqb_eq in E. apply (f_equal (@length Z)) in E.
    cbn [length] in E. lia.
  - unfold bignum_ltb. cbn [length].
    replace (Nat.eqb (length a) (S (length a))) with false
      by (symmetry; apply Nat.eqb_neq; lia).
    replace (Nat.eqb (S (length a)) (length a)) with false
      by (symmetry; apply Nat.eqb_neq; lia).
    cbn [negb]. split; [apply Nat.ltb_lt; lia|apply Nat.ltb_ge; lia].
Qed.

(** ** Subtraction below zero *)

(** X5.  [operator-] with [a < b] neither fails nor goes negative: the
    last borrow is dropped, and the result is the trimmed vector of
    [a - b + 10 ^ max(size a, size b)]. *)
Theorem subtract_underflow (a b : Bignum) :
  digits a -> digits b -> val a < val b ->
  digits (subtract a b) /\
  no_leading_zero (subtract a b) = true /\
  val (subtract a b) =
    val a - val b + 10 ^ Z.of_nat (Nat.max (length a) (length b)).
Proof.
  intros Ha Hb Hlt. unfold subtract.
  set (m := Nat.max (length a) (length b)).
  destruct (subtract_loop_spec a b m Ha Hb ltac:(lia) ltac:(lia)
              m (Z.of_nat (length a) - 1) (Z.of_nat (length b) - 1) 0 (repeat 0 m))
    as (Hl & Hd & borrow & Hbor & Hv).
  - apply repeat_length.
  - lia.
  - rewrite Nat.sub_diag. lia.
  - rewrite Nat.sub_diag. lia.
  - left; reflexivity.
  - apply digits_skipn, digits_repeat0.
  - rewrite Nat.sub_diag.
    rewrite (@skipn_all2 Z _ (repeat 0 m)) by (rewrite repeat_length; lia).
    replace (Z.to_nat (Z.of_nat (length a) - 1 + 1)) with (length a) by lia.
    replace (Z.to_nat (Z.of_nat (length b) - 1 + 1)) with (length b) by lia.
    rewrite !skipn_all. reflexivity.
  - split; [apply remove_excess_digits; assumption|].
    split; [apply remove_excess_no_leading_zero|].
    rewrite remove_excess_val, Hv.
    match type of Hd with digits ?r => pose proof (val_bound r Hd) as Br end.
    rewrite Hl in Br.
    destruct Hbor as [->| ->]; lia.
Qed.

Lemma subtract_underflow_witness :
  digits (subtract [1] [1; 0; 0]) /\
  no_leading_zero (subtract [1] [1; 0; 0]) = true /\
  val (subtract [1] [1; 0; 0]) =
    val [1] - val [1; 0; 0] + 10 ^ Z.of_nat (Nat.max (length [1]) (length [1; 0; 0])).
Proof.
  apply (subtract_underflow [1] [1; 0; 0]).
  - reflexivity.
  - reflexivity.
  - vm_compute. reflexivity.
Defined.

(** ** Division *)

(** X6.  Dividing a product by one of its non-zero factors gives the other
    factor back, with remainder zero, as vectors. *)
Theorem divide_multiply (fuel : nat) (a b : Bignum) :
  canonical a -> canonical b -> val b <> 0 -> (10 <= fuel)%nat ->
  divide fuel (multiply a b) b = Ret a /\
  modulo fuel (multiply a b) b = Ret [0].
Proof.
  intros Ha Hb Hnz Hfuel.
  assert (Hpos : 0 < val b).
  { destruct Hb as (Hd & _). pose proof (val_bound b Hd). lia. }
  destruct (multiply_canonical a b Ha Hb) as [(Pd & _ & _) Pv].
  destruct (divide_spec b Hb Hpos fuel _ Hfuel Pd) as (q & Q1 & Q2 & Q3).
  destruct (modulo_spec b Hb Hpos fuel _ Hfuel Pd) as (r & R1 & R2 & R3).
  rewrite Q1, R1. split; f_equal.
  - apply canonical_val_inj; [assumption|assumption|].
    rewrite Q3, Pv. apply Z.div_mul. assumption.
  - apply canonical_val_inj; [assumption|apply canonical_zero|].
    rewrite R3, Pv. change (val [0]) with 0. apply Z.mod_mul. assumption.
Qed.

Lemma divide_multiply_witness :
  divide 10 (multiply [1; 2] [3; 4]) [3; 4] = Ret [1; 2] /\
  modulo 10 (multiply [1; 2] [3; 4]) [3; 4] = Ret [0].
Proof.
  apply (divide_multiply 10 [1; 2] [3; 4]).
  - repeat split. discriminate.
  - repeat split. discriminate.
  - vm_compute. discriminate.
  - apply Nat.le_refl.
Defined.

(** X7.  Leading zeros of the dividend do not matter to [operator/] and
    [operator%] (the encoded text blocks that [mod_exponent] reduces start
    with such zeros); the empty dividend is read as zero. *)
Theorem divide_leading_zeros (fuel k : nat) (a b : Bignum) :
  digits a -> canonical b -> val b <> 0 -> (10 <= fuel)%nat ->
  divide fuel (repeat 0 k ++ a) b = divide fuel a b /\
  modulo fuel (repeat 0 k ++ a) b = modulo fuel a b /\
  exists q r, divide fuel a b = Ret q /\ modulo fuel a b = Ret r /\
              canonical q /\ canonical r /\
              val q = val a / val b /\ val r = val a mod val b.
Proof.
  intros Ha Hb Hnz Hfuel.
  assert (Hpos : 0 < val b).
  { destruct Hb as (Hd & _). pose proof (val_bound b Hd). lia. }
  assert (Hza : digits (repeat 0 k ++ a))
    by (apply digits_app; split; [apply digits_repeat0|assumption]).
  assert (Hv : val (repeat 0 k ++ a) = val a)
    by (rewrite val_app, val_repeat0; lia).
  destruct (divide_spec b Hb Hpos fuel a Hfuel Ha) as (q & Q1 & Q2 & Q3).
  destruct (modulo_spec b Hb Hpos fuel a Hfuel Ha) as (r & R1 & R2 & R3).
  destruct (divide_spec b Hb Hpos fuel _ Hfuel Hza) as (q' & Q1' & Q2' & Q3').
  destruct (modulo_spec b Hb Hpos fuel _ Hfuel Hza) as (r' & R1' & R2' & R3').
  rewrite Q1, R1, Q1', R1'. split; [|split].
  - f_equal. apply canonical_val_inj; auto. congruence.
  - f_equal. apply canonical_val_inj; auto. congruence.
  - exists q, r. auto 10.
Qed.

Lemma divide_leading_zeros_witness :
  divide 10 (repeat 0 2 ++ [1; 0; 0]) [7] = divide 10 [1; 0; 0] [7] /\
  modulo 10 (repeat 0 2 ++ [1; 0; 0]) [7] = modulo 10 [1; 0; 0] [7] /\
  exists q r, divide 10 [1; 0; 0] [7] = Ret q /\ modulo 10 [1; 0; 0] [7] = Ret r /\
              canonical q /\ canonical r /\
              val q = val [1; 0; 0] / val [7] /\ val r = val [1; 0; 0] mod val [7].
Proof.
  apply (divide_leading_zeros 10 2 [1; 0; 0] [7]).
  - reflexivity.
  - repeat split. discriminate.
  - vm_compute. discriminate.
  - apply Nat.le_refl.
Defined.

Lemma strip_zeros_length v : (length (strip_zeros v) <= length v)%nat.
Proof.
  induction v as [|d v IH]; [apply Nat.le_refl|].
  cbn [strip_zeros]. destruct (d =? 0); cbn [length]; lia.
Qed.

Lemma divide_for_longer_divisor fuel other :
  (1 <= fuel)%nat ->
  forall ds quo rem,
    (length rem + length ds < length other)%nat ->
    divide_for fuel ds other quo rem = Ret (quo ++ repeat 0 (length ds)).
Proof.
  intros Hfuel. induction ds as [|d ds IH]; intros quo rem Hl.
  - cbn [divide_for length repeat]. rewrite app_nil_r. reflexivity.
  - cbn [divide_for length] in *.
    pose proof (strip_zeros_length (rem ++ [d])) as Hs.
    rewrite length_app in Hs. cbn [length] in Hs.
    destruct fuel as [|fuel']; [lia|]. cbn [divide_while].
    unfold bignum_ltb at 1.
    replace (Nat.eqb (length (strip_zeros (rem ++ [d]))) (length other)) with false
      by (symmetry; apply Nat.eqb_neq; lia).
    replace (Nat.ltb (length (strip_zeros (rem ++ [d]))) (length other)) with true
      by (symmetry; apply Nat.ltb_lt; lia).
    cbn [negb bind]. rewrite IH by lia.
    rewrite <- app_assoc. reflexivity.
Qed.

(** X8.  A leading zero in the divisor breaks the division: the running
    remainder is compared with the divisor by size first, so a dividend
    with no more digits than the divisor has behind its zero always gets
    the quotient [0] and itself as remainder, whatever the two values. *)
Theorem divide_zero_led_divisor (fuel : nat) (a b : Bignum) :
  digits a -> a <> [] -> digits b ->
  (length a <= length b)%nat -> (1 <= fuel)%nat ->
  divide fuel a (0 :: b) = Ret [0] /\
  modulo fuel a (0 :: b) = Ret (remove_excess a).
Proof.
  intros Ha Hne Hb Hl Hfuel.
  assert (Hq : divide fuel a (0 :: b) = Ret [0]).
  { unfold divide. rewrite (divide_for_longer_divisor fuel (0 :: b) Hfuel a [0] [])
      by (cbn [length]; lia).
    cbn [bind]. change ([0] ++ repeat 0 (length a)) with (repeat 0 (S (length a))).
    rewrite remove_excess_zeros. reflexivity. }
  split; [assumption|]. unfold modulo. rewrite Hq. cbn [bind]. f_equal.
  assert (Hzb : digits (0 :: b)) by (apply digits_cons; split; [lia|assumption]).
  destruct (multiply_spec [0] (0 :: b) eq_refl Hzb) as (M1 & M2 & M3 & M4).
  change (val [0]) with 0 in M3.
  destruct (subtract_canonical a (multiply [0] (0 :: b)) Ha M1 ltac:(pose proof (val_bound a Ha); lia)
                               (or_introl Hne)) as [S1 S2].
  apply canonical_val_inj; [assumption|apply remove_excess_canonical; assumption|].
  rewrite S2, M3, remove_excess_val. lia.
Qed.

Lemma divide_zero_led_divisor_witness :
  divide 10 [9] [0; 7] = Ret [0] /\
  modulo 10 [9] [0; 7] = Ret (remove_excess [9]).
Proof.
  apply (divide_zero_led_divisor 10 [9] [7]).
  - reflexivity.
  - discriminate.
  - reflexivity.
  - apply Nat.le_refl.
  - repeat constructor.
Defined.

(** ** Modular exponentiation *)

(** X9.  For every digit vector as base, every non-empty digit vector as
    exponent and every canonical non-zero modulus, [mod_exponent] returns
    (once the fuel covers [log2 exponent + 2] rounds) the canonical vector
    of [base ^ exponent mod modulus]; the one exception is the exponent of
    value zero, for which the result is [1] also under the modulus one.
    For a modulus above one the result is below the modulus. *)
Theorem mod_exponent_power (fuel : nat) (base exponent modulus : Bignum) :
  digits base -> digits exponent -> exponent <> [] ->
  canonical modulus -> val modulus <> 0 ->
  (10 <= fuel)%nat -> (Z.to_nat (Z.log2 (val exponent)) + 2 <= fuel)%nat ->
  exists r,
    mod_exponent fuel base exponent modulus = Ret r /\ canonical r /\
    (val exponent = 0 -> r = [1]) /\
    (val exponent <> 0 \/ 1 < val modulus ->
     val r = (val base ^ val exponent) mod val modulus /\ val r < val modulus).
Proof.
  intros Hb He Hne Hm Hnz Hf1 Hf2.
  assert (Hpos : 0 < val modulus).
  { destruct Hm as (Hd & _). pose proof (val_bound modulus Hd). lia. }
  destruct (mod_exponent_spec fuel base exponent modulus Hb He Hne Hm Hpos Hf1 Hf2)
    as (r & R1 & R2 & R3).
  exists r. split; [assumption|]. split; [assumption|]. split.
  - intros H0. rewrite H0 in R3. cbn [Z.eqb] in R3.
    apply canonical_val_inj; [assumption|apply canonical_one|assumption].
  - intros Hcase.
    assert (Hr : val r = (val base ^ val exponent) mod val modulus).
    { rewrite R3. destruct (val exponent =? 0) eqn:E; [|reflexivity].
      apply Z.eqb_eq in E. rewrite E, Z.pow_0_r.
      symmetry. apply Z.mod_small. lia. }
    split; [assumption|]. rewrite Hr. apply Z.mod_pos_bound. assumption.
Qed.

Lemma mod_exponent_power_witness :
  exists r,
    mod_exponent 10 [0; 4] [1; 3] [4; 9; 7] = Ret r /\ canonical r /\
    (val [1; 3] = 0 -> r = [1]) /\
    (val [1; 3] <> 0 \/ 1 < val [4; 9; 7] ->
     val r = (val [0; 4] ^ val [1; 3]) mod val [4; 9; 7] /\ val r < val [4; 9; 7]).
Proof.
  apply (mod_exponent_power 10 [0; 4] [1; 3] [4; 9; 7]).
  - reflexivity.
  - reflexivity.
  - discriminate.
  - repeat split. discriminate.
  - vm_compute. discriminate.
  - apply Nat.le_refl.
  - vm_compute. repeat constructor.
Defined.

(** ** Vectors and their text *)

Lemma digit_char_text c :
  is_digit_char c = true -> int_to_string (char_code c - 48) = [c].
Proof.
  unfold is_digit_char. intros H. apply andb_true_iff in H.
  destruct H as [H1 H2]. apply Z.leb_le in H1. apply Z.leb_le in H2.
  destruct (int_to_string_digit (char_code c - 48) ltac:(lia)) as (ch & E & _ & C).
  rewrite E. f_equal. rewrite C.
  replace (48 + (char_code c - 48)) with (char_code c) by lia.
  apply char_of_int_code.
Qed.

Lemma to_string_digit_string v : digits v -> digit_string (to_string v).
Proof.
  unfold digit_string.
  induction v as [|d v IH]; intros H; [reflexivity|].
  apply digits_cons in H. destruct H as [Hd Hv].
  destruct (int_to_string_digit d Hd) as (ch & E & C & _).
  unfold to_string in *. cbn [flat_map]. rewrite E. cbn [app forallb].
  rewrite (IH Hv), andb_true_r. unfold is_digit_char.
  apply andb_true_iff. split; apply Z.leb_le; lia.
Qed.

(** X10.  [to_string] and the constructor undo each other: a vector of
    digits is read back from its text, and a string of digit characters is
    printed back from its vector, leading zeros included. *)
Theorem text_round_trip (v : Bignum) (s : std_string) :
  digits v -> digit_string s ->
  Bignum_of_string (to_string v) = v /\
  length (to_string v) = length v /\
  digit_string (to_string v) /\
  to_string (Bignum_of_string s) = s /\
  digits (Bignum_of_string s).
Proof.
  intros Hv Hs. destruct (to_string_digits v Hv) as [H1 H2].
  split; [assumption|]. split; [assumption|].
  split; [apply to_string_digit_string; assumption|].
  unfold digit_string in Hs.
  induction s as [|c s IH]; [split; reflexivity|].
  cbn [forallb] in Hs. apply andb_true_iff in Hs. destruct Hs as [Hc Hs].
  destruct (IH Hs) as [I1 I2].
  pose proof Hc as Hr. unfold is_digit_char in Hr. apply andb_true_iff in Hr.
  destruct Hr as [C1 C2]. apply Z.leb_le in C1. apply Z.leb_le in C2.
  unfold to_string, Bignum_of_string in *. cbn [map flat_map].
  rewrite (plain_char_code c) by lia.
  rewrite (digit_char_text c Hc), I1. split; [reflexivity|].
  apply digits_cons. split; [|assumption]. lia.
Qed.

Lemma text_round_trip_witness :
  Bignum_of_string (to_string [0; 4; 2]) = [0; 4; 2] /\
  length (to_string [0; 4; 2]) = length [0; 4; 2] /\
  digit_string (to_string [0; 4; 2]) /\
  to_string (Bignum_of_string (lit "007")) = lit "007" /\
  digits (Bignum_of_string (lit "007")).
Proof.
  apply (text_round_trip [0; 4; 2] (lit "007")); reflexivity.
Defined.

Lemma string_to_bignum_app s t :
  string_to_bignum (s ++ t) = string_to_bignum s ++ string_to_bignum t.
Proof.
  induction s as [|c s IH]; [reflexivity|].
  cbn [app]. rewrite string_to_bignum_cons, IH, (string_to_bignum_cons c s).
  apply app_assoc.
Qed.

Lemma string_to_bignum_nuls k : val (string_to_bignum (repeat nul k)) = 0.
Proof.
  induction k as [|k IH]; [reflexivity|].
  cbn [repeat]. rewrite string_to_bignum_val, IH. reflexivity.
Qed.

(** X11.  Decoding survives the trim of a modular result: the zeros that
    [remove_excess] takes from the front of an encoded text are put back by
    the padding of [bignum_to_string], so a text whose first character is
    not the character of code 0 is decoded unchanged; characters of code 0
    in front of it are lost. *)
Theorem decode_after_trim (k : nat) (c : ascii) (rest : std_string) :
  1 <= char_code c ->
  bignum_to_string (remove_excess (string_to_bignum (repeat nul k ++ c :: rest)))
  = Ret (c :: rest).
Proof.
  intros Hc. apply decode_canonical; [|assumption|].
  - apply remove_excess_canonical; [apply string_to_bignum_digits|].
    intros H. apply (f_equal (@length Z)) in H.
    rewrite string_to_bignum_length, length_app in H. cbn [length] in H. lia.
  - rewrite remove_excess_val, string_to_bignum_app, val_app, string_to_bignum_nuls.
    lia.
Qed.

Lemma decode_after_trim_witness :
  bignum_to_string (remove_excess (string_to_bignum (repeat nul 2 ++ " "%char :: lit "a")))
  = Ret (" "%char :: lit "a").
Proof.
  apply (decode_after_trim 2 " "%char (lit "a")). vm_compute. discriminate.
Defined.

(** ** The frame outside the protocol's bounds *)

(** X12.  [padding] works for at most 96 characters: under a line number
    of up to three digits a longer input makes the count of padding spaces
    wrap around below zero, and [append] throws [length_error].  (So the
    truncation in [large_encrypt] is what keeps [padding] from throwing.) *)
Theorem padding_too_long (input : std_string) (line_num : Z) :
  0 <= line_num <= 999 -> (96 < length input)%nat ->
  Z.of_nat (length input) < 2 ^ 63 ->
  padding input line_num = Throw length_error.
Proof.
  intros Hn Hl Hmax. unfold padding, append_fill.
  rewrite length_app, (marker_length line_num Hn).
  unfold size_t_wrap, string_max_size.
  rewrite Zminus_mod_idemp_l.
  set (n := Z.of_nat (3 + length input)).
  assert (Hn3 : 99 < n < 2 ^ 63 + 3) by (unfold n; lia).
  replace (102 - n - 3) with (2 ^ 64 + 99 - n + (-1) * 2 ^ 64) by ring.
  rewrite Z_mod_plus_full, Z.mod_small by lia.
  replace (2 ^ 63 - 1 - n <? 2 ^ 64 + 99 - n) with true
    by (symmetry; apply Z.ltb_lt; lia).
  reflexivity.
Qed.

Lemma padding_too_long_witness : padding (repeat "a"%char 97) 7 = Throw length_error.
Proof.
  apply (padding_too_long (repeat "a"%char 97) 7).
  - lia.
  - vm_compute. repeat constructor.
  - vm_compute. reflexivity.
Defined.

Lemma int_to_string_length4 n :
  1000 <= n <= 9999 -> length (int_to_string n) = 4%nat.
Proof.
  intros H. unfold int_to_string.
  replace (n <? 0) with false by (symmetry; apply Z.ltb_ge; lia).
  cbn [decimal_loop].
  assert (H1 : 100 <= n / 10 <= 999).
  { split; [apply Z.div_le_lower_bound; lia|].
    assert (n / 10 < 1000); [apply Z.div_lt_upper_bound; lia|lia]. }
  assert (H2 : 10 <= n / 10 / 10 <= 99).
  { split; [apply Z.div_le_lower_bound; lia|].
    assert (n / 10 / 10 < 100); [apply Z.div_lt_upper_bound; lia|lia]. }
  assert (H3 : 1 <= n / 10 / 10 / 10 <= 9).
  { split; [apply Z.div_le_lower_bound; lia|].
    assert (n / 10 / 10 / 10 < 10); [apply Z.div_lt_upper_bound; lia|lia]. }
  replace (n <? 10) with false by (symmetry; apply Z.ltb_ge; lia).
  replace (n / 10 <? 10) with false by (symmetry; apply Z.ltb_ge; lia).
  replace (n / 10 / 10 <? 10) with false by (symmetry; apply Z.ltb_ge; lia).
  replace (n / 10 / 10 / 10 <? 10) with true by (symmetry; apply Z.ltb_lt; lia).
  reflexivity.
Qed.

(** X13.  From line 1000 on the frame is no longer the frame of the
    protocol: the line number takes four characters at both ends while the
    padding still counts on three, so a content of up to 95 characters
    gives a frame of 103 characters (halves of 51 and 52), and a content of
    96 characters makes [padding] throw [length_error]. *)
Theorem padding_four_digit_line_number (input : std_string) (line_num : Z) :
  1000 <= line_num <= 9999 -> (length input <= 96)%nat ->
  ((length input <= 95)%nat ->
   padding input line_num =
     Ret (int_to_string line_num ++ input
          ++ repeat space (95 - length input) ++ int_to_string line_num) /\
   length (int_to_string line_num ++ input
           ++ repeat space (95 - length input) ++ int_to_string line_num) = 103%nat) /\
  (length input = 96%nat -> padding input line_num = Throw length_error).
Proof.
  intros Hn Hl. pose proof (int_to_string_length4 line_num Hn) as H4.
  assert (Hm : setw_setfill 3 space (int_to_string line_num) = int_to_string line_num).
  { unfold setw_setfill. rewrite H4. reflexivity. }
  unfold padding, append_fill. rewrite Hm, length_app, H4.
  unfold size_t_wrap, string_max_size. rewrite Zminus_mod_idemp_l.
  split.
  - intros H95. rewrite Z.mod_small by lia.
    replace (2 ^ 63 - 1 - Z.of_nat (4 + length input) <?
             102 - Z.of_nat (4 + length input) - 3) with false
      by (symmetry; apply Z.ltb_ge; lia).
    cbn [bind]. split.
    + f_equal. rewrite <- !app_assoc. do 2 f_equal. f_equal. f_equal. lia.
    + rewrite !length_app, repeat_length, H4. lia.
  - intros H96. rewrite H96.
    replace (102 - Z.of_nat (4 + 96) - 3) with (-1) by lia.
    reflexivity.
Qed.

Lemma padding_four_digit_line_number_witness :
  ((length (lit "A") <= 95)%nat ->
   padding (lit "A") 1000 =
     Ret (int_to_string 1000 ++ lit "A"
          ++ repeat space (95 - length (lit "A")) ++ int_to_string 1000) /\
   length (int_to_string 1000 ++ lit "A"
           ++ repeat space (95 - length (lit "A")) ++ int_to_string 1000) = 103%nat) /\
  (length (lit "A") = 96%nat -> padding (lit "A") 1000 = Throw length_error).
Proof.
  apply (padding_four_digit_line_number (lit "A") 1000).
  - lia.
  - vm_compute. repeat constructor.
Defined.

(** ** Decryption *)

(** X14.  Whatever the key and the two strings, a string that
    [large_decrypt] returns does not end with a space. *)
Theorem large_decrypt_no_trailing_space
        (public_mod priv_exp : Bignum) (fuel : nat) (first second s : std_string) :
  large_decrypt public_mod priv_exp fuel first second = Ret s ->
  ends_with_space s = false.
Proof. apply large_decrypt_end. Qed.

Lemma large_decrypt_no_trailing_space_witness :
  ends_with_space (lit "a") = false.
Proof.
  apply (large_decrypt_no_trailing_space
           (1 :: repeat 0 20) [1] 10
           (lit "65066067") (lit "97032032088089090")).
  vm_compute. reflexivity.
Defined.

(** ** Texts of several lines *)

Lemma char_of_int_digit_code z : char_code (char_of_int (48 + z mod 10)) = 48 + z mod 10.
Proof.
  pose proof (Z.mod_pos_bound z 10 ltac:(lia)) as H.
  unfold char_of_int, char_code.
  rewrite Z.mod_small by lia.
  rewrite N_ascii_embedding by lia. lia.
Qed.

Lemma decimal_loop_codes n :
  forall z acc,
    Forall (fun ch => 1 <= char_code ch) acc ->
    Forall (fun ch => 1 <= char_code ch) (decimal_loop n z acc).
Proof.
  induction n as [|n IH]; intros z acc H; cbn [decimal_loop]; [assumption|].
  assert (H' : Forall (fun ch => 1 <= char_code ch) (char_of_int (48 + z mod 10) :: acc)).
  { constructor; [|assumption]. rewrite char_of_int_digit_code.
    pose proof (Z.mod_pos_bound z 10 ltac:(lia)). lia. }
  destruct (z <? 10); [assumption|]. apply IH. assumption.
Qed.

Lemma marker_codes line_num :
  Forall (fun ch => 1 <= char_code ch)
         (setw_setfill 3 space (int_to_string line_num)).
Proof.
  unfold setw_setfill. apply Forall_app. split.
  - apply Forall_forall. intros ch Hin. apply repeat_spec in Hin. subst ch.
    vm_compute. discriminate.
  - unfold int_to_string. destruct (line_num <? 0).
    + constructor; [vm_compute; discriminate|].
      apply decimal_loop_codes. constructor.
    + apply decimal_loop_codes. constructor.
Qed.

Lemma printable_firstn n line : printable line -> printable (firstn n line).
Proof.
  revert n. induction line as [|c line IH]; intros [|n] H; try reflexivity.
  apply printable_cons in H. cbn [firstn]. apply printable_cons.
  split; [tauto|]. apply IH. tauto.
Qed.

Section Lines.
Variables public_mod public_exp priv_exp : Bignum.
Variable fuel : nat.
Hypothesis Hmod : canonical public_mod.
Hypothesis Hbig : 10 ^ 153 <= val public_mod.
Hypothesis Hexp : digits public_exp /\ public_exp <> [].
Hypothesis Hpriv : digits priv_exp /\ priv_exp <> [].
Hypothesis Hkey :
  forall m, 0 <= m < val public_mod ->
            ((m ^ val public_exp) mod val public_mod) ^ val priv_exp
              mod val public_mod = m.
Hypothesis Hfuel : (10 <= fuel)%nat.
Hypothesis Hfuel_e : (Z.to_nat (Z.log2 (val public_exp)) + 2 <= fuel)%nat.
Hypothesis Hfuel_d : (Z.to_nat (Z.log2 (val priv_exp)) + 2 <= fuel)%nat.

Lemma half_cipher_digits half cipher :
  mod_exponent fuel (string_to_bignum half) public_exp public_mod = Ret cipher ->
  digit_string (to_string cipher).
Proof.
  intros H. destruct Hexp as [He Hene].
  assert (Hpos : 0 < val public_mod).
  { pose proof (pow10_pos 153 ltac:(lia)). lia. }
  destruct (mod_exponent_spec fuel (string_to_bignum half) public_exp public_mod
              (string_to_bignum_digits half) He Hene Hmod Hpos Hfuel Hfuel_e)
    as (r & R1 & (Rd & _) & _).
  rewrite H in R1. injection R1 as ->.
  apply to_string_digit_string. assumption.
Qed.

(** The frame of one line under a line number of three characters: its
    task returns a pair of digit strings that decrypts to the content
    without its trailing spaces. *)
Lemma frame_round_trip line_num line :
  0 <= line_num <= 999 -> printable line ->
  exists padded_line pair,
    padding (firstn 96 line) line_num = Ret padded_line /\
    encrypt_task public_mod public_exp fuel padded_line = Ret pair /\
    decrypts_to public_mod priv_exp fuel line pair.
Proof.
  intros Hn HL.
  set (content := firstn 96 line).
  set (marker := setw_setfill 3 space (int_to_string line_num)).
  assert (Hc : (length content <= 96)%nat) by apply firstn_le_length.
  assert (Hm : length marker = 3%nat) by (apply marker_length; assumption).
  set (frame := marker ++ content ++ repeat space (96 - length content) ++ marker).
  assert (Hframe : length frame = 102%nat).
  { unfold frame. rewrite !length_app, repeat_length, Hm. lia. }
  assert (Hnz : Forall (fun ch => 1 <= char_code ch) (firstn 51 frame ++ skipn 51 frame)).
  { rewrite firstn_skipn. unfold frame.
    apply Forall_app; split; [apply marker_codes|].
    apply Forall_app; split; [apply printable_nonzero, printable_firstn; assumption|].
    apply Forall_app; split; [|apply marker_codes].
    apply Forall_forall. intros ch Hin. apply repeat_spec in Hin. subst ch.
    vm_compute. discriminate. }
  apply Forall_app in Hnz. destruct Hnz as [Hnz1 Hnz2].
  assert (Hl1 : length (firstn 51 frame) = 51%nat) by (rewrite length_firstn; lia).
  assert (Hl2 : length (skipn 51 frame) = 51%nat) by (rewrite length_skipn; lia).
  destruct (half_round_trip public_mod public_exp priv_exp fuel
                            Hmod Hbig Hexp Hpriv Hkey Hfuel Hfuel_e Hfuel_d
                            (firstn 51 frame) Hnz1)
    as (c1 & p1 & E1 & D1 & B1); [intros H0; rewrite H0 in Hl1; discriminate|lia|].
  destruct (half_round_trip public_mod public_exp priv_exp fuel
                            Hmod Hbig Hexp Hpriv Hkey Hfuel Hfuel_e Hfuel_d
                            (skipn 51 frame) Hnz2)
    as (c2 & p2 & E2 & D2 & B2); [intros H0; rewrite H0 in Hl2; discriminate|lia|].
  exists frame, (to_string c1, to_string c2).
  split; [apply padding_frame; assumption|]. split.
  - unfold encrypt_task, substr, substr_from.
    rewrite Hframe. cbn [Nat.ltb Nat.leb bind]. change (skipn 0 frame) with frame.
    rewrite E1. cbn [bind]. rewrite E2. reflexivity.
  - unfold decrypts_to. cbn [fst snd].
    split; [apply (half_cipher_digits _ _ E1)|].
    split; [apply (half_cipher_digits _ _ E2)|].
    unfold large_decrypt. rewrite D1. cbn [bind in_thread]. rewrite D2. cbn [bind in_thread].
    rewrite B1. cbn [bind]. rewrite B2. cbn [bind].
    rewrite firstn_skipn, Hframe. unfold substr. rewrite Hframe.
    change (Z.to_nat (size_t_wrap (Z.of_nat 102 - 6))) with 96%nat.
    cbn [Nat.ltb Nat.leb bind in_thread]. f_equal.
    unfold frame. rewrite skipn_app, Hm, Nat.sub_diag.
    rewrite (@skipn_all2 ascii _ marker) by lia. cbn [skipn app].
    rewrite app_assoc, firstn_exact by (rewrite length_app, repeat_length; lia).
    apply strip_trailing_spaces_padded.
Qed.

Lemma encrypt_lines :
  forall lines line_num,
    1 <= line_num -> line_num + Z.of_nat (length lines) <= 1000 ->
    Forall printable lines ->
    exists padded_lines pairs,
      spawn_loop lines line_num = Ret padded_lines /\
      get_all (map (encrypt_task public_mod public_exp fuel) padded_lines) = Ret pairs /\
      Forall2 (decrypts_to public_mod priv_exp fuel) lines pairs.
Proof.
  induction lines as [|line lines IH]; intros line_num Hn Hl HP.
  - exists [], []. repeat split. constructor.
  - cbn [length] in Hl. inversion HP as [|? ? Hline Hrest]; subst.
    destruct (frame_round_trip line_num line ltac:(lia) Hline)
      as (padded_line & pair & P & T & D).
    destruct (IH (line_num + 1) ltac:(lia) ltac:(lia) Hrest)
      as (more & pairs & S & G & F).
    exists (padded_line :: more), (pair :: pairs).
    cbn [spawn_loop]. rewrite truncate_firstn, P. cbn [bind]. rewrite S. cbn [bind].
    split; [reflexivity|]. cbn [map get_all]. rewrite T. cbn [bind]. rewrite G.
    split; [reflexivity|]. constructor; assumption.
Qed.
End Lines.

(** X16.  Under a key whose modulus is at least [10 ^ 153] and whose
    private exponent undoes the public one, a text of at most 999 printable
    lines is encrypted into one pair of digit strings per line, and the
    pair of every line decrypts to that line, cut to its first 96
    characters and without its trailing spaces. *)
Theorem lines_round_trip
        (public_mod public_exp priv_exp : Bignum) (fuel : nat) (text : std_string) :
  canonical public_mod -> 10 ^ 153 <= val public_mod ->
  digits public_exp /\ public_exp <> [] ->
  digits priv_exp /\ priv_exp <> [] ->
  (forall m, 0 <= m < val public_mod ->
             ((m ^ val public_exp) mod val public_mod) ^ val priv_exp
               mod val public_mod = m) ->
  (10 <= fuel)%nat ->
  (Z.to_nat (Z.log2 (val public_exp)) + 2 <= fuel)%nat ->
  (Z.to_nat (Z.log2 (val priv_exp)) + 2 <= fuel)%nat ->
  Forall printable (getlines text []) ->
  (length (getlines text []) <= 999)%nat ->
  exists pairs,
    large_encrypt public_mod public_exp fuel text = Ret pairs /\
    Forall2 (decrypts_to public_mod priv_exp fuel) (getlines text []) pairs.
Proof.
  intros Hmod Hbig Hexp Hpriv Hkey Hf He Hd HP Hl.
  destruct (encrypt_lines public_mod public_exp priv_exp fuel
                          Hmod Hbig Hexp Hpriv Hkey Hf He Hd
                          (getlines text []) 1 ltac:(lia) ltac:(lia) HP)
    as (padded_lines & pairs & S & G & F).
  exists pairs. split; [|assumption].
  apply (large_encrypt_spawned _ _ _ _ _ _ S G).
Qed.

Lemma lines_round_trip_witness :
  exists pairs,
    large_encrypt demo_mod [1] 10 (lit "ab " ++ [newline] ++ lit "cd") = Ret pairs /\
    Forall2 (decrypts_to demo_mod [1] 10)
            (getlines (lit "ab " ++ [newline] ++ lit "cd") []) pairs.
Proof.
  apply (lines_round_trip demo_mod [1] [1] 10 (lit "ab " ++ [newline] ++ lit "cd")).
  - apply demo_key.
  - apply demo_key.
  - split; [reflexivity|discriminate].
  - split; [reflexivity|discriminate].
  - apply demo_key.
  - apply Nat.le_refl.
  - vm_compute. repeat constructor.
  - vm_compute. repeat constructor.
  - vm_compute. repeat constructor.
  - vm_compute. repeat constructor.
Defined.

(** *** Every text of fewer than a thousand lines is encrypted *)

Section Encrypt.
Variables public_mod public_exp : Bignum.
Variable fuel : nat.
Hypothesis Hmod : canonical public_mod.
Hypothesis Hpos : 0 < val public_mod.
Hypothesis Hexp : digits public_exp /\ public_exp <> [].
Hypothesis Hfuel : (10 <= fuel)%nat.
Hypothesis Hfuel_e : (Z.to_nat (Z.log2 (val public_exp)) + 2 <= fuel)%nat.

Lemma encrypt_task_returns padded_line :
  (51 <= length padded_line)%nat ->
  exists pair,
    encrypt_task public_mod public_exp fuel padded_line = Ret pair /\
    digit_string (fst pair) /\ digit_string (snd pair).
Proof.
  intros Hl. destruct Hexp as [He Hene].
  unfold encrypt_task, substr, substr_from.
  replace (Nat.ltb (length padded_line) 0) with false by reflexivity.
  replace (Nat.ltb (length padded_line) 51) with false
    by (symmetry; apply Nat.ltb_ge; assumption).
  cbn [bind].
  destruct (mod_exponent_spec fuel (string_to_bignum (firstn 51 (skipn 0 padded_line)))
              public_exp public_mod (string_to_bignum_digits _) He Hene Hmod Hpos
              Hfuel Hfuel_e) as (c1 & E1 & (D1 & _) & _).
  destruct (mod_exponent_spec fuel (string_to_bignum (skipn 51 padded_line))
              public_exp public_mod (string_to_bignum_digits _) He Hene Hmod Hpos
              Hfuel Hfuel_e) as (c2 & E2 & (D2 & _) & _).
  rewrite E1. cbn [bind]. rewrite E2. cbn [bind].
  exists (to_string c1, to_string c2).
  split; [reflexivity|]. split; apply to_string_digit_string; assumption.
Qed.

Lemma encrypt_lines_return :
  forall lines line_num,
    0 <= line_num -> line_num + Z.of_nat (length lines) <= 1000 ->
    exists padded_lines pairs,
      spawn_loop lines line_num = Ret padded_lines /\
      get_all (map (encrypt_task public_mod public_exp fuel) padded_lines) = Ret pairs /\
      Forall (fun pair => digit_string (fst pair) /\ digit_string (snd pair)) pairs.
Proof.
  induction lines as [|line lines IH]; intros line_num Hn Hl.
  - exists [], []. repeat split. constructor.
  - cbn [length] in Hl.
    pose proof (padding_frame (firstn 96 line) line_num (firstn_le_length _ _)
                              (marker_length line_num ltac:(lia))) as P.
    match type of P with _ = Ret ?f => set (frame := f) in * end.
    assert (Hframe : (51 <= length frame)%nat).
    { unfold frame. rewrite !length_app, repeat_length, (marker_length line_num) by lia.
      lia. }
    destruct (encrypt_task_returns frame Hframe) as (pair & T & D).
    destruct (IH (line_num + 1) ltac:(lia) ltac:(lia)) as (more & pairs & S & G & F).
    exists (frame :: more), (pair :: pairs).
    cbn [spawn_loop]. rewrite truncate_firstn, P. cbn [bind]. rewrite S. cbn [bind].
    split; [reflexivity|]. cbn [map get_all]. rewrite T. cbn [bind]. rewrite G.
    split; [reflexivity|]. constructor; assumption.
Qed.
End Encrypt.

(** X15.  For a canonical non-zero modulus and a public exponent that is
    a non-empty digit vector, every text of at most 999 lines is encrypted:
    [large_encrypt] returns one pair of digit strings per line, the pair at
    position [i] is the one computed from line [i] (cut to 96 characters)
    under the line number [i + 1], and the result is the same for every
    order in which the tasks complete. *)
Theorem large_encrypt_returns
        (public_mod public_exp : Bignum) (fuel : nat) (text : std_string) :
  canonical public_mod -> val public_mod <> 0 ->
  digits public_exp /\ public_exp <> [] ->
  (10 <= fuel)%nat ->
  (Z.to_nat (Z.log2 (val public_exp)) + 2 <= fuel)%nat ->
  (length (getlines text []) <= 999)%nat ->
  exists pairs,
    large_encrypt public_mod public_exp fuel text = Ret pairs /\
    length pairs = length (getlines text []) /\
    Forall (fun pair => digit_string (fst pair) /\ digit_string (snd pair)) pairs /\
    (forall i line,
        nth_error (getlines text []) i = Some line ->
        exists padded_line pair,
          padding (firstn 96 line) (1 + Z.of_nat i) = Ret padded_line /\
          encrypt_task public_mod public_exp fuel padded_line = Ret pair /\
          nth_error pairs i = Some pair) /\
    (forall schedule,
        (forall i, (i < length (getlines text []))%nat -> In i schedule) ->
        large_encrypt_scheduled public_mod public_exp schedule fuel text = Ret pairs).
Proof.
  intros Hmod Hnz Hexp Hf He Hl.
  assert (Hpos : 0 < val public_mod).
  { destruct Hmod as (Hd & _). pose proof (val_bound public_mod Hd). lia. }
  destruct (encrypt_lines_return public_mod public_exp fuel Hmod Hpos Hexp Hf He
                                 (getlines text []) 1 ltac:(lia) ltac:(lia))
    as (padded_lines & pairs & S & G & F).
  assert (E : large_encrypt public_mod public_exp fuel text = Ret pairs)
    by (apply (large_encrypt_spawned _ _ _ _ _ _ S G)).
  destruct (large_encrypt_in_order public_mod public_exp fuel text pairs E)
    as (O1 & O2 & O3).
  exists pairs. auto.
Qed.

Lemma large_encrypt_returns_witness :
  exists pairs,
    large_encrypt [7; 7] [3] 10 (lit "ab" ++ [newline] ++ lit "cd") = Ret pairs /\
    length pairs = length (getlines (lit "ab" ++ [newline] ++ lit "cd") []) /\
    Forall (fun pair => digit_string (fst pair) /\ digit_string (snd pair)) pairs /\
    (forall i line,
        nth_error (getlines (lit "ab" ++ [newline] ++ lit "cd") []) i = Some line ->
        exists padded_line pair,
          padding (firstn 96 line) (1 + Z.of_nat i) = Ret padded_line /\
          encrypt_task [7; 7] [3] 10 padded_line = Ret pair /\
          nth_error pairs i = Some pair) /\
    (forall schedule,
        (forall i, (i < length (getlines (lit "ab" ++ [newline] ++ lit "cd") []))%nat ->
                   In i schedule) ->
        large_encrypt_scheduled [7; 7] [3] schedule 10
                                (lit "ab" ++ [newline] ++ lit "cd") = Ret pairs).
Proof.
  apply (large_encrypt_returns [7; 7] [3] 10 (lit "ab" ++ [newline] ++ lit "cd")).
  - repeat split. discriminate.
  - vm_compute. discriminate.
  - split; [reflexivity|discriminate].
  - apply Nat.le_refl.
  - vm_compute. repeat constructor.
  - vm_compute. repeat constructor.
Defined.

(** ** The command line *)

Lemma no_newline_cons c s :
  no_newline (c :: s) <-> c <> newline /\ no_newline s.
Proof.
  unfold no_newline. cbn [forallb]. rewrite andb_true_iff, negb_true_iff.
  rewrite Ascii.eqb_neq. tauto.
Qed.

Lemma no_newline_app s t : no_newline (s ++ t) <-> no_newline s /\ no_newline t.
Proof. unfold no_newline. rewrite forallb_app, andb_true_iff. tauto. Qed.

Lemma getlines_line L :
  no_newline L ->
  forall rest line, getlines (L ++ newline :: rest) line = (line ++ L) :: getlines rest [].
Proof.
  induction L as [|c L IH]; intros HL rest line.
  - cbn [app getlines]. rewrite Ascii.eqb_refl, app_nil_r. reflexivity.
  - apply no_newline_cons in HL. destruct HL as [Hc HL].
    cbn [app getlines]. apply Ascii.eqb_neq in Hc. rewrite Hc.
    rewrite IH by assumption. rewrite <- app_assoc. reflexivity.
Qed.

Lemma getlines_join lines :
  Forall no_newline lines ->
  getlines (flat_map (fun line => line ++ [newline]) lines) [] = lines.
Proof.
  induction lines as [|l lines IH]; intros H; [reflexivity|].
  inversion H; subst. cbn [flat_map]. rewrite <- app_assoc. cbn [app].
  rewrite getlines_line by assumption. cbn [app]. rewrite IH by assumption.
  reflexivity.
Qed.

Lemma getlines_no_newline stream :
  forall line, no_newline line -> Forall no_newline (getlines stream line).
Proof.
  induction stream as [|c stream IH]; intros line Hl; cbn [getlines].
  - destruct line; constructor; [assumption|constructor].
  - destruct (Ascii.eqb c newline) eqn:E.
    + constructor; [assumption|]. apply IH. reflexivity.
    + apply IH. apply no_newline_app. split; [assumption|].
      apply no_newline_cons. split; [apply Ascii.eqb_neq; assumption|reflexivity].
Qed.

Lemma getlines_nonempty stream :
  forall line, stream <> [] \/ line <> [] -> getlines stream line <> [].
Proof.
  induction stream as [|c stream IH]; intros line H; cbn [getlines].
  - destruct line; [destruct H; congruence|discriminate].
  - destruct (Ascii.eqb c newline); [discriminate|].
    apply IH. right. destruct line; discriminate.
Qed.

(** X17.  Splitting into lines undoes joining them: lines without a
    newline, each written with a newline after it, are read back by the
    [getline] loop as they were; the lines read never hold a newline; so
    the text that [main] builds for [large_encrypt] is split there into
    exactly the lines [main] read, and a last line without a newline is
    read like one with it. *)
Theorem getlines_round_trip (cin : std_string) :
  (forall lines, Forall no_newline lines ->
                 getlines (flat_map (fun line => line ++ [newline]) lines) [] = lines) /\
  Forall no_newline (getlines cin []) /\
  getlines (read_text cin) [] = getlines cin [] /\
  (cin <> [] -> getlines cin [] <> []).
Proof.
  split; [apply getlines_join|].
  assert (H : Forall no_newline (getlines cin [])) by (apply getlines_no_newline; reflexivity).
  split; [assumption|]. split.
  - unfold read_text. apply getlines_join. assumption.
  - intros Hne. apply getlines_nonempty. left. assumption.
Qed.

Lemma digit_string_no_newline s : digit_string s -> no_newline s.
Proof.
  unfold digit_string, no_newline. induction s as [|c s IH]; [reflexivity|].
  cbn [forallb]. rewrite !andb_true_iff. intros [Hc Hs]. split; [|apply IH; assumption].
  apply negb_true_iff, Ascii.eqb_neq. intros ->. discriminate Hc.
Qed.

Lemma print_pairs_lines pairs :
  print_pairs pairs = flat_map (fun line => line ++ [newline]) (pair_lines pairs).
Proof.
  unfold print_pairs, pair_lines, endl.
  induction pairs as [|[first second] pairs IH]; [reflexivity|].
  cbn [flat_map fst snd]. rewrite IH. cbn [app flat_map].
  repeat (rewrite <- ?app_assoc; cbn [app]). reflexivity.
Qed.

Lemma read_pairs_pair_lines pairs : read_pairs (pair_lines pairs) = pairs.
Proof.
  unfold pair_lines.
  induction pairs as [|[first second] pairs IH]; [reflexivity|].
  cbn [flat_map fst snd app read_pairs]. fold (pair_lines pairs).
  f_equal. assumption.
Qed.

Lemma read_pairs_unpaired pairs x : read_pairs (pair_lines pairs ++ [x]) = pairs.
Proof.
  unfold pair_lines.
  induction pairs as [|[first second] pairs IH]; [reflexivity|].
  cbn [flat_map fst snd app read_pairs]. f_equal. assumption.
Qed.

(** What [main d] reads back from what [main e] printed. *)
Lemma read_printed_pairs pairs :
  Forall (fun pair => no_newline (fst pair) /\ no_newline (snd pair)) pairs ->
  getlines (print_pairs pairs) [] = pair_lines pairs.
Proof.
  intros H. rewrite print_pairs_lines. apply getlines_join.
  unfold pair_lines. induction H as [|[first second] pairs [H1 H2] _ IH];
    [constructor|].
  cbn [flat_map app fst snd] in *. repeat constructor; assumption.
Qed.

Lemma print_decrypted_lines public_mod priv_exp fuel lines pairs :
  Forall2 (decrypts_to public_mod priv_exp fuel) lines pairs ->
  forall cout,
    print_decrypted public_mod priv_exp fuel pairs cout =
    (cout ++ flat_map (fun line => strip_trailing_spaces (firstn 96 line) ++ endl) lines,
     Ret tt).
Proof.
  induction 1 as [|line [first second] lines pairs (_ & _ & D) _ IH]; intros cout.
  - cbn [print_decrypted flat_map]. rewrite app_nil_r. reflexivity.
  - cbn [print_decrypted flat_map fst snd] in *. rewrite D, IH.
    rewrite <- !app_assoc. reflexivity.
Qed.

(** X18.  End to end: under a key whose modulus is at least [10 ^ 153]
    and whose private exponent undoes the public one, what [main e] prints
    for an input of 1 to 999 printable lines is read back by [main d], which
    prints the lines of that input again, each cut to its first 96
    characters and without its trailing spaces. *)
Theorem main_round_trip
        (public_mod public_exp priv_exp : Bignum) (fuel : nat)
        (prog : std_string) (cin : std_string) :
  canonical public_mod -> 10 ^ 153 <= val public_mod ->
  digits public_exp /\ public_exp <> [] ->
  digits priv_exp /\ priv_exp <> [] ->
  (forall m, 0 <= m < val public_mod ->
             ((m ^ val public_exp) mod val public_mod) ^ val priv_exp
               mod val public_mod = m) ->
  (10 <= fuel)%nat ->
  (Z.to_nat (Z.log2 (val public_exp)) + 2 <= fuel)%nat ->
  (Z.to_nat (Z.log2 (val priv_exp)) + 2 <= fuel)%nat ->
  cin <> [] ->
  Forall printable (getlines cin []) ->
  (length (getlines cin []) <= 999)%nat ->
  exists cout,
    main public_mod public_exp priv_exp fuel [prog; lit "e"] cin = (cout, Ret tt) /\
    main public_mod public_exp priv_exp fuel [prog; lit "d"] cout =
    (flat_map (fun line => strip_trailing_spaces (firstn 96 line) ++ endl)
              (getlines cin []),
     Ret tt).
Proof.
  intros Hmod Hbig Hexp Hpriv Hkey Hf He Hd Hne HP Hl.
  pose proof (getlines_nonempty cin [] (or_introl Hne)) as Hlines.
  assert (Hsplit : getlines (read_text cin) [] = getlines cin []).
  { unfold read_text. apply getlines_join, getlines_no_newline. reflexivity. }
  destruct (encrypt_lines public_mod public_exp priv_exp fuel
                          Hmod Hbig Hexp Hpriv Hkey Hf He Hd
                          (getlines cin []) 1 ltac:(lia) ltac:(lia) HP)
    as (padded_lines & pairs & S & G & F).
  assert (E : large_encrypt_body public_mod public_exp fuel (read_text cin) = Ret pairs).
  { unfold large_encrypt_body. rewrite Hsplit, S. assumption. }
  assert (Hpairs : pairs <> []).
  { intros ->. inversion F. congruence. }
  assert (Hnl : Forall (fun pair => no_newline (fst pair) /\ no_newline (snd pair)) pairs).
  { clear - F. induction F as [|line pair lines pairs (D1 & D2 & _) _ IH]; constructor;
      [split; apply digit_string_no_newline; assumption|assumption]. }
  exists (print_pairs pairs). split.
  - unfold main. change (std_string_eqb (lit "e") (lit "e")) with true. cbv iota.
    cbv zeta. rewrite E.
    destruct (read_text cin) as [|c t] eqn:R; [|reflexivity].
    exfalso. unfold read_text in R.
    destruct (getlines cin []) as [|l ls]; [congruence|].
    cbn [flat_map] in R. destruct l; discriminate R.
  - unfold main. change (std_string_eqb (lit "d") (lit "e")) with false.
    change (std_string_eqb (lit "d") (lit "d")) with true. cbv iota. cbv zeta.
    rewrite (read_printed_pairs pairs Hnl), read_pairs_pair_lines.
    destruct pairs as [|p ps]; [congruence|].
    rewrite (print_decrypted_lines public_mod priv_exp fuel _ _ F []).
    reflexivity.
Qed.

Lemma main_round_trip_witness :
  exists cout,
    main demo_mod [1] [1] 10 [lit "rsa"; lit "e"] (lit "ab " ++ [newline] ++ lit "cd")
    = (cout, Ret tt) /\
    main demo_mod [1] [1] 10 [lit "rsa"; lit "d"] cout =
    (flat_map (fun line => strip_trailing_spaces (firstn 96 line) ++ endl)
              (getlines (lit "ab " ++ [newline] ++ lit "cd") []),
     Ret tt).
Proof.
  apply (main_round_trip demo_mod [1] [1] 10 (lit "rsa")
                         (lit "ab " ++ [newline] ++ lit "cd")).
  - apply demo_key.
  - apply demo_key.
  - split; [reflexivity|discriminate].
  - split; [reflexivity|discriminate].
  - apply demo_key.
  - apply Nat.le_refl.
  - vm_compute. repeat constructor.
  - vm_compute. repeat constructor.
  - discriminate.
  - vm_compute. repeat constructor.
  - vm_compute. repeat constructor.
Defined.

(** X19.  [main d] reads its input two lines at a time and stops at the
    first read that fails: a last line that has no partner is dropped
    without a message, and the output is that of the input without it. *)
Theorem main_unpaired_line
        (public_mod public_exp priv_exp : Bignum) (fuel : nat)
        (prog : std_string) (pairs : list (std_string * std_string))
        (x : std_string) :
  Forall (fun pair => no_newline (fst pair) /\ no_newline (snd pair)) pairs ->
  no_newline x ->
  main public_mod public_exp priv_exp fuel [prog; lit "d"]
       (print_pairs pairs ++ x ++ [newline]) =
  main public_mod public_exp priv_exp fuel [prog; lit "d"] (print_pairs pairs).
Proof.
  intros Hp Hx. unfold main.
  change (std_string_eqb (lit "d") (lit "e")) with false.
  change (std_string_eqb (lit "d") (lit "d")) with true. cbv iota. cbv zeta.
  rewrite (read_printed_pairs pairs Hp), read_pairs_pair_lines.
  assert (H : getlines (print_pairs pairs ++ x ++ [newline]) [] = pair_lines pairs ++ [x]).
  { rewrite print_pairs_lines.
    replace (flat_map (fun line => line ++ [newline]) (pair_lines pairs) ++ x ++ [newline])
      with (flat_map (fun line => line ++ [newline]) (pair_lines pairs ++ [x]))
      by (rewrite flat_map_app; cbn [flat_map]; rewrite app_nil_r; reflexivity).
    apply getlines_join. apply Forall_app. split.
    - clear - Hp. unfold pair_lines.
      induction Hp as [|[first second] ps [H1 H2] _ IH]; [constructor|].
      cbn [flat_map app fst snd] in *. repeat constructor; assumption.
    - repeat constructor. assumption. }
  rewrite H, read_pairs_unpaired. reflexivity.
Qed.

Lemma main_unpaired_line_witness :
  main [7; 7] [3] [7] 10 [lit "rsa"; lit "d"]
       (print_pairs [(lit "12", lit "34")] ++ lit "56" ++ [newline]) =
  main [7; 7] [3] [7] 10 [lit "rsa"; lit "d"] (print_pairs [(lit "12", lit "34")]).
Proof.
  apply (main_unpaired_line [7; 7] [3] [7] 10 (lit "rsa") [(lit "12", lit "34")] (lit "56")).
  - repeat constructor.
  - reflexivity.
Defined.

(** X20.  The four messages of [main]: without a command, with a command
    other than [e] and [d], with [e] on an empty input, and with [d] on an
    input of fewer than two lines, [main] prints its message and returns
    without encrypting or decrypting anything. *)
Theorem main_messages
        (public_mod public_exp priv_exp : Bignum) (fuel : nat)
        (prog : std_string) (argv : list std_string) (cin : std_string) :
  ((length argv < 2)%nat ->
   main public_mod public_exp priv_exp fuel argv cin
   = (lit "Error: No command provided" ++ endl, Ret tt)) /\
  (forall command,
      std_string_eqb command (lit "e") = false ->
      std_string_eqb command (lit "d") = false ->
      main public_mod public_exp priv_exp fuel [prog; command] cin
      = (lit "Error: Unsupported command" ++ endl, Ret tt)) /\
  main public_mod public_exp priv_exp fuel [prog; lit "e"] []
  = (lit "Error: No text to encrypt" ++ endl, Ret tt) /\
  ((length (getlines cin []) < 2)%nat ->
   main public_mod public_exp priv_exp fuel [prog; lit "d"] cin
   = (lit "Error: No values to decrypt" ++ endl, Ret tt)).
Proof.
  split; [|split; [|split]].
  - intros H. destruct argv as [|a [|b argv]]; try reflexivity.
    cbn [length] in H. lia.
  - intros command He Hd. unfold main. rewrite He, Hd. reflexivity.
  - reflexivity.
  - intros H. unfold main.
    change (std_string_eqb (lit "d") (lit "e")) with false.
    change (std_string_eqb (lit "d") (lit "d")) with true. cbv iota. cbv zeta.
    destruct (getlines cin []) as [|l1 [|l2 ls]]; try reflexivity.
    cbn [length] in H. lia.
Qed.

(** ** Trimming, decoding, and a zero modulus *)

(** X21.  [remove_excess] keeps the value and the digits, does nothing to
    a vector that has no leading zero, and turns every non-empty digit
    vector into the canonical vector of its value. *)
Theorem remove_excess_canonical_form (v : Bignum) :
  digits v -> v <> [] ->
  canonical (remove_excess v) /\
  val (remove_excess v) = val v /\
  remove_excess (remove_excess v) = remove_excess v /\
  (canonical v -> remove_excess v = v).
Proof.
  intros Hd Hne.
  split; [apply remove_excess_canonical; assumption|].
  split; [apply remove_excess_val|].
  split; [apply remove_excess_fixed, remove_excess_no_leading_zero|].
  intros (_ & _ & Hz). apply remove_excess_fixed. assumption.
Qed.

Lemma remove_excess_canonical_form_witness :
  canonical (remove_excess [0; 0; 4; 0]) /\
  val (remove_excess [0; 0; 4; 0]) = val [0; 0; 4; 0] /\
  remove_excess (remove_excess [0; 0; 4; 0]) = remove_excess [0; 0; 4; 0] /\
  (canonical [0; 0; 4; 0] -> remove_excess [0; 0; 4; 0] = [0; 0; 4; 0]).
Proof.
  apply (remove_excess_canonical_form [0; 0; 4; 0]).
  - reflexivity.
  - discriminate.
Defined.

Lemma digit_char_code c : is_digit_char c = true -> 48 <= char_code c <= 57.
Proof.
  unfold is_digit_char. intros H. apply andb_true_iff in H.
  destruct H as [H1 H2]. apply Z.leb_le in H1. apply Z.leb_le in H2. lia.
Qed.

(** [std::stoi] of three digit characters is their number. *)
Lemma stoi_digits x y z :
  is_digit_char x = true -> is_digit_char y = true -> is_digit_char z = true ->
  stoi [x; y; z] =
  Ret (((char_code x - 48) * 10 + (char_code y - 48)) * 10 + (char_code z - 48)).
Proof.
  intros Hx Hy Hz.
  pose proof (digit_char_code x Hx) as Cx.
  pose proof (digit_char_code y Hy) as Cy.
  pose proof (digit_char_code z Hz) as Cz.
  unfold stoi. cbn [skip_spaces].
  assert (Hs : is_space x = false).
  { unfold is_space. apply orb_false_iff. split.
    - apply Z.eqb_neq. lia.
    - apply andb_false_iff. right. apply Z.leb_gt. lia. }
  rewrite Hs.
  assert (Hm : Ascii.eqb x "-" = false).
  { apply Ascii.eqb_neq. intros ->. vm_compute in Cx. destruct Cx as [C _]. apply C. reflexivity. }
  assert (Hp : Ascii.eqb x "+" = false).
  { apply Ascii.eqb_neq. intros ->. vm_compute in Cx. destruct Cx as [C _]. apply C. reflexivity. }
  rewrite Hm, Hp, Hx. cbn [read_digits]. rewrite Hx, Hy, Hz.
  set (n := (((0 * 10 + (char_code x - 48)) * 10 + (char_code y - 48)) * 10
             + (char_code z - 48))).
  assert (Hn : 0 <= n <= 999) by (unfold n; lia).
  replace ((n <? - 2 ^ 31) || (2 ^ 31 - 1 <? n)) with false.
  - unfold n. apply f_equal. ring.
  - symmetry. apply orb_false_iff. split; apply Z.ltb_ge; lia.
Qed.

Lemma decode_groups_digit_string :
  forall n s,
    digit_string s -> length s = (3 * n)%nat ->
    exists t, decode_groups s = Ret t /\ length t = n.
Proof.
  unfold digit_string.
  induction n as [|n IH]; intros s Hs Hl.
  - destruct s; [|discriminate]. exists []. split; reflexivity.
  - destruct s as [|x [|y [|z rest]]]; cbn [length] in Hl; try lia.
    cbn [forallb] in Hs. apply andb_true_iff in Hs. destruct Hs as [Hx Hs].
    apply andb_true_iff in Hs. destruct Hs as [Hy Hs].
    apply andb_true_iff in Hs. destruct Hs as [Hz Hs].
    destruct (IH rest Hs ltac:(lia)) as (t & T1 & T2).
    cbn [decode_groups]. rewrite (stoi_digits x y z Hx Hy Hz). cbn [bind].
    rewrite T1. cbn [bind]. eexists. split; [reflexivity|]. cbn [length]. lia.
Qed.

(** X22.  On a vector of digits [bignum_to_string] never throws: it returns
    one character for every three digits, the first group being completed
    with zeros. *)
Theorem bignum_to_string_returns (v : Bignum) :
  digits v ->
  exists s, bignum_to_string v = Ret s /\
            (length v <= 3 * length s < length v + 3)%nat.
Proof.
  intros Hv. unfold bignum_to_string.
  destruct (to_string_digits v Hv) as [Tl _].
  pose proof (to_string_digit_string v Hv) as Td.
  rewrite Tl.
  pose proof (Nat.div_mod_eq (length v) 3) as Hdm.
  pose proof (Nat.mod_upper_bound (length v) 3 ltac:(lia)) as Hb.
  destruct (Nat.eqb (Nat.modulo (length v) 3) 0) eqn:E; cbn [negb].
  - apply Nat.eqb_eq in E.
    destruct (decode_groups_digit_string (Nat.div (length v) 3) (to_string v) Td)
      as (t & T1 & T2); [lia|].
    exists t. split; [assumption|]. lia.
  - apply Nat.eqb_neq in E.
    destruct (decode_groups_digit_string
                (S (Nat.div (length v) 3))
                (repeat "0"%char (3 - Nat.modulo (length v) 3) ++ to_string v))
      as (t & T1 & T2).
    + unfold digit_string in *. rewrite forallb_app, Td, andb_true_r.
      clear. induction (3 - Nat.modulo (length v) 3)%nat; [reflexivity|assumption].
    + rewrite length_app, repeat_length, Tl. lia.
    + exists t. split; [assumption|]. lia.
Qed.

Lemma bignum_to_string_returns_witness :
  exists s, bignum_to_string [6; 5; 0; 6; 6] = Ret s /\
            (length [6; 5; 0; 6; 6] <= 3 * length s < length [6; 5; 0; 6; 6] + 3)%nat.
Proof.
  apply (bignum_to_string_returns [6%Z; 5%Z; 0%Z; 6%Z; 6%Z]). reflexivity.
Defined.

(** X23.  A zero modulus is not caught: the first reduction of the base
    divides by it, and for a base of non-zero value [mod_exponent] does not
    come back, whatever the exponent. *)
Theorem mod_exponent_zero_modulus (fuel : nat) (base exponent : Bignum) :
  digits base -> val base <> 0 ->
  mod_exponent fuel base exponent zero = OutOfFuel.
Proof.
  intros Hb Hv. unfold mod_exponent, modulo, divide.
  rewrite (divide_for_zero_diverges fuel base [0] Hb Hv). reflexivity.
Qed.

Lemma mod_exponent_zero_modulus_witness :
  mod_exponent 50 [4; 2] [3] zero = OutOfFuel.
Proof.
  apply (mod_exponent_zero_modulus 50 [4; 2] [3]).
  - reflexivity.
  - vm_compute. discriminate.
Defined.

(** ** The protocol on whole texts *)

(** C1, as the code has it.  Under a key whose modulus is at least
    [10 ^ 153] and whose private exponent undoes the public one, a text of
    at most 999 lines is encrypted into one pair per line, and every line
    of it that is printable, has at most 96 characters and does not end
    with a space comes back from decrypting the pair at its position. *)
Theorem encrypt_decrypt_round_trip
        (public_mod public_exp priv_exp : Bignum) (fuel : nat)
        (text : std_string) (i : nat) (L : std_string) :
  canonical public_mod -> 10 ^ 153 <= val public_mod ->
  digits public_exp /\ public_exp <> [] ->
  digits priv_exp /\ priv_exp <> [] ->
  (forall m, 0 <= m < val public_mod ->
             ((m ^ val public_exp) mod val public_mod) ^ val priv_exp
               mod val public_mod = m) ->
  (10 <= fuel)%nat ->
  (Z.to_nat (Z.log2 (val public_exp)) + 2 <= fuel)%nat ->
  (Z.to_nat (Z.log2 (val priv_exp)) + 2 <= fuel)%nat ->
  (length (getlines text []) <= 999)%nat ->
  nth_error (getlines text []) i = Some L ->
  printable L -> (length L <= 96)%nat -> ends_with_space L = false ->
  exists pairs first second,
    large_encrypt public_mod public_exp fuel text = Ret pairs /\
    length pairs = length (getlines text []) /\
    nth_error pairs i = Some (first, second) /\
    large_decrypt public_mod priv_exp fuel first second = Ret L.
Proof.
  intros Hmod Hbig Hexp Hpriv Hkey Hf He Hd Hl Hn HL Hlen Hend.
  assert (Hpos : 0 < val public_mod).
  { pose proof (pow10_pos 153 ltac:(lia)). lia. }
  destruct (encrypt_lines_return public_mod public_exp fuel Hmod Hpos Hexp Hf He
                                 (getlines text []) 1 ltac:(lia) ltac:(lia))
    as (padded_lines & pairs & S & G & _).
  assert (E : large_encrypt public_mod public_exp fuel text = Ret pairs)
    by (apply (large_encrypt_spawned _ _ _ _ _ _ S G)).
  destruct (large_encrypt_in_order public_mod public_exp fuel text pairs E)
    as (O1 & O2 & _).
  destruct (O2 i L Hn) as (padded_line & pair & P & T & N).
  assert (Hi : (i < length (getlines text []))%nat)
    by (apply nth_error_Some; rewrite Hn; discriminate).
  destruct (frame_round_trip public_mod public_exp priv_exp fuel
                             Hmod Hbig Hexp Hpriv Hkey Hf He Hd
                             (1 + Z.of_nat i) L ltac:(lia) HL)
    as (padded_line' & pair' & P' & T' & (_ & _ & D)).
  rewrite P in P'. injection P' as <-.
  rewrite T in T'. injection T' as <-.
  rewrite (firstn_all2 L) in D by assumption.
  rewrite (strip_trailing_spaces_fixed L Hend) in D.
  destruct pair as [first second]. cbn [fst snd] in D.
  exists pairs, first, second. auto.
Qed.

Lemma encrypt_decrypt_round_trip_witness :
  exists pairs first second,
    large_encrypt demo_mod [1] 10 (lit "Hello" ++ [newline] ++ lit "big world")
      = Ret pairs /\
    length pairs
      = length (getlines (lit "Hello" ++ [newline] ++ lit "big world") []) /\
    nth_error pairs 1 = Some (first, second) /\
    large_decrypt demo_mod [1] 10 first second = Ret (lit "big world").
Proof.
  apply (encrypt_decrypt_round_trip
           demo_mod [1] [1] 10 (lit "Hello" ++ [newline] ++ lit "big world")
           1 (lit "big world")).
  - apply demo_key.
  - apply demo_key.
  - split; [reflexivity|discriminate].
  - split; [reflexivity|discriminate].
  - apply demo_key.
  - apply Nat.le_refl.
  - vm_compute. repeat constructor.
  - vm_compute. repeat constructor.
  - vm_compute. repeat constructor.
  - reflexivity.
  - reflexivity.
  - vm_compute. repeat constructor.
  - reflexivity.
Defined.

(** *** No exception leaves [large_decrypt]

    The arithmetic throws nothing, and what [stoi] or [substr] throw in the
    third thread ends the process. *)

Lemma bind_never_throws {A B} (m : res A) (k : A -> res B) e :
  m <> Throw e -> (forall a, k a <> Throw e) -> bind m k <> Throw e.
Proof.
  intros Hm Hk. destruct m as [a|e'| |]; cbn [bind];
    [apply Hk| |discriminate|discriminate].
  intros [= ->]. apply Hm. reflexivity.
Qed.

Lemma mod_exponent_while_never_throws fuel modulus e :
  forall n mod_exp curr_base curr_exponent,
    mod_exponent_while n fuel mod_exp curr_base curr_exponent modulus <> Throw e.
Proof.
  induction n as [|n IH]; intros mod_exp curr_base curr_exponent;
    cbn [mod_exponent_while]; [discriminate|].
  destruct (negb (bignum_eqb curr_exponent zero)); [|discriminate].
  apply bind_never_throws.
  - destruct (negb (Z.rem (last curr_exponent 0) 2 =? 0));
      [apply modulo_never_throws|discriminate].
  - intros mod_exp1. apply bind_never_throws; [apply modulo_never_throws|].
    intros square_mod. apply bind_never_throws; [apply divide_never_throws|].
    intros next_exponent. apply IH.
Qed.

Lemma mod_exponent_never_throws fuel base exponent modulus e :
  mod_exponent fuel base exponent modulus <> Throw e.
Proof.
  unfold mod_exponent. apply bind_never_throws; [apply modulo_never_throws|].
  intros curr_base. apply bind_never_throws;
    [apply mod_exponent_while_never_throws|discriminate].
Qed.

Lemma in_thread_never_throws {A} (body : res A) e : in_thread body <> Throw e.
Proof. destruct body; discriminate. Qed.

Lemma large_decrypt_never_throws public_mod priv_exp fuel first second e :
  large_decrypt public_mod priv_exp fuel first second <> Throw e.
Proof.
  unfold large_decrypt.
  apply bind_never_throws; [apply in_thread_never_throws|]. intros first_decrypted.
  apply bind_never_throws; [apply in_thread_never_throws|]. intros second_decrypted.
  apply in_thread_never_throws.
Qed.

(** *** The thousandth line *)

(** The tasks that an exception finds started are waited for; when every
    one of them comes back, the exception goes on. *)
Lemma wait_all_returns (public_mod public_exp : Bignum) (fuel : nat) :
  canonical public_mod -> 0 < val public_mod ->
  digits public_exp /\ public_exp <> [] ->
  (10 <= fuel)%nat ->
  (Z.to_nat (Z.log2 (val public_exp)) + 2 <= fuel)%nat ->
  forall padded_lines,
    forallb (fun padded_line => Nat.leb 51 (length padded_line)) padded_lines = true ->
    wait_all (map (encrypt_task public_mod public_exp fuel) padded_lines) = Ret tt.
Proof.
  intros Hmod Hpos Hexp Hf He.
  induction padded_lines as [|padded_line rest IH]; intros H; [reflexivity|].
  cbn [forallb] in H. apply andb_true_iff in H. destruct H as [H1 H2].
  apply Nat.leb_le in H1.
  destruct (encrypt_task_returns public_mod public_exp fuel Hmod Hpos Hexp Hf He
                                 padded_line H1) as (pair & T & _).
  cbn [map wait_all]. rewrite T. apply IH. assumption.
Qed.

Lemma encrypt_task_zero_modulus (public_exp : Bignum) (fuel : nat) padded_line :
  (51 <= length padded_line)%nat ->
  val (string_to_bignum (firstn 51 padded_line)) <> 0 ->
  encrypt_task zero public_exp fuel padded_line = OutOfFuel.
Proof.
  intros Hl Hv. unfold encrypt_task, substr.
  replace (Nat.ltb (length padded_line) 0) with false by reflexivity.
  cbn [bind]. change (skipn 0 padded_line) with padded_line.
  unfold mod_exponent at 1. unfold modulo, divide.
  rewrite (divide_for_zero_diverges fuel _ [0] (string_to_bignum_digits _) Hv).
  reflexivity.
Qed.

Lemma line_1000_reading_loop :
  spawn_loop (getlines (repeat newline 999 ++ repeat "a"%char 96) []) 1
  = Throw length_error /\
  forallb (fun padded_line => Nat.leb 51 (length padded_line))
          (started (getlines (repeat newline 999 ++ repeat "a"%char 96) []) 1) = true /\
  nth_error (started (getlines (repeat newline 999 ++ repeat "a"%char 96) []) 1) 0
  = Some (lit "  1" ++ repeat space 96 ++ lit "  1").
Proof.
  split; [vm_compute; reflexivity|]. split; vm_compute; reflexivity.
Qed.

Lemma large_encrypt_line_1000_throws (public_mod public_exp : Bignum) (fuel : nat) :
  canonical public_mod -> val public_mod <> 0 ->
  digits public_exp /\ public_exp <> [] ->
  (10 <= fuel)%nat ->
  (Z.to_nat (Z.log2 (val public_exp)) + 2 <= fuel)%nat ->
  large_encrypt public_mod public_exp fuel
                (repeat newline 999 ++ repeat "a"%char 96)
  = Throw length_error.
Proof.
  intros Hmod Hnz Hexp Hf He.
  assert (Hpos : 0 < val public_mod).
  { destruct Hmod as (Hd & _). pose proof (val_bound public_mod Hd). lia. }
  destruct line_1000_reading_loop as (S & F & _).
  unfold large_encrypt, large_encrypt_body. rewrite S. cbn [bind unwinding].
  rewrite (wait_all_returns public_mod public_exp fuel Hmod Hpos Hexp Hf He _ F).
  reflexivity.
Qed.

(** C10 on a text of a thousand lines whose last line has 96 characters:
    the line number takes four characters, [padding] asks [append] for
    [size_t(-1)] spaces and throws [length_error] in the reading loop, after
    the tasks of the first 999 lines were started.  [large_encrypt] returns
    no pair, whatever the key; under a canonical non-zero modulus and a
    public exponent of digits the tasks come back and the call leaves by
    [length_error] (so it does under the modulus 77 and the exponent 3);
    under the modulus zero the task of the first line does not come back,
    and neither does the call. *)
Theorem large_encrypt_line_1000 :
  length (getlines (repeat newline 999 ++ repeat "a"%char 96) []) = 1000%nat /\
  (forall public_mod public_exp fuel pairs,
      large_encrypt public_mod public_exp fuel
                    (repeat newline 999 ++ repeat "a"%char 96)
      <> Ret pairs) /\
  (forall public_mod public_exp fuel,
      canonical public_mod -> val public_mod <> 0 ->
      digits public_exp /\ public_exp <> [] ->
      (10 <= fuel)%nat ->
      (Z.to_nat (Z.log2 (val public_exp)) + 2 <= fuel)%nat ->
      large_encrypt public_mod public_exp fuel
                    (repeat newline 999 ++ repeat "a"%char 96)
      = Throw length_error) /\
  large_encrypt [7; 7] [3] 10 (repeat newline 999 ++ repeat "a"%char 96)
  = Throw length_error /\
  (forall public_exp fuel,
      large_encrypt zero public_exp fuel
                    (repeat newline 999 ++ repeat "a"%char 96)
      = OutOfFuel).
Proof.
  split; [vm_compute; reflexivity|].
  destruct line_1000_reading_loop as (S & F & N).
  split; [|split; [|split]].
  - intros public_mod public_exp fuel pairs H. apply large_encrypt_ret in H.
    unfold large_encrypt_body in H. rewrite S in H. discriminate H.
  - apply large_encrypt_line_1000_throws.
  - apply large_encrypt_line_1000_throws.
    + repeat split. discriminate.
    + vm_compute. discriminate.
    + split; [reflexivity|discriminate].
    + apply Nat.le_refl.
    + vm_compute. repeat constructor.
  - intros public_exp fuel. unfold large_encrypt, large_encrypt_body. rewrite S.
    cbn [bind unwinding].
    destruct (started (getlines (repeat newline 999 ++ repeat "a"%char 96) []) 1)
      as [|padded_line rest]; [discriminate|].
    cbn [nth_error] in N. injection N as ->.
    cbn [map wait_all]. rewrite encrypt_task_zero_modulus; [reflexivity| |].
    + apply Nat.leb_le. reflexivity.
    + vm_compute. discriminate.
Qed.
